(** * CyneticsIDE: the collaboration relay and the file-operation queue

    A shallow embedding of the Socket.IO collaboration server (room registry,
    presence, change relay and [applyChange]) and of the operation queue of
    [SharedFileSystem], together with the properties the design document
    states about them.

    The server is single-threaded: a handler runs from its first statement
    to its last without another handler in between, so a handler is a
    function from server state to server state, and the server a step
    function over the events that reach it.  Room objects are shared by
    reference between the registry and the closures of the sockets, so they
    live in a heap and are named by their index in it.  The asynchronous
    [processOperation] is cut at its [await]: the moves of the scheduler are
    the calls of the producers and the completions of the awaited
    applications.

    Line and column numbers are integers, a change payload is an object,
    and a query parameter is a string or absent. *)

From Stdlib Require Import ZArith Ascii.
From stdpp Require Import gmap strings list fin_maps.

Open Scope Z_scope.

(** * JavaScript values used by the server *)

(** A JavaScript string, as its sequence of code units. *)
Abbreviation jsstring := (list ascii) (only parsing).

(** The line separator ['\n']. *)
Definition nl : ascii := "010"%char.

Inductive JsError : Type :=
  | TypeError
  | SyntaxError.

(** The completion of a call: a value, or a thrown exception. *)
Inductive completion (A : Type) : Type :=
  | Normal (a : A)
  | Throw (e : JsError).
Arguments Normal {A} a.
Arguments Throw {A} e.

Definition bind {A B : Type} (c : completion A) (k : A -> completion B) : completion B :=
  match c with
  | Normal a => k a
  | Throw e => Throw e
  end.

Notation "'try!' x := c 'in' k" := (bind c (fun x => k))
  (at level 10, x name, c at level 100, k at level 200).

(** Calling a method on [undefined] raises a TypeError. *)
Definition defined {A : Type} (o : option A) : completion A :=
  match o with
  | Some a => Normal a
  | None => Throw TypeError
  end.

(** The values a field of an untyped payload can hold. *)
Inductive JsValue : Type :=
  | JUndefined
  | JNull
  | JBool (b : bool)
  | JNum (n : Z)
  | JStr (s : jsstring).

(** [typeof v === 'string'] *)
Definition is_string (v : JsValue) : bool :=
  match v with
  | JStr _ => true
  | _ => false
  end.

(** * String and array primitives *)

Module Js.

(** [s.split('\n')]: never the empty array; [''.split('\n')] is ['']. *)
Fixpoint split_nl (s : jsstring) : list jsstring :=
  match s with
  | [] => [[]]
  | c :: s' =>
      if decide (c = nl) then [] :: split_nl s'
      else match split_nl s' with
           | [] => [[c]]
           | l :: ls => (c :: l) :: ls
           end
  end.

(** [a.join('\n')] *)
Fixpoint join_nl (ls : list jsstring) : jsstring :=
  match ls with
  | [] => []
  | l :: ls' =>
      match ls' with
      | [] => l
      | _ :: _ => l ++ nl :: join_nl ls'
      end
  end.

(** Clamping of an index argument to [0, len]. *)
Definition clamp (len : nat) (i : Z) : nat := Nat.min (Z.to_nat i) len.

(** [s.substring(a, b)]: both ends clamped, swapped when [a > b]. *)
Definition substring (s : jsstring) (a b : Z) : jsstring :=
  let a' := clamp (length s) a in
  let b' := clamp (length s) b in
  take (Nat.max a' b' - Nat.min a' b') (drop (Nat.min a' b') s).

(** [s.substring(a)]: from the clamped index to the end. *)
Definition substring_from (s : jsstring) (a : Z) : jsstring :=
  drop (clamp (length s) a) s.

(** [a[i]] for an integer [i]: [undefined] out of range. *)
Definition index {A : Type} (a : list A) (i : Z) : option A :=
  if decide (0 <= i) then a !! Z.to_nat i else None.

(** [a.splice(start, deleteCount, ...items)], the array left in [a]. *)
Definition splice {A : Type} (a : list A) (start deleteCount : Z) (items : list A) : list A :=
  let len := Z.of_nat (length a) in
  let actualStart := if decide (start < 0) then Z.max (len + start) 0 else Z.min start len in
  let actualDeleteCount := Z.min (Z.max deleteCount 0) (len - actualStart) in
  take (Z.to_nat actualStart) a ++ items ++ drop (Z.to_nat (actualStart + actualDeleteCount)) a.

End Js.

(** * The change applier *)

Record Range : Type := mkRange {
  startLineNumber : Z;
  startColumn : Z;
  endLineNumber : Z;
  endColumn : Z
}.

(** A change payload as it arrives: [range] may be absent and [text] is
    untyped. *)
Record Change : Type := mkChange {
  range : option Range;
  text : JsValue
}.

(** A change whose [text] passed the [typeof text === 'string'] test of the
    change handler, the only caller of [applyChange]. *)
Record TextChange : Type := mkTextChange {
  tc_range : option Range;
  tc_text : jsstring
}.

(** [applyChange(content, change)].  Reading a line outside the array gives
    [undefined], and the [substring] call on it throws before anything is
    written, so the element assignment only runs with an index in range. *)
Definition applyChange (content : jsstring) (change : TextChange) : completion jsstring :=
  let lines := Js.split_nl content in
  try! range := defined (tc_range change) in
  let text := tc_text change in
  if decide (startLineNumber range = endLineNumber range) then
    try! line := defined (Js.index lines (startLineNumber range - 1)) in
    let lines' :=
      <[ Z.to_nat (startLineNumber range - 1) :=
           Js.substring line 0 (startColumn range - 1) ++
           text ++
           Js.substring_from line (endColumn range - 1) ]> lines in
    Normal (Js.join_nl lines')
  else
    let startLine := Js.index lines (startLineNumber range - 1) in
    let endLine := Js.index lines (endLineNumber range - 1) in
    let newLines := Js.split_nl text in
    try! startLine := defined startLine in
    let newLines :=
      alter (fun l => Js.substring startLine 0 (startColumn range - 1) ++ l) 0%nat newLines in
    try! endLine := defined endLine in
    let newLines :=
      alter (fun l => l ++ Js.substring_from endLine (endColumn range - 1))
            (length newLines - 1)%nat newLines in
    let lines' :=
      Js.splice lines (startLineNumber range - 1)
                (endLineNumber range - startLineNumber range + 1) newLines in
    Normal (Js.join_nl lines').

(** Text literals for the examples. *)
Definition str (s : string) : jsstring := String.list_ascii_of_string s.

(** * JavaScript [Map], with its insertion order *)

Module JsMap.
Section JsMap.
Context {V : Type}.

(** [m.get(k)] *)
Fixpoint get (k : string) (m : list (string * V)) : option V :=
  match m with
  | [] => None
  | (k', v) :: m' => if decide (k = k') then Some v else get k m'
  end.

(** [m.set(k, v)]: an existing key keeps its place, a new one goes last. *)
Fixpoint set (k : string) (v : V) (m : list (string * V)) : list (string * V) :=
  match m with
  | [] => [(k, v)]
  | (k', v') :: m' =>
      if decide (k = k') then (k, v) :: m' else (k', v') :: set k v m'
  end.

(** [m.delete(k)] *)
Definition delete (k : string) (m : list (string * V)) : list (string * V) :=
  filter (fun kv => kv.1 ≠ k) m.

(** [Array.from(m.values())] *)
Definition values (m : list (string * V)) : list V := m.*2.

Definition keys (m : list (string * V)) : list string := m.*1.

(** [m.size] *)
Definition size (m : list (string * V)) : nat := length m.

End JsMap.
End JsMap.

(** * The collaboration server *)

Record CursorPosition : Type := mkCursor { row : Z; column : Z }.

Record Selection : Type := mkSelection {
  startRow : Z;
  sel_startColumn : Z;
  endRow : Z;
  sel_endColumn : Z
}.

(** [socket.handshake.query] *)
Record Query : Type := mkQuery {
  projectId : option string;
  q_userId : option string;
  q_profile : option string
}.

(** A query parameter that passes the [!x] test: present and not empty. *)
Definition truthy (o : option string) : option string :=
  match o with
  | Some s => if decide (s = "") then None else Some s
  | None => None
  end.

(** What running a handler ends in. *)
Inductive Outcome : Type :=
  | Returned
  | Disconnected
  | Uncaught (e : JsError).

(** The identity of a [RoomState] object: its index among the objects
    constructed so far. *)
Abbreviation RoomRef := nat (only parsing).

Section Server.

(** The parsed profile and [JSON.parse]; [None] is a SyntaxError. *)
Variable Profile : Type.
Variable JSON_parse : string -> option Profile.

Record UserPresence : Type := mkPresence {
  userId : string;
  profile : Profile;
  cursor : CursorPosition;
  selection : option Selection;
  lastActive : Z
}.

Record RoomState : Type := mkRoom {
  users : list (string * UserPresence);
  content : jsstring
}.

(** What the handlers registered on a socket captured: [userId] and the
    [room] object.  The captured [projectId] is the Socket.IO room the
    socket joined, kept in [io_room]. *)
Record Listeners : Type := mkListeners {
  l_userId : string;
  l_room : RoomRef
}.

(** A connected socket that went through [socket.join]. *)
Record Socket : Type := mkSocket {
  io_room : string;
  listeners : option Listeners
}.

Inductive Payload : Type :=
  | PresenceEvent (l : list UserPresence)
  | ChangeEvent (c : Change).

(** One [emit]: the Socket.IO room addressed, the socket left out by
    [socket.to], the event, and the sockets it is delivered to. *)
Record Emission : Type := mkEmission {
  em_room : string;
  em_except : option nat;
  em_event : Payload;
  em_to : gset nat
}.

Record Server : Type := mkServer {
  rooms : gmap string RoomRef;
  heap : list RoomState;
  sockets : gmap nat Socket;
  emitted : list Emission
}.

Definition init : Server := mkServer ∅ [] ∅ [].

(** The room object behind a reference.  References are indices into
    [heap], which only grows, so the default is never used. *)
Definition deref (st : Server) (r : RoomRef) : RoomState :=
  default (mkRoom [] []) (heap st !! r).

Definition set_users (f : list (string * UserPresence) -> list (string * UserPresence))
    (r : RoomRef) (st : Server) : Server :=
  mkServer (rooms st)
           (alter (fun room => mkRoom (f (users room)) (content room)) r (heap st))
           (sockets st) (emitted st).

Definition set_content (s : jsstring) (r : RoomRef) (st : Server) : Server :=
  mkServer (rooms st)
           (alter (fun room => mkRoom (users room) s) r (heap st))
           (sockets st) (emitted st).

Definition set_rooms (m : gmap string RoomRef) (st : Server) : Server :=
  mkServer m (heap st) (sockets st) (emitted st).

Definition set_sockets (m : gmap nat Socket) (st : Server) : Server :=
  mkServer (rooms st) (heap st) m (emitted st).

(** The sockets currently in Socket.IO room [p]. *)
Definition members (st : Server) (p : string) : gset nat :=
  dom (filter (fun kv => io_room kv.2 = p) (sockets st)).

(** [io.to(p).emit(..)] when [except] is [None], [socket.to(p).emit(..)]
    from socket [sid] when it is [Some sid]. *)
Definition emit (p : string) (except : option nat) (ev : Payload) (st : Server) : Server :=
  let to := match except with
            | None => members st p
            | Some sid => members st p ∖ {[sid]}
            end in
  mkServer (rooms st) (heap st) (sockets st)
           (emitted st ++ [mkEmission p except ev to]).

Definition presence (st : Server) (r : RoomRef) : Payload :=
  PresenceEvent (JsMap.values (users (deref st r))).

(** [io.on('connection', ...)] for the socket [sid], at time [now]. *)
Definition connection (st : Server) (sid : nat) (q : Query) (now : Z) : Server * Outcome :=
  match truthy (projectId q), truthy (q_userId q), truthy (q_profile q) with
  | Some p, Some u, Some pr =>
      let '(r, st) :=
        match rooms st !! p with
        | Some r => (r, st)
        | None =>
            (length (heap st),
             mkServer (<[p := length (heap st)]> (rooms st))
                      (heap st ++ [mkRoom [] []])
                      (sockets st) (emitted st))
        end in
      let st := set_sockets (<[sid := mkSocket p None]> (sockets st)) st in
      match JSON_parse pr with
      | None => (st, Uncaught SyntaxError)
      | Some parsed =>
          let st := set_users (JsMap.set u (mkPresence u parsed (mkCursor 0 0) None now)) r st in
          let st := emit p None (presence st r) st in
          let st := set_sockets (<[sid := mkSocket p (Some (mkListeners u r))]> (sockets st)) st in
          (st, Returned)
      end
  | _, _, _ => (st, Disconnected)
  end.

(** [socket.on('cursor', ...)] *)
Definition on_cursor (st : Server) (sid : nat)
    (position : CursorPosition) (sel : option Selection) (now : Z) : Server * Outcome :=
  match sockets st !! sid with
  | Some (mkSocket p (Some (mkListeners u r))) =>
      match JsMap.get u (users (deref st r)) with
      | Some user =>
          let user := mkPresence (userId user) (profile user) position sel now in
          let st := set_users (JsMap.set u user) r st in
          (emit p None (presence st r) st, Returned)
      | None => (st, Returned)
      end
  | _ => (st, Returned)
  end.

(** [socket.on('change', ...)] *)
Definition on_change (st : Server) (sid : nat) (change : Change) : Server * Outcome :=
  match sockets st !! sid with
  | Some (mkSocket p (Some (mkListeners u r))) =>
      let st := emit p (Some sid) (ChangeEvent change) st in
      match text change with
      | JStr t =>
          match applyChange (content (deref st r)) (mkTextChange (range change) t) with
          | Normal s => (set_content s r st, Returned)
          | Throw e => (st, Uncaught e)
          end
      | _ => (st, Returned)
      end
  | _ => (st, Returned)
  end.

(** [socket.on('disconnect', ...)]; the socket has left its Socket.IO
    rooms when the listener runs. *)
Definition on_disconnect (st : Server) (sid : nat) : Server * Outcome :=
  match sockets st !! sid with
  | Some (mkSocket p l) =>
      let st := set_sockets (delete sid (sockets st)) st in
      match l with
      | Some (mkListeners u r) =>
          let st := set_users (JsMap.delete u) r st in
          let st := emit p None (presence st r) st in
          if decide (JsMap.size (users (deref st r)) = 0%nat)
          then (set_rooms (delete p (rooms st)) st, Returned)
          else (st, Returned)
      | None => (st, Returned)
      end
  | None => (st, Returned)
  end.

(** What reaches the server. *)
Inductive Event : Type :=
  | Connect (sid : nat) (q : Query) (now : Z)
  | Cursor (sid : nat) (position : CursorPosition) (sel : option Selection) (now : Z)
  | Edit (sid : nat) (change : Change)
  | Disconnect (sid : nat).

Definition step (st : Server) (ev : Event) : Server * Outcome :=
  match ev with
  | Connect sid q now => connection st sid q now
  | Cursor sid position sel now => on_cursor st sid position sel now
  | Edit sid change => on_change st sid change
  | Disconnect sid => on_disconnect st sid
  end.

Definition run (st : Server) (evs : list Event) : Server :=
  foldl (fun st ev => (step st ev).1) st evs.

(** The emissions a step adds. *)
Definition emissions_of (st : Server) (ev : Event) : list Emission :=
  drop (length (emitted st)) (emitted (step st ev).1).

(** The participant ids of the sockets attached to room [p]: those whose
    connection handler ran to its end. *)
Definition attached (st : Server) (p : string) : list string :=
  omap (fun kv => if decide (io_room kv.2 = p)
                  then l_userId <$> listeners kv.2 else None)
       (map_to_list (sockets st)).

(** The environment hands out fresh socket ids, and (the data model's
    assumption) a participant has one connection: no one connects to a
    room to which a socket with the same participant id is attached. *)
Definition admissible (st : Server) (ev : Event) : Prop :=
  match ev with
  | Connect sid q _ =>
      sockets st !! sid = None /\
      forall p u, truthy (projectId q) = Some p -> truthy (q_userId q) = Some u ->
                  u ∉ attached st p
  | _ => True
  end.

Fixpoint admissible_trace (st : Server) (evs : list Event) : Prop :=
  match evs with
  | [] => True
  | ev :: evs' => admissible st ev /\ admissible_trace (step st ev).1 evs'
  end.

(** Socket ids alone are fresh. *)
Definition fresh_ids (st : Server) (ev : Event) : Prop :=
  match ev with
  | Connect sid _ _ => sockets st !! sid = None
  | _ => True
  end.

Fixpoint fresh_trace (st : Server) (evs : list Event) : Prop :=
  match evs with
  | [] => True
  | ev :: evs' => fresh_ids st ev /\ fresh_trace (step st ev).1 evs'
  end.

(** The socket an event comes from. *)
Definition origin (ev : Event) : nat :=
  match ev with
  | Connect sid _ _ | Cursor sid _ _ _ | Edit sid _ | Disconnect sid => sid
  end.

Definition is_leave (ev : Event) : bool :=
  match ev with
  | Disconnect _ => true
  | _ => false
  end.

(** The event is a join of room [p]. *)
Definition joins (p : string) (ev : Event) : Prop :=
  match ev with
  | Connect _ q _ => truthy (projectId q) = Some p
  | _ => False
  end.

(** The Socket.IO room of a connected socket. *)
Definition room_of (st : Server) (sid : nat) : option string :=
  io_room <$> sockets st !! sid.

(** The presence map is keyed by the participant id of its records, and a
    [Map] has each key once. *)
Definition room_wf (room : RoomState) : Prop :=
  NoDup (JsMap.keys (users room)) /\
  Forall (fun kv => userId kv.2 = kv.1) (users room).

(** What holds of the server as long as no participant id is attached
    twice to a room: the sockets attached to a room hold the registered
    room object, and its presence map has the participants attached. *)
Record consistent (st : Server) : Prop := mkConsistent {
  attached_registered :
    forall sid p u r,
      sockets st !! sid = Some (mkSocket p (Some (mkListeners u r))) ->
      rooms st !! p = Some r;
  registered_allocated :
    forall p r, rooms st !! p = Some r -> (r < length (heap st))%nat;
  registered_once :
    forall p p' r, rooms st !! p = Some r -> rooms st !! p' = Some r -> p = p';
  presence_attached :
    forall p r u,
      rooms st !! p = Some r ->
      (is_Some (JsMap.get u (users (deref st r))) <-> u ∈ attached st p);
  attached_once :
    forall sid1 sid2 p u r1 r2,
      sockets st !! sid1 = Some (mkSocket p (Some (mkListeners u r1))) ->
      sockets st !! sid2 = Some (mkSocket p (Some (mkListeners u r2))) ->
      sid1 = sid2;
  rooms_wf :
    forall r room, heap st !! r = Some room -> room_wf room
}.

End Server.

Arguments userId {Profile}.
Arguments profile {Profile}.
Arguments cursor {Profile}.
Arguments selection {Profile}.
Arguments lastActive {Profile}.
Arguments users {Profile}.
Arguments content {Profile}.
Arguments em_room {Profile}.
Arguments em_except {Profile}.
Arguments em_event {Profile}.
Arguments em_to {Profile}.
Arguments rooms {Profile}.
Arguments heap {Profile}.
Arguments sockets {Profile}.
Arguments emitted {Profile}.
Arguments init {Profile}.
Arguments deref {Profile}.
Arguments set_users {Profile}.
Arguments set_content {Profile}.
Arguments set_rooms {Profile}.
Arguments set_sockets {Profile}.
Arguments members {Profile}.
Arguments emit {Profile}.
Arguments presence {Profile}.
Arguments connection {Profile}.
Arguments on_cursor {Profile}.
Arguments on_change {Profile}.
Arguments on_disconnect {Profile}.
Arguments step {Profile}.
Arguments run {Profile}.
Arguments emissions_of {Profile}.
Arguments attached {Profile}.
Arguments admissible {Profile}.
Arguments admissible_trace {Profile}.
Arguments fresh_ids {Profile}.
Arguments fresh_trace {Profile}.
Arguments room_of {Profile}.
Arguments room_wf {Profile}.
Arguments consistent {Profile}.
Arguments attached_registered {Profile st}.
Arguments registered_allocated {Profile st}.
Arguments registered_once {Profile st}.
Arguments presence_attached {Profile st}.
Arguments attached_once {Profile st}.
Arguments rooms_wf {Profile st}.

(** A stand-in for [JSON.parse] in the examples: it knows the profile
    ["{}"], kept as its text, and takes any other string for malformed. *)
Definition parse_example (s : string) : option string :=
  if decide (s = "{}") then Some s else None.

Arguments mkPresence {Profile}.
Arguments mkRoom {Profile}.
Arguments mkServer {Profile}.
Arguments mkEmission {Profile}.
Arguments PresenceEvent {Profile}.
Arguments ChangeEvent {Profile}.

(** * The operation queue of the shared file system *)

Module FileSystem.

Inductive OperationType : Type := create | update | delete | move | rename.

(** A [FileOperation]; of its [file] the queue only needs the [path], the
    entity the operation is about. *)
Record FileOperation : Type := mkOp {
  type : OperationType;
  path : string;
  previousPath : option string;
  userId : string;
  timestamp : Z
}.

(** What the worker did, in order.  [applyOperation] is entered at [Began]
    and the promise it returns settles at [Finished] or at [Failed]; what
    it does in between (the calls of the store, the update of the file
    cache, the watchers) does not touch the queue. *)
Inductive Applied : Type :=
  | Began (op : FileOperation)
  | Finished (op : FileOperation)
  | Failed (op : FileOperation).

(** [awaiting] holds the invocations of [processOperation] suspended at
    [await this.applyOperation(op)], each with its [op]. *)
Record State : Type := mkState {
  operationQueue : list FileOperation;
  isProcessing : bool;
  awaiting : list FileOperation;
  applied : list Applied
}.

Definition init : State := mkState [] false [] [].

(** The [while] loop, from its test to the next [await] or to its exit. *)
Definition drain (st : State) : State :=
  match operationQueue st with
  | op :: q =>
      mkState q (isProcessing st) (awaiting st ++ [op]) (applied st ++ [Began op])
  | [] =>
      mkState [] false (awaiting st) (applied st)
  end.

(** [processOperation(operation)], up to its first [await] or its return. *)
Definition processOperation (st : State) (operation : FileOperation) : State :=
  let st := mkState (operationQueue st ++ [operation]) (isProcessing st)
                    (awaiting st) (applied st) in
  if isProcessing st then st
  else drain (mkState (operationQueue st) true (awaiting st) (applied st)).

(** The scheduler's moves: a producer calls [processOperation]; the
    [applyOperation] awaited by the [i]-th suspended invocation resolves,
    and the invocation goes on with its loop; or it rejects, and the
    invocation ends with the exception, [isProcessing] still set. *)
Inductive Move : Type :=
  | Call (op : FileOperation)
  | Resolve (i : nat)
  | Reject (i : nat).

Definition step (st : State) (m : Move) : State :=
  match m with
  | Call op => processOperation st op
  | Resolve i =>
      match awaiting st !! i with
      | Some op =>
          drain (mkState (operationQueue st) (isProcessing st)
                         (base.delete i (awaiting st)) (applied st ++ [Finished op]))
      | None => st
      end
  | Reject i =>
      match awaiting st !! i with
      | Some op =>
          mkState (operationQueue st) (isProcessing st)
                  (base.delete i (awaiting st)) (applied st ++ [Failed op])
      | None => st
      end
  end.

Definition run (ms : list Move) : State := foldl step init ms.

(** The operations enqueued, in the order of the calls. *)
Definition enqueued (ms : list Move) : list FileOperation :=
  omap (fun m => match m with Call op => Some op | _ => None end) ms.

(** The operations whose application began, in that order. *)
Definition began (t : list Applied) : list FileOperation :=
  omap (fun a => match a with Began op => Some op | _ => None end) t.

Definition on_entity (e : string) (ops : list FileOperation) : list FileOperation :=
  filter (fun op => path op = e) ops.

(** [serial t o]: in [t] every application ended before the next began;
    [o] is the one still running at the end of [t], if any. *)
Inductive serial : list Applied -> option FileOperation -> Prop :=
  | serial_nil : serial [] None
  | serial_began t op : serial t None -> serial (t ++ [Began op]) (Some op)
  | serial_finished t op : serial t (Some op) -> serial (t ++ [Finished op]) None
  | serial_failed t op : serial t (Some op) -> serial (t ++ [Failed op]) None.

(** What holds of the queue after any moves [ms]. *)
Record queue_inv (ms : list Move) (st : State) : Prop := mkQueueInv {
  inv_fifo : began (applied st) ++ operationQueue st = enqueued ms;
  inv_serial : serial (applied st) (head (awaiting st));
  inv_single : (length (awaiting st) <= 1)%nat;
  inv_idle : isProcessing st = false -> awaiting st = [] /\ operationQueue st = []
}.

(** Independence of entities, as the design document has it: an operation
    waits in the queue only while an operation on its own entity is being
    applied. *)
Definition entities_independent : Prop :=
  forall ms op,
    op ∈ operationQueue (run ms) ->
    exists op', op' ∈ awaiting (run ms) /\ path op' = path op.

End FileSystem.

(** * Ranges and positions of a buffer *)

(** The line with the 1-based number [n]. *)
Definition line (lines : list jsstring) (n : Z) : jsstring :=
  default [] (lines !! Z.to_nat (n - 1)).

(** [(l, c)] is a position of the buffer: an existing line, and a column
    from before its first character to after its last. *)
Definition position (lines : list jsstring) (l c : Z) : Prop :=
  1 <= l <= Z.of_nat (length lines) /\
  1 <= c <= Z.of_nat (length (line lines l)) + 1.

(** The range lies within the buffer, its start not after its end. *)
Definition in_bounds (lines : list jsstring) (r : Range) : Prop :=
  position lines (startLineNumber r) (startColumn r) /\
  position lines (endLineNumber r) (endColumn r) /\
  (startLineNumber r < endLineNumber r \/
   (startLineNumber r = endLineNumber r /\ startColumn r <= endColumn r)).

(** The range replace of the design document, on lines: the lines before
    the start line, then the prefix of the start line, the text and the
    suffix of the end line, cut at the text's line breaks, then the lines
    after the end line. *)
Definition range_replace (lines : list jsstring) (r : Range) (t : jsstring) : list jsstring :=
  take (Z.to_nat (startLineNumber r - 1)) lines ++
  Js.split_nl (take (Z.to_nat (startColumn r - 1)) (line lines (startLineNumber r)) ++
               t ++
               drop (Z.to_nat (endColumn r - 1)) (line lines (endLineNumber r))) ++
  drop (Z.to_nat (endLineNumber r)) lines.

(** A line or a column that is not a position of the buffer. *)
Definition line_out_of_bounds (lines : list jsstring) (l : Z) : Prop :=
  l < 1 \/ Z.of_nat (length lines) < l.

(** The insertion of [t] at [(l, c)], and the deletion of what it put in:
    from [(l, c)] to the position after the last character of [t]. *)
Definition insertion (l c : Z) (t : jsstring) : TextChange :=
  mkTextChange (Some (mkRange l c l c)) t.

Definition end_of_insertion (l c : Z) (t : jsstring) : Z * Z :=
  let ts := Js.split_nl t in
  if decide (length ts = 1%nat) then (l, c + Z.of_nat (length t))
  else (l + Z.of_nat (length ts) - 1, Z.of_nat (length (default [] (last ts))) + 1).

Definition deletion (l c : Z) (t : jsstring) : TextChange :=
  let e := end_of_insertion l c t in
  mkTextChange (Some (mkRange l c e.1 e.2)) [].

(** * Server states for the worked examples *)

Module Examples.

Definition ann : Query := mkQuery (Some "proj") (Some "ann") (Some "{}").
Definition bob : Query := mkQuery (Some "proj") (Some "bob") (Some "{}").

(** Ann alone in the room. *)
Definition alone : Server string := run parse_example init [Connect 1 ann 0].

(** Ann and Bob in the room. *)
Definition both : Server string :=
  run parse_example init [Connect 1 ann 0; Connect 2 bob 1].

(** Ann alone, the buffer holding "abc". *)
Definition typed : Server string :=
  run parse_example init
      [Connect 1 ann 0; Edit 1 (mkChange (Some (mkRange 1 1 1 1)) (JStr (str "abc")))].

(** Ann connected from two sockets. *)
Definition twice : list Event := [Connect 1 ann 0; Connect 2 ann 1].

End Examples.

(** The replacement lines of a multi-line change: the lines of the text,
    the first behind the prefix [p], the last before the suffix [s]. *)
Definition weld (p s : jsstring) (ts : list jsstring) : list jsstring :=
  let ts := alter (fun l => p ++ l) 0%nat ts in
  alter (fun l => l ++ s) (length ts - 1)%nat ts.

(** * Flat text, offsets and clamped columns *)

(** The offset of the position [(l, c)] in the flat text: the characters of
    the lines before line [l], one line break after each of them, and the
    [c - 1] characters before the column. *)
Definition offset (lines : list jsstring) (l c : Z) : nat :=
  (sum_list (length <$> take (Z.to_nat (l - 1)) lines)
   + Z.to_nat (l - 1) + Z.to_nat (c - 1))%nat.

(** The column brought into the line with number [l]: at least 1, at most
    one past the last character. *)
Definition clamp_column (lines : list jsstring) (l c : Z) : Z :=
  Z.max 1 (Z.min c (Z.of_nat (length (line lines l)) + 1)).

Definition clamp_range (lines : list jsstring) (r : Range) : Range :=
  mkRange (startLineNumber r) (clamp_column lines (startLineNumber r) (startColumn r))
          (endLineNumber r) (clamp_column lines (endLineNumber r) (endColumn r)).

(** The text a range spans, and the change that undoes the replacement of
    that range by [t]: it spans the text put in and puts the old text back. *)
Definition spanned_text (content : jsstring) (r : Range) : jsstring :=
  let lines := Js.split_nl content in
  let o1 := offset lines (startLineNumber r) (startColumn r) in
  let o2 := offset lines (endLineNumber r) (endColumn r) in
  take (o2 - o1) (drop o1 content).

Definition inverse_change (content : jsstring) (r : Range) (t : jsstring) : TextChange :=
  let e := end_of_insertion (startLineNumber r) (startColumn r) t in
  mkTextChange (Some (mkRange (startLineNumber r) (startColumn r) e.1 e.2))
               (spanned_text content r).

(** * Servers that differ in their buffers only *)


(** No edit of the trace carries a string text. *)
Definition no_string_edit (ev : Event) : Prop :=
  match ev with
  | Edit _ change => is_string (text change) = false
  | _ => True
  end.

(** * The queue when applications fail, and when they do not *)

Module FileSystemRuns.
Import FileSystem.

(** The application awaited by the running invocation resolves, [n] times
    in a row. *)
Definition resolves (n : nat) : list Move := replicate n (Resolve 0).

Definition is_reject (m : Move) : Prop :=
  match m with
  | Reject _ => True
  | _ => False
  end.

(** The log of applying the operations [ops] one after the other, each to
    its end. *)
Definition applied_in_turn (ops : list FileOperation) : list Applied :=
  ops ≫= (fun op => [Began op; Finished op]).

End FileSystemRuns.

(** * File names and languages of the shared file system *)

Module Paths.

(** [s.split(sep)] for a one-character separator. *)
Fixpoint split_on (sep : ascii) (s : jsstring) : list jsstring :=
  match s with
  | [] => [[]]
  | c :: s' =>
      if decide (c = sep) then [] :: split_on sep s'
      else match split_on sep s' with
           | [] => [[c]]
           | l :: ls => (c :: l) :: ls
           end
  end.

(** [a.pop()], the element taken off the end; [undefined] on the empty
    array. *)
Definition pop (a : list jsstring) : option jsstring := last a.

(** [path.split('/').pop() || ''], the [name] that [createFile] and
    [moveFile] give a file. *)
Definition fileName (path : jsstring) : jsstring :=
  match pop (split_on "/" path) with
  | Some name => name
  | None => []
  end.

(** [c.toLowerCase()] on a code unit below 256: the letters A to Z and the
    capital letters of Latin-1 have a small letter 32 places on. *)
Definition lower (c : ascii) : ascii :=
  let n := nat_of_ascii c in
  if (Nat.leb 65 n && Nat.leb n 90) || (Nat.leb 192 n && Nat.leb n 214)
     || (Nat.leb 216 n && Nat.leb n 222)
  then ascii_of_nat (n + 32)
  else c.

Definition toLowerCase (s : jsstring) : jsstring := lower <$> s.

Definition languageMap : list (jsstring * jsstring) :=
  [ (str "js", str "javascript");
    (str "ts", str "typescript");
    (str "jsx", str "javascript");
    (str "tsx", str "typescript");
    (str "py", str "python");
    (str "java", str "java");
    (str "cpp", str "cpp");
    (str "c", str "c");
    (str "go", str "go");
    (str "rs", str "rust");
    (str "rb", str "ruby");
    (str "php", str "php");
    (str "html", str "html");
    (str "css", str "css");
    (str "json", str "json");
    (str "md", str "markdown");
    (str "yml", str "yaml");
    (str "yaml", str "yaml") ].

(** The own property [k] of an object literal. *)
Fixpoint own (o : list (jsstring * jsstring)) (k : jsstring) : option jsstring :=
  match o with
  | [] => None
  | (k', v) :: o' => if decide (k = k') then Some v else own o' k
  end.

(** What [detectLanguage] returns: a string, or, for a key that the object
    literal inherits from [Object.prototype], the inherited object. *)
Inductive Detected : Type :=
  | Name (s : jsstring)
  | InheritedObject (k : jsstring).

(** The properties of [Object.prototype] whose name a lower-cased string can
    be; the others have a capital letter in their name. *)
Definition inherited (k : jsstring) : bool :=
  bool_decide (k = str "constructor") || bool_decide (k = str "__proto__").

(** [extension ? languageMap[extension] || 'plaintext' : 'plaintext'] *)
Definition languageOf (extension : jsstring) : Detected :=
  match extension with
  | [] => Name (str "plaintext")
  | _ :: _ =>
      match own languageMap extension with
      | Some v => Name v
      | None => if inherited extension then InheritedObject extension
                else Name (str "plaintext")
      end
  end.

(** [detectLanguage(path)] *)
Definition detectLanguage (path : jsstring) : Detected :=
  match pop (split_on "." path) with
  | Some e => languageOf (toLowerCase e)
  | None => Name (str "plaintext")
  end.

(** The names [languageMap] holds, and the fallback. *)
Definition languageNames : list jsstring := str "plaintext" :: languageMap.*2.

End Paths.

(** * The file cache and the watchers of the shared file system *)

Module FileCache.

Inductive FileType : Type := File | Directory.

(** The [metadata] of a [FileNode], with the [lockedBy] that the
    [file_lock] handler adds to it. *)
Record Metadata : Type := mkMetadata {
  size : option Z;
  language : option string;
  lastCommit : option string;
  permissions : option (list string);
  lockedBy : option string
}.

Record FileNode : Type := mkFile {
  id : string;
  name : string;
  path : string;
  node_type : FileType;
  content : option string;
  parentId : option string;
  projectId : string;
  createdBy : string;
  updatedBy : string;
  createdAt : string;
  updatedAt : string;
  metadata : option Metadata
}.

Record FileOperation : Type := mkOp {
  type : FileSystem.OperationType;
  file : FileNode;
  previousPath : option string;
  userId : string;
  timestamp : Z
}.

(** A callback given to [watchFile], known by its identity. *)
Definition Callback : Type := nat.

(** A call that waits at an [await] for the store to answer: an
    [applyOperation] at its [upsert], its [delete], the [delete] of the
    previous path of a move or the [insert] of a move, a [getFile] or a
    [listDirectory] at its [select]. *)
Inductive Suspended : Type :=
  | AwaitUpsert (op : FileOperation)
  | AwaitDelete (op : FileOperation)
  | AwaitMoveDelete (op : FileOperation)
  | AwaitInsert (op : FileOperation)
  | AwaitSelect (p : string)
  | AwaitList (p : string).

(** The cache, the watchers (a [Set] of callbacks for a path, in the order
    they were added), the calls made to callbacks so far, each with the
    file it was given, and the calls that wait for the store. *)
Record Files : Type := mkFiles {
  fileCache : gmap string FileNode;
  fileWatchers : gmap string (list Callback);
  called : list (Callback * FileNode);
  suspended : list Suspended
}.

Definition init : Files := mkFiles ∅ ∅ [] [].

(** [watchers.add(callback)] and [watchers.delete(callback)] on a [Set]. *)
Definition set_add (cb : Callback) (ws : list Callback) : list Callback :=
  if decide (cb ∈ ws) then ws else ws ++ [cb].

Definition set_delete (cb : Callback) (ws : list Callback) : list Callback :=
  filter (fun c => c ≠ cb) ws.

(** [watchFile(path, callback)], and the function it returns. *)
Definition watchFile (st : Files) (p : string) (cb : Callback) : Files :=
  let watchers := set_add cb (default [] (fileWatchers st !! p)) in
  mkFiles (fileCache st) (<[p := watchers]> (fileWatchers st)) (called st)
          (suspended st).

Definition unwatch (st : Files) (p : string) (cb : Callback) : Files :=
  match fileWatchers st !! p with
  | Some watchers =>
      let watchers := set_delete cb watchers in
      mkFiles (fileCache st)
              (if decide (length watchers = 0%nat)
               then base.delete p (fileWatchers st)
               else <[p := watchers]> (fileWatchers st))
              (called st) (suspended st)
  | None => st
  end.

(** [notifyWatchers(file)] *)
Definition notifyWatchers (st : Files) (f : FileNode) : Files :=
  match fileWatchers st !! path f with
  | Some watchers =>
      mkFiles (fileCache st) (fileWatchers st)
              (called st ++ ((fun cb => (cb, f)) <$> watchers)) (suspended st)
  | None => st
  end.

Definition set_cache (st : Files) (c : gmap string FileNode) : Files :=
  mkFiles c (fileWatchers st) (called st) (suspended st).

Definition set_suspended (st : Files) (l : list Suspended) : Files :=
  mkFiles (fileCache st) (fileWatchers st) (called st) l.

Definition suspend (st : Files) (s : Suspended) : Files :=
  set_suspended st (suspended st ++ [s]).

(** [applyOperation(operation)] from its call to its first [await]; for a
    [rename], for which the [switch] has no case, to its end. *)
Definition applyOperation_call (st : Files) (operation : FileOperation) : Files :=
  match type operation with
  | FileSystem.create | FileSystem.update => suspend st (AwaitUpsert operation)
  | FileSystem.delete => suspend st (AwaitDelete operation)
  | FileSystem.move =>
      match truthy (previousPath operation) with
      | Some _ => suspend st (AwaitMoveDelete operation)
      | None => suspend st (AwaitInsert operation)
      end
  | FileSystem.rename => notifyWatchers st (file operation)
  end.

(** [.select('*').eq('path', path).single()] on the rows the table holds
    when it is asked: the row, or an error unless there is exactly one. *)
Definition single (rows : list FileNode) : option FileNode :=
  match rows with
  | [r] => Some r
  | _ => None
  end.

Definition select_path (table : list FileNode) (p : string) : option FileNode :=
  single (filter (fun f => path f = p) table).

(** [files.forEach(file => this.fileCache.set(file.path, file))] *)
Definition cache_all (c : gmap string FileNode) (files : list FileNode)
  : gmap string FileNode :=
  foldl (fun c f => <[path f := f]> c) c files.

(** A suspended call goes on when the store has answered, to its next
    [await] or to its end.  [answer] is what the store says: for an
    [applyOperation] it is not looked at; for a [getFile] it is the rows of
    the table, or [None] for an error; for a [listDirectory] it is the rows
    returned, or [None] for an error. *)
Definition continue (st : Files) (s : Suspended) (answer : option (list FileNode))
  : Files :=
  match s with
  | AwaitUpsert op | AwaitInsert op =>
      notifyWatchers (set_cache st (<[path (file op) := file op]> (fileCache st)))
                     (file op)
  | AwaitDelete op =>
      notifyWatchers (set_cache st (base.delete (path (file op)) (fileCache st)))
                     (file op)
  | AwaitMoveDelete op =>
      match truthy (previousPath op) with
      | Some previous =>
          suspend (set_cache st (base.delete previous (fileCache st))) (AwaitInsert op)
      | None => suspend st (AwaitInsert op)
      end
  | AwaitSelect p =>
      match answer with
      | Some table =>
          match select_path table p with
          | Some f => set_cache st (<[p := f]> (fileCache st))
          | None => st
          end
      | None => st
      end
  | AwaitList _ =>
      match answer with
      | Some files => set_cache st (cache_all (fileCache st) files)
      | None => st
      end
  end.

(** The [i]-th suspended call goes on. *)
Definition resume (st : Files) (i : nat) (answer : option (list FileNode)) : Files :=
  match suspended st !! i with
  | Some s => continue (set_suspended st (base.delete i (suspended st))) s answer
  | None => st
  end.

(** [applyOperation(operation)] from its call to its end when nothing else
    runs while it waits for the store, its stretches one after the other:
    what the store answers is not looked at, and the cache is written
    after each answer. *)
Definition applyOperation (st : Files) (operation : FileOperation) : Files :=
  let f := file operation in
  let st :=
    match type operation with
    | FileSystem.create | FileSystem.update =>
        set_cache st (<[path f := f]> (fileCache st))
    | FileSystem.delete =>
        set_cache st (base.delete (path f) (fileCache st))
    | FileSystem.move =>
        let st := match truthy (previousPath operation) with
                  | Some previous =>
                      set_cache st (base.delete previous (fileCache st))
                  | None => st
                  end in
        set_cache st (<[path f := f]> (fileCache st))
    | FileSystem.rename => st
    end in
  notifyWatchers st f.

(** [{ ...file.metadata, lockedBy: userId }] and
    [delete file.metadata?.lockedBy] *)
Definition lock_metadata (m : option Metadata) (u : string) : option Metadata :=
  match m with
  | Some m => Some (mkMetadata (size m) (language m) (lastCommit m)
                               (permissions m) (Some u))
  | None => Some (mkMetadata None None None None (Some u))
  end.

Definition unlock_metadata (m : option Metadata) : option Metadata :=
  match m with
  | Some m => Some (mkMetadata (size m) (language m) (lastCommit m)
                               (permissions m) None)
  | None => None
  end.

Definition set_metadata (f : FileNode) (m : option Metadata) : FileNode :=
  mkFile (id f) (name f) (path f) (node_type f) (content f) (parentId f)
         (projectId f) (createdBy f) (updatedBy f) (createdAt f) (updatedAt f) m.

(** The listeners of [file_lock] and [file_unlock]: the cached file is
    changed in place. *)
Definition on_file_lock (st : Files) (p u : string) : Files :=
  match fileCache st !! p with
  | Some f =>
      let f := set_metadata f (lock_metadata (metadata f) u) in
      notifyWatchers (set_cache st (<[p := f]> (fileCache st))) f
  | None => st
  end.

Definition on_file_unlock (st : Files) (p : string) : Files :=
  match fileCache st !! p with
  | Some f =>
      let f := set_metadata f (unlock_metadata (metadata f)) in
      notifyWatchers (set_cache st (<[p := f]> (fileCache st))) f
  | None => st
  end.

(** [getFile(path)] from its call to its [return] from the cache or to its
    [await]: the file it returns at once when the path is cached. *)
Definition getFile_call (st : Files) (p : string) : Files * option FileNode :=
  match fileCache st !! p with
  | Some f => (st, Some f)
  | None => (suspend st (AwaitSelect p), None)
  end.

(** [listDirectory(path)] from its call to its [await]. *)
Definition listDirectory_call (st : Files) (p : string) : Files :=
  suspend st (AwaitList p).

(** The call of the store that the [i]-th suspended call waits for
    rejects: the call ends with the exception at its [await]. *)
Definition reject (st : Files) (i : nat) : Files :=
  set_suspended st (base.delete i (suspended st)).

(** What happens to a [SharedFileSystem], one stretch of code after the
    other: a call runs to its first [await], and a suspended call goes on
    when the store answers, or ends when the call of the store rejects, in
    any order. *)
Inductive Event : Type :=
  | Apply (op : FileOperation)
  | Lock (p u : string)
  | Unlock (p : string)
  | Get (p : string)
  | ListDirectory (p : string)
  | Resume (i : nat) (answer : option (list FileNode))
  | Reject (i : nat)
  | Watch (p : string) (cb : Callback)
  | Unwatch (p : string) (cb : Callback).

Definition step (st : Files) (ev : Event) : Files :=
  match ev with
  | Apply op => applyOperation_call st op
  | Lock p u => on_file_lock st p u
  | Unlock p => on_file_unlock st p
  | Get p => (getFile_call st p).1
  | ListDirectory p => listDirectory_call st p
  | Resume i answer => resume st i answer
  | Reject i => reject st i
  | Watch p cb => watchFile st p cb
  | Unwatch p cb => unwatch st p cb
  end.

Definition run (evs : list Event) : Files := foldl step init evs.

(** The event may write the cache entry of the path [p]: a lock or unlock
    of it, or the going on of a call that waited to write it. *)
Definition writes (st : Files) (ev : Event) (p : string) : Prop :=
  match ev with
  | Lock q _ | Unlock q => q = p
  | Resume i answer =>
      match suspended st !! i with
      | Some (AwaitUpsert op) | Some (AwaitDelete op) | Some (AwaitInsert op) =>
          path (file op) = p
      | Some (AwaitMoveDelete op) => previousPath op = Some p
      | Some (AwaitSelect q) => q = p
      | Some (AwaitList _) =>
          match answer with
          | Some files => p ∈ path <$> files
          | None => False
          end
      | None => False
      end
  | Apply _ | Get _ | ListDirectory _ | Reject _ | Watch _ _ | Unwatch _ _ => False
  end.

(** No event of the trace, run from [st], may write the entry of [p]. *)
Fixpoint untouched (st : Files) (evs : list Event) (p : string) : Prop :=
  match evs with
  | [] => True
  | ev :: evs' => ~ writes st ev p /\ untouched (step st ev) evs' p
  end.

(** The current watchers of a path. *)
Definition watchers (st : Files) (p : string) : list Callback :=
  default [] (fileWatchers st !! p).

(** The calls made to the callback [cb] with a file of the path [p]. *)
Definition calls_to (cb : Callback) (p : string) (st : Files)
  : list (Callback * FileNode) :=
  filter (fun c => c.1 = cb /\ path c.2 = p) (called st).

(** The sets of watchers hold no callback twice, and no empty set is
    kept. *)
Definition tidy (st : Files) : Prop :=
  forall p ws, fileWatchers st !! p = Some ws -> NoDup ws /\ ws ≠ [].

(** A file for the examples. *)
Definition example_file (p : string) : FileNode :=
  mkFile "1" p p File (Some "") None "proj" "ann" "ann" "" "" None.

End FileCache.

(** * The collaboration service of the client *)

Module Client.
Section Client.
(** What a [presence] and a [change] event carry. *)
Variables Users Edit : Type.

Inductive Emitted : Type :=
  | EmitCursor (position : CursorPosition) (selection : option Selection)
  | EmitChange (change : Edit).

Inductive Received : Type :=
  | GotPresence (users : Users)
  | GotChange (change : Edit).

(** The service: its current socket, the sockets that [connect] has made
    and on which [disconnect()] has not been called, the two arrays of
    callbacks (a callback known by its identity), what was emitted on which
    socket, and the calls made to callbacks. *)
Record Service : Type := mkService {
  socket : option nat;
  live : list nat;
  presenceCallbacks : list nat;
  changeCallbacks : list nat;
  emitted : list (nat * Emitted);
  called : list (nat * Received)
}.

Definition init : Service := mkService None [] [] [] [] [].

(** [connect(projectId, user)]; [n] is the socket that [io(...)] makes,
    with the service's two listeners on it. *)
Definition connect (st : Service) (n : nat) : Service :=
  mkService (Some n) (live st ++ [n]) (presenceCallbacks st) (changeCallbacks st)
            (emitted st) (called st).

(** [disconnect()] *)
Definition disconnect (st : Service) : Service :=
  match socket st with
  | Some n =>
      mkService None (filter (fun k => k ≠ n) (live st)) (presenceCallbacks st)
                (changeCallbacks st) (emitted st) (called st)
  | None => st
  end.

Definition emit (st : Service) (e : Emitted) : Service :=
  match socket st with
  | Some n =>
      mkService (socket st) (live st) (presenceCallbacks st) (changeCallbacks st)
                (emitted st ++ [(n, e)]) (called st)
  | None => st
  end.

(** [updateCursor(position, selection)] and [sendChange(change)] *)
Definition updateCursor (st : Service) (position : CursorPosition)
    (selection : option Selection) : Service :=
  emit st (EmitCursor position selection).

Definition sendChange (st : Service) (change : Edit) : Service :=
  emit st (EmitChange change).

(** [onPresenceUpdate(callback)] and [onChangeReceived(callback)], and the
    functions they return. *)
Definition onPresenceUpdate (st : Service) (cb : nat) : Service :=
  mkService (socket st) (live st) (presenceCallbacks st ++ [cb]) (changeCallbacks st)
            (emitted st) (called st).

Definition offPresenceUpdate (st : Service) (cb : nat) : Service :=
  mkService (socket st) (live st) (filter (fun c => c ≠ cb) (presenceCallbacks st))
            (changeCallbacks st) (emitted st) (called st).

Definition onChangeReceived (st : Service) (cb : nat) : Service :=
  mkService (socket st) (live st) (presenceCallbacks st) (changeCallbacks st ++ [cb])
            (emitted st) (called st).

Definition offChangeReceived (st : Service) (cb : nat) : Service :=
  mkService (socket st) (live st) (presenceCallbacks st)
            (filter (fun c => c ≠ cb) (changeCallbacks st)) (emitted st) (called st).

(** The listeners that [connect] puts on a socket: an event that comes in
    on the socket [n] goes to every callback of the array as it is then. *)
Definition receive (st : Service) (n : nat) (m : Received) : Service :=
  if decide (n ∈ live st) then
    let cbs := match m with
               | GotPresence _ => presenceCallbacks st
               | GotChange _ => changeCallbacks st
               end in
    mkService (socket st) (live st) (presenceCallbacks st) (changeCallbacks st)
              (emitted st) (called st ++ ((fun cb => (cb, m)) <$> cbs))
  else st.

Inductive Event : Type :=
  | Connect (n : nat)
  | Disconnect
  | UpdateCursor (position : CursorPosition) (selection : option Selection)
  | SendChange (change : Edit)
  | OnPresenceUpdate (cb : nat)
  | OffPresenceUpdate (cb : nat)
  | OnChangeReceived (cb : nat)
  | OffChangeReceived (cb : nat)
  | Receive (n : nat) (m : Received).

Definition step (st : Service) (ev : Event) : Service :=
  match ev with
  | Connect n => connect st n
  | Disconnect => disconnect st
  | UpdateCursor position selection => updateCursor st position selection
  | SendChange change => sendChange st change
  | OnPresenceUpdate cb => onPresenceUpdate st cb
  | OffPresenceUpdate cb => offPresenceUpdate st cb
  | OnChangeReceived cb => onChangeReceived st cb
  | OffChangeReceived cb => offChangeReceived st cb
  | Receive n m => receive st n m
  end.

Definition run (evs : list Event) : Service := foldl step init evs.

(** The sockets made in a trace; each call of [io(...)] makes a new one. *)
Definition made (evs : list Event) : list nat :=
  omap (fun ev => match ev with Connect n => Some n | _ => None end) evs.

Definition is_disconnect (ev : Event) : Prop :=
  match ev with Disconnect => True | _ => False end.

End Client.

Arguments init {Users Edit}.
Arguments run {Users Edit}.
Arguments step {Users Edit}.
Arguments Connect {Users Edit}.
Arguments Disconnect {Users Edit}.
Arguments Receive {Users Edit}.
Arguments GotPresence {Users Edit}.
Arguments OnPresenceUpdate {Users Edit}.
Arguments OffPresenceUpdate {Users Edit}.
Arguments made {Users Edit}.
Arguments is_disconnect {Users Edit}.

End Client.

(** * Lines and line breaks *)

Section Lines.
Implicit Types (s t a b : jsstring) (ls : list jsstring).

Lemma split_nl_not_nil s : Js.split_nl s ≠ [].
Proof.
  destruct s as [|c s]; simpl; [done|].
  case_decide; [done|]. by destruct (Js.split_nl s).
Qed.

Lemma split_nl_length s : (1 <= length (Js.split_nl s))%nat.
Proof.
  pose proof (split_nl_not_nil s). destruct (Js.split_nl s); simpl; [done|lia].
Qed.

Lemma split_nl_app_nl a b :
  Js.split_nl (a ++ nl :: b) = Js.split_nl a ++ Js.split_nl b.
Proof.
  induction a as [|c a IH]; simpl.
  - done.
  - case_decide; [by rewrite IH|].
    rewrite IH. pose proof (split_nl_not_nil a).
    by destruct (Js.split_nl a).
Qed.

Lemma split_nl_free s : nl ∉ s -> Js.split_nl s = [s].
Proof.
  induction s as [|c s IH]; simpl; [done|].
  intros Hc. rewrite not_elem_of_cons in Hc. destruct Hc as [Hc Hs].
  rewrite decide_False by congruence. by rewrite IH.
Qed.

Lemma split_nl_lines_free s : Forall (fun l => nl ∉ l) (Js.split_nl s).
Proof.
  induction s as [|c s IH]; simpl.
  - repeat constructor. apply not_elem_of_nil.
  - case_decide.
    + constructor; [apply not_elem_of_nil|done].
    + destruct (Js.split_nl s) as [|l ls]; simpl.
      * repeat constructor. rewrite list_elem_of_singleton. congruence.
      * inversion IH; subst. constructor; [|done].
        rewrite not_elem_of_cons. split; [congruence|done].
Qed.

Lemma join_split s : Js.join_nl (Js.split_nl s) = s.
Proof.
  induction s as [|c s IH]; simpl; [done|].
  case_decide.
  - subst c. pose proof (split_nl_not_nil s).
    destruct (Js.split_nl s) eqn:E; [done|]. simpl. by rewrite <- IH.
  - destruct (Js.split_nl s) as [|l ls] eqn:E; simpl in *.
    + by rewrite <- IH.
    + rewrite <- IH. by destruct ls.
Qed.

Lemma join_nl_cons l ls :
  ls ≠ [] -> Js.join_nl (l :: ls) = l ++ nl :: Js.join_nl ls.
Proof. by destruct ls. Qed.

Lemma join_nl_app ls1 ls2 :
  ls1 ≠ [] -> ls2 ≠ [] ->
  Js.join_nl (ls1 ++ ls2) = Js.join_nl ls1 ++ nl :: Js.join_nl ls2.
Proof.
  intros H1 H2. induction ls1 as [|l ls1 IH]; [done|].
  destruct ls1 as [|l' ls1].
  - simpl. by destruct ls2.
  - change ((l :: l' :: ls1) ++ ls2) with (l :: ((l' :: ls1) ++ ls2)).
    rewrite !join_nl_cons by done. rewrite IH by done.
    by rewrite <- app_assoc.
Qed.

(** Joining does not see how the text between two breaks was grouped. *)
Lemma join_nl_flatten ls1 ls ls2 :
  ls ≠ [] ->
  Js.join_nl (ls1 ++ ls ++ ls2) = Js.join_nl (ls1 ++ [Js.join_nl ls] ++ ls2).
Proof.
  intros Hls.
  assert (Hmid : Js.join_nl (ls ++ ls2) = Js.join_nl ([Js.join_nl ls] ++ ls2)).
  { destruct ls2 as [|l2 ls2]; [by rewrite app_nil_r|].
    rewrite !join_nl_app by done. done. }
  destruct ls1 as [|l1 ls1]; [done|].
  rewrite (join_nl_app (l1 :: ls1) (ls ++ ls2)) by (by destruct ls).
  rewrite (join_nl_app (l1 :: ls1) ([Js.join_nl ls] ++ ls2)) by done.
  by rewrite Hmid.
Qed.

Lemma split_join_bind ls :
  ls ≠ [] -> Js.split_nl (Js.join_nl ls) = ls ≫= Js.split_nl.
Proof.
  induction ls as [|l ls IH]; [done|]. intros _.
  destruct ls as [|l' ls].
  - simpl. by rewrite app_nil_r.
  - rewrite join_nl_cons by done. rewrite split_nl_app_nl, IH by done.
    done.
Qed.

Lemma bind_split_free ls :
  Forall (fun l => nl ∉ l) ls -> ls ≫= Js.split_nl = ls.
Proof.
  induction 1 as [|l ls Hl _ IH]; [done|].
  rewrite bind_cons, IH, split_nl_free by done. done.
Qed.

Lemma split_join ls :
  ls ≠ [] -> Forall (fun l => nl ∉ l) ls -> Js.split_nl (Js.join_nl ls) = ls.
Proof. intros. rewrite split_join_bind by done. by apply bind_split_free. Qed.

Lemma join_alter_last ls s :
  ls ≠ [] ->
  Js.join_nl (alter (fun l => l ++ s) (length ls - 1)%nat ls) = Js.join_nl ls ++ s.
Proof.
  induction ls as [|l ls IH]; [done|]. intros _.
  destruct ls as [|l' ls]; [done|].
  replace (length (l :: l' :: ls) - 1)%nat with (S (length (l' :: ls) - 1)) by (simpl; lia).
  change (alter ?f (S ?n) (l :: ?k)) with (l :: alter f n k).
  rewrite join_nl_cons.
  - rewrite IH by done. rewrite (join_nl_cons l (l' :: ls)) by done. by rewrite <- app_assoc.
  - intros E. apply (f_equal length) in E. rewrite length_alter in E. done.
Qed.

Lemma weld_length p s ts : length (weld p s ts) = length ts.
Proof. unfold weld. by rewrite !length_alter. Qed.

Lemma weld_not_nil p s ts : ts ≠ [] -> weld p s ts ≠ [].
Proof.
  intros H E. apply (f_equal length) in E. rewrite weld_length in E.
  by destruct ts.
Qed.

Lemma join_weld p s ts :
  ts ≠ [] -> Js.join_nl (weld p s ts) = p ++ Js.join_nl ts ++ s.
Proof.
  intros H. unfold weld. rewrite join_alter_last.
  - destruct ts as [|l ls]; [done|].
    change (alter ?f 0%nat (l :: ls)) with (f l :: ls).
    destruct ls; simpl; by rewrite <- !app_assoc.
  - intros E. apply (f_equal length) in E. rewrite length_alter in E.
    by destruct ts.
Qed.

Lemma weld_free p s ts :
  nl ∉ p -> nl ∉ s -> Forall (fun l => nl ∉ l) ts ->
  Forall (fun l => nl ∉ l) (weld p s ts).
Proof.
  intros Hp Hs Hts. unfold weld.
  apply Forall_alter; [apply Forall_alter; [done|]|];
    intros x _ Hx; rewrite not_elem_of_app; by split.
Qed.

Lemma split_weld p s t :
  nl ∉ p -> nl ∉ s -> Js.split_nl (p ++ t ++ s) = weld p s (Js.split_nl t).
Proof.
  intros Hp Hs. rewrite <- (join_split t) at 1.
  rewrite <- join_weld by apply split_nl_not_nil.
  apply split_join.
  - apply weld_not_nil, split_nl_not_nil.
  - apply weld_free; [done..|apply split_nl_lines_free].
Qed.

Lemma substring_prefix l c : Js.substring l 0 c = take (Z.to_nat c) l.
Proof.
  unfold Js.substring, Js.clamp. simpl.
  rewrite Nat.sub_0_r, drop_0. destruct (decide (Z.to_nat c <= length l)%nat).
  - by rewrite Nat.min_l.
  - rewrite Nat.min_r by lia. by rewrite !take_ge by lia.
Qed.

Lemma substring_suffix l c : Js.substring_from l c = drop (Z.to_nat c) l.
Proof.
  unfold Js.substring_from, Js.clamp. destruct (decide (Z.to_nat c <= length l)%nat).
  - by rewrite Nat.min_l.
  - rewrite Nat.min_r by lia. by rewrite !drop_ge by lia.
Qed.

Lemma line_lookup ls n :
  1 <= n <= Z.of_nat (length ls) ->
  Js.index ls (n - 1) = Some (line ls n) /\ ls !! Z.to_nat (n - 1) = Some (line ls n).
Proof.
  intros Hn. unfold Js.index, line. rewrite decide_True by lia.
  destruct (ls !! Z.to_nat (n - 1)) as [l|] eqn:Hl; [done|].
  apply lookup_ge_None in Hl. lia.
Qed.

Lemma line_free ls n : Forall (fun l => nl ∉ l) ls -> nl ∉ line ls n.
Proof.
  intros H. unfold line. destruct (ls !! Z.to_nat (n - 1)) as [l|] eqn:E; simpl.
  - exact (Forall_lookup_1 _ ls _ _ H E).
  - apply not_elem_of_nil.
Qed.

Lemma take_free (l : jsstring) n : nl ∉ l -> nl ∉ take n l.
Proof. intros H Hin. apply H. by eapply subseteq_take. Qed.

Lemma drop_free (l : jsstring) n : nl ∉ l -> nl ∉ drop n l.
Proof. intros H Hin. apply H. by eapply subseteq_drop. Qed.

Lemma range_replace_free ls r t :
  Forall (fun l => nl ∉ l) ls -> Forall (fun l => nl ∉ l) (range_replace ls r t).
Proof.
  intros H. unfold range_replace. rewrite !Forall_app. split_and!.
  - by apply Forall_take.
  - apply split_nl_lines_free.
  - by apply Forall_drop.
Qed.

Lemma range_replace_not_nil ls r t : range_replace ls r t ≠ [].
Proof.
  unfold range_replace. intros E.
  apply app_eq_nil in E as [_ E]. apply app_eq_nil in E as [E _].
  by apply split_nl_not_nil in E.
Qed.

(** The string [applyChange] returns, whenever the lines of the range exist
    and come in order. *)
Lemma applyChange_lines content r t :
  1 <= startLineNumber r <= endLineNumber r ->
  endLineNumber r <= Z.of_nat (length (Js.split_nl content)) ->
  applyChange content (mkTextChange (Some r) t)
  = Normal (Js.join_nl (range_replace (Js.split_nl content) r t)).
Proof.
  intros Hs He. unfold applyChange, range_replace. simpl.
  set (ls := Js.split_nl content) in *.
  destruct (line_lookup ls (startLineNumber r)) as [Hi Hl]; [lia|].
  destruct (line_lookup ls (endLineNumber r)) as [Hi' Hl']; [lia|].
  rewrite join_nl_flatten by apply split_nl_not_nil. rewrite join_split.
  case_decide as Heq.
  - rewrite Hi. simpl. rewrite substring_prefix, substring_suffix.
    rewrite <- Heq. f_equal. f_equal.
    rewrite insert_take_drop by (apply lookup_lt_Some in Hl; done).
    do 4 f_equal. lia.
  - rewrite Hi, Hi'. simpl. rewrite substring_prefix, substring_suffix.
    f_equal. fold (weld (take (Z.to_nat (startColumn r - 1)) (line ls (startLineNumber r)))
                        (drop (Z.to_nat (endColumn r - 1)) (line ls (endLineNumber r)))
                        (Js.split_nl t)).
    unfold Js.splice. rewrite decide_False by lia.
    rewrite join_nl_flatten by apply weld_not_nil, split_nl_not_nil.
    rewrite join_weld, join_split by apply split_nl_not_nil.
    do 2 f_equal; [f_equal; lia|]. do 3 f_equal. lia.
Qed.

Lemma split_applyChange_lines content r t :
  Js.split_nl (Js.join_nl (range_replace (Js.split_nl content) r t))
  = range_replace (Js.split_nl content) r t.
Proof.
  apply split_join; [apply range_replace_not_nil|].
  apply range_replace_free, split_nl_lines_free.
Qed.

End Lines.

(** * The primitives on small inputs *)

Example split_nl_empty : Js.split_nl (str "") = [str ""].
Proof. reflexivity. Qed.

Example split_nl_trailing_break :
  Js.split_nl (Js.join_nl [str "ab"; str ""]) = [str "ab"; str ""].
Proof. reflexivity. Qed.

Example substring_swaps_its_ends : Js.substring (str "hello") 3 1 = str "el".
Proof. reflexivity. Qed.

Example substring_clamps_its_end : Js.substring (str "abc") 0 9 = str "abc".
Proof. reflexivity. Qed.

Example splice_replaces_two : Js.splice [1; 2; 3; 4] 1 2 [9] = [1; 9; 4].
Proof. reflexivity. Qed.

Example applyChange_single_line :
  applyChange (str "world") (mkTextChange (Some (mkRange 1 1 1 1)) (str "hi"))
  = Normal (str "hiworld").
Proof. reflexivity. Qed.

Example applyChange_without_range :
  applyChange (str "world") (mkTextChange None (str "hi")) = Throw TypeError.
Proof. reflexivity. Qed.

Example applyChange_missing_end_line :
  applyChange (str "world") (mkTextChange (Some (mkRange 1 1 2 1)) (str "hi"))
  = Throw TypeError.
Proof. reflexivity. Qed.

(** * The change applier replaces the addressed region *)

(** C1 (as amended).  For every buffer and every change whose range lies
    within the buffer's bounds, [applyChange] returns, and the lines of what
    it returns are the lines before the start line, then the prefix of the
    start line, the replacement text and the suffix of the end line (one
    line for a text without line break, the lines of the text otherwise),
    then the lines after the end line.  On the buffer ["abc"; "def"], the
    range (1,2)-(2,2) and the text "X\nY" that is ["aX"; "Yef"]. *)
Theorem applyChange_replaces_region :
  (forall content r t,
     in_bounds (Js.split_nl content) r ->
     exists content',
       applyChange content (mkTextChange (Some r) t) = Normal content' /\
       Js.split_nl content' = range_replace (Js.split_nl content) r t) /\
  (exists content',
     applyChange (Js.join_nl [str "abc"; str "def"])
                 (mkTextChange (Some (mkRange 1 2 2 2)) (Js.join_nl [str "X"; str "Y"]))
     = Normal content' /\
     Js.split_nl content' = [str "aX"; str "Yef"]).
Proof.
  split.
  - intros content r t (Hs & He & Hord).
    exists (Js.join_nl (range_replace (Js.split_nl content) r t)). split.
    + apply applyChange_lines; unfold position in *; lia.
    + apply split_applyChange_lines.
  - eexists. split; reflexivity.
Qed.

Lemma applyChange_replaces_region_witness :
  in_bounds (Js.split_nl (str "hello world")) (mkRange 1 7 1 12) /\
  exists content',
    applyChange (str "hello world") (mkTextChange (Some (mkRange 1 7 1 12)) (str "there"))
    = Normal content' /\
    Js.split_nl content'
    = range_replace (Js.split_nl (str "hello world")) (mkRange 1 7 1 12) (str "there").
Proof.
  split.
  - unfold in_bounds, position. simpl. lia.
  - apply (proj1 applyChange_replaces_region). unfold in_bounds, position. simpl. lia.
Defined.

(** C1, the example as the design document has it: the code does not give
    ["aX"; "Yf"]; the "e" after the end column 2 is kept. *)
Lemma applyChange_example_keeps_e :
  exists content',
    applyChange (Js.join_nl [str "abc"; str "def"])
                (mkTextChange (Some (mkRange 1 2 2 2)) (Js.join_nl [str "X"; str "Y"]))
    = Normal content' /\
    Js.split_nl content' <> [str "aX"; str "Yf"].
Proof. eexists. split; [reflexivity|]. discriminate. Qed.

(** * Inserting a text and deleting it again *)

Section InsertDelete.
Implicit Types (s t p : jsstring) (ts ls : list jsstring).

Lemma weld_lookup_first p s ts :
  ts ≠ [] -> exists x, weld p s ts !! 0%nat = Some (p ++ x).
Proof.
  intros H. destruct ts as [|t0 ts]; [done|]. unfold weld.
  change (alter (fun l => p ++ l) 0%nat (t0 :: ts)) with ((p ++ t0) :: ts).
  destruct ts as [|t1 ts].
  - exists (t0 ++ s). simpl. by rewrite <- app_assoc.
  - exists t0. done.
Qed.

Lemma weld_lookup_last p s ts tl :
  (2 <= length ts)%nat -> last ts = Some tl ->
  weld p s ts !! (length ts - 1)%nat = Some (tl ++ s).
Proof.
  intros Hlen Hlast. unfold weld. rewrite length_alter.
  rewrite list_lookup_alter_eq, list_lookup_alter_ne by lia.
  rewrite last_lookup in Hlast.
  replace (length ts - 1)%nat with (pred (length ts)) by lia.
  by rewrite Hlast.
Qed.

Lemma line_app_middle ls1 ls ls2 n (i : nat) :
  Z.to_nat (n - 1) = (length ls1 + i)%nat -> (i < length ls)%nat ->
  line (ls1 ++ ls ++ ls2) n = default [] (ls !! i).
Proof.
  intros Hn Hi. unfold line. rewrite Hn.
  rewrite lookup_app_r by lia.
  replace (length ls1 + i - length ls1)%nat with i by lia.
  by rewrite lookup_app_l by done.
Qed.

(** The buffer after the insertion, and the one after the deletion. *)
Lemma insert_then_delete content l c t :
  position (Js.split_nl content) l c ->
  applyChange
    (Js.join_nl (range_replace (Js.split_nl content) (mkRange l c l c) t))
    (deletion l c t)
  = Normal content.
Proof.
  intros [Hl Hc].
  set (ls := Js.split_nl content) in *.
  set (L := line ls l) in *.
  set (p := take (Z.to_nat (c - 1)) L).
  set (s := drop (Z.to_nat (c - 1)) L).
  set (ts := Js.split_nl t).
  set (A := take (Z.to_nat (l - 1)) ls).
  set (B := drop (Z.to_nat l) ls).
  assert (Hfree : Forall (fun x => nl ∉ x) ls) by apply split_nl_lines_free.
  assert (HL : nl ∉ L) by by apply line_free.
  assert (Hrr : range_replace ls (mkRange l c l c) t = A ++ weld p s ts ++ B).
  { unfold range_replace. simpl. fold L p s A B.
    rewrite split_weld by (by apply take_free || by apply drop_free). done. }
  assert (HA : length A = Z.to_nat (l - 1)) by (unfold A; rewrite length_take; lia).
  assert (Hp : length p = Z.to_nat (c - 1)) by (unfold p; rewrite length_take; lia).
  assert (Hts : (1 <= length ts)%nat) by apply split_nl_length.
  assert (HW : length (weld p s ts) = length ts) by apply weld_length.
  assert (Hlook : ls !! Z.to_nat (l - 1) = Some L) by (by apply line_lookup).
  unfold deletion.
  set (e := end_of_insertion l c t).
  assert (He1 : Z.to_nat e.1 = (length A + length ts)%nat).
  { unfold e, end_of_insertion. fold ts. case_decide; simpl; lia. }
  assert (He2 : drop (Z.to_nat (e.2 - 1))
                     (line (A ++ weld p s ts ++ B) e.1) = s).
  { unfold e, end_of_insertion. fold ts. case_decide as Hone; simpl.
    - rewrite (line_app_middle _ _ _ _ 0%nat) by lia.
      destruct ts as [|t0 [|t1 ts']] eqn:Ets; simpl in Hone; try done.
      assert (t = t0) as ->.
      { rewrite <- (join_split t). fold ts. by rewrite Ets. }
      simpl. rewrite drop_app_length'; [done|].
      rewrite length_app, Hp. lia.
    - destruct (last ts) as [tl|] eqn:Hlast.
      + rewrite (line_app_middle _ _ _ _ (length ts - 1)%nat) by lia.
        rewrite (weld_lookup_last _ _ _ tl) by (done || lia). simpl.
        rewrite drop_app_length'; [done|lia].
      + apply last_None in Hlast. rewrite Hlast in Hts. simpl in Hts. lia. }
  assert (Hs1 : take (Z.to_nat (c - 1)) (line (A ++ weld p s ts ++ B) l) = p).
  { rewrite (line_app_middle _ _ _ _ 0%nat) by lia.
    destruct (weld_lookup_first p s ts) as [x Hx]; [apply split_nl_not_nil|].
    rewrite Hx. simpl. by rewrite take_app_length'. }
  assert (Hsplit : Js.split_nl (Js.join_nl (A ++ weld p s ts ++ B))
                   = A ++ weld p s ts ++ B).
  { rewrite <- Hrr. apply split_applyChange_lines. }
  rewrite Hrr. rewrite applyChange_lines; simpl.
  - f_equal. rewrite <- (join_split content). fold ls. f_equal.
    rewrite Hsplit.
    unfold range_replace. simpl. rewrite Hs1, He2.
    rewrite take_app_length' by done.
    rewrite (app_assoc A (weld p s ts) B).
    rewrite drop_app_length' by (rewrite length_app; lia).
    unfold p, s. rewrite take_drop, split_nl_free by done.
    unfold A, B. replace (Z.to_nat l) with (S (Z.to_nat (l - 1))) by lia.
    by apply take_drop_middle.
  - unfold e, end_of_insertion. fold ts. case_decide; simpl; lia.
  - rewrite Hsplit.
    rewrite !length_app, HW. unfold B. rewrite length_drop. lia.
Qed.

End InsertDelete.

(** C3.  Inserting a text [t] at a position of the buffer and then deleting
    the range that spans exactly the inserted text gives the original
    buffer back; in particular "hi" inserted at (1,1) into ["world"] gives
    ["hiworld"], and deleting (1,1)-(1,3) gives ["world"] again. *)
Theorem insert_delete_identity :
  (forall content l c t,
     position (Js.split_nl content) l c ->
     exists content1,
       applyChange content (insertion l c t) = Normal content1 /\
       applyChange content1 (deletion l c t) = Normal content) /\
  (applyChange (str "world") (mkTextChange (Some (mkRange 1 1 1 1)) (str "hi"))
   = Normal (str "hiworld") /\
   applyChange (str "hiworld") (mkTextChange (Some (mkRange 1 1 1 3)) [])
   = Normal (str "world")).
Proof.
  split.
  - intros content l c t Hpos. eexists. split.
    + apply applyChange_lines; destruct Hpos; simpl; lia.
    + by apply insert_then_delete.
  - split; reflexivity.
Qed.

Lemma insert_delete_identity_witness :
  position (Js.split_nl (Js.join_nl [str "abc"; str "def"])) 2 2 /\
  exists content1,
    applyChange (Js.join_nl [str "abc"; str "def"])
                (insertion 2 2 (Js.join_nl [str "X"; str ""; str "YZ"]))
    = Normal content1 /\
    applyChange content1 (deletion 2 2 (Js.join_nl [str "X"; str ""; str "YZ"]))
    = Normal (Js.join_nl [str "abc"; str "def"]).
Proof.
  split.
  - unfold position. simpl. lia.
  - apply (proj1 insert_delete_identity). unfold position. simpl. lia.
Defined.

(** * The presence map *)

Section JsMapFacts.
Context {V : Type}.
Implicit Types (m : list (string * V)) (k : string) (v : V).

Lemma get_set k k' v m :
  JsMap.get k' (JsMap.set k v m) = if decide (k = k') then Some v else JsMap.get k' m.
Proof.
  induction m as [|[k0 v0] m IH]; simpl.
  - destruct (decide (k' = k)), (decide (k = k')); congruence.
  - destruct (decide (k = k0)) as [->|Hne]; simpl.
    + destruct (decide (k' = k0)), (decide (k0 = k')); congruence.
    + destruct (decide (k' = k0)) as [->|]; [by rewrite decide_False|done].
Qed.

Lemma get_delete k k' m :
  JsMap.get k' (JsMap.delete k m) = if decide (k = k') then None else JsMap.get k' m.
Proof.
  unfold JsMap.delete. induction m as [|[k0 v0] m IH]; simpl.
  - by case_decide.
  - rewrite filter_cons. simpl. destruct (decide (k0 ≠ k)) as [Hne|Heq]; simpl.
    + destruct (decide (k' = k0)) as [->|]; [by rewrite decide_False|done].
    + apply dec_stable in Heq. subst k0. rewrite IH.
      destruct (decide (k = k')), (decide (k' = k)); congruence.
Qed.

Lemma elem_of_keys k m : k ∈ JsMap.keys m <-> is_Some (JsMap.get k m).
Proof.
  unfold JsMap.keys. induction m as [|[k0 v0] m IH]; simpl.
  - rewrite elem_of_nil. split; [done|]. by intros [? ?].
  - rewrite elem_of_cons, IH. destruct (decide (k = k0)); [|tauto].
    split; eauto.
Qed.

Lemma get_elem_of k v m : JsMap.get k m = Some v -> (k, v) ∈ m.
Proof.
  induction m as [|[k0 v0] m IH]; simpl; [done|].
  destruct (decide (k = k0)) as [->|]; intros H.
  - injection H as ->. left.
  - right. auto.
Qed.

Lemma keys_set_subseteq k v m : JsMap.keys (JsMap.set k v m) ⊆ k :: JsMap.keys m.
Proof.
  intros k'. rewrite elem_of_cons, !elem_of_keys, get_set.
  case_decide; [by left|by right].
Qed.

Lemma keys_set_NoDup k v m : NoDup (JsMap.keys m) -> NoDup (JsMap.keys (JsMap.set k v m)).
Proof.
  unfold JsMap.keys. induction m as [|[k0 v0] m IH]; simpl; intros Hnd.
  - apply NoDup_singleton.
  - apply NoDup_cons in Hnd as [Hk0 Hnd].
    destruct (decide (k = k0)) as [->|Hne]; simpl.
    + by apply NoDup_cons.
    + apply NoDup_cons. split; [|by apply IH].
      intros Hin. apply keys_set_subseteq in Hin.
      apply elem_of_cons in Hin as [?|?]; [congruence|done].
Qed.

Lemma keys_delete_NoDup k m : NoDup (JsMap.keys m) -> NoDup (JsMap.keys (JsMap.delete k m)).
Proof.
  intros H. eapply sublist_NoDup; [exact H|].
  unfold JsMap.keys, JsMap.delete. apply fmap_sublist, sublist_filter.
Qed.

Lemma set_Forall (P : string * V -> Prop) k v m :
  P (k, v) -> Forall P m -> Forall P (JsMap.set k v m).
Proof.
  intros Hkv. induction 1 as [|[k0 v0] m H0 Hm IH]; simpl.
  - by constructor.
  - case_decide; by constructor.
Qed.

Lemma delete_Forall (P : string * V -> Prop) k m :
  Forall P m -> Forall P (JsMap.delete k m).
Proof.
  rewrite !Forall_forall. intros H x Hx.
  apply H. unfold JsMap.delete in Hx. by apply list_elem_of_filter in Hx as [_ ?].
Qed.

Lemma size_zero m : JsMap.size m = 0%nat -> forall k, JsMap.get k m = None.
Proof. destruct m; [done|]. simpl. lia. Qed.

End JsMapFacts.

(** * The connection handler and its listeners *)

Section ServerFacts.
Variable Profile : Type.
Variable JSON_parse : string -> option Profile.
Implicit Types (st : Server Profile) (sid : nat) (p u : string) (r : RoomRef).

Lemma elem_of_members st p sid :
  sid ∈ members st p <-> exists s, sockets st !! sid = Some s /\ io_room s = p.
Proof.
  unfold members. rewrite elem_of_dom. unfold is_Some.
  setoid_rewrite map_lookup_filter_Some. naive_solver.
Qed.

Lemma members_sockets st st' p :
  sockets st' = sockets st -> members st' p = members st p.
Proof. unfold members. by intros ->. Qed.

(** Rebinding a socket without changing its Socket.IO room changes no
    membership. *)
Lemma members_insert_same_room st st' sid s s' p :
  sockets st !! sid = Some s -> io_room s' = io_room s ->
  sockets st' = <[sid := s']> (sockets st) ->
  members st' p = members st p.
Proof.
  intros Hs Hroom Hst'. apply set_eq. intros x.
  rewrite !elem_of_members, Hst'.
  destruct (decide (x = sid)) as [->|Hne].
  - rewrite lookup_insert_eq, Hs. split; intros (? & [= <-] & ?); eauto.
    + eexists; split; [done|congruence].
    + eexists; split; [done|congruence].
  - by rewrite lookup_insert_ne.
Qed.

Lemma applyChange_missing_line content rg t :
  line_out_of_bounds (Js.split_nl content) (startLineNumber rg) \/
  line_out_of_bounds (Js.split_nl content) (endLineNumber rg) ->
  applyChange content (mkTextChange (Some rg) t) = Throw TypeError.
Proof.
  assert (Hidx : forall n, line_out_of_bounds (Js.split_nl content) n ->
                           Js.index (Js.split_nl content) (n - 1) = None).
  { intros n [Hn|Hn]; unfold Js.index; case_decide; try done; try lia.
    apply lookup_ge_None. lia. }
  intros H. unfold applyChange. simpl. case_decide as Heq.
  - destruct H as [H|H]; [|rewrite <- Heq in H]; by rewrite (Hidx _ H).
  - destruct H as [H|H].
    + by rewrite (Hidx _ H).
    + rewrite (Hidx _ H).
      by destruct (Js.index (Js.split_nl content) (startLineNumber rg - 1)).
Qed.

(** C9.  A handshake that lacks the room id, the participant id or the
    profile is refused at once: the handler disconnects the socket and
    returns with the server state as it was, so no room is created, no
    participant is added to any room and no presence record is seeded. *)
Theorem handshake_missing_parameter st sid q now :
  projectId q = None \/ q_userId q = None \/ q_profile q = None ->
  connection JSON_parse st sid q now = (st, Disconnected).
Proof.
  unfold connection. destruct q as [a b c]. simpl.
  intros [-> | [-> | ->]]; simpl; repeat (destruct (truthy _)); done.
Qed.

(** C10.  The change handler relays the event as it came to the other
    sockets of the room, whatever its text and whether or not the buffer
    update succeeds; when the text is not a string that is all it does: the
    room objects, the registry and the sockets stay as they were. *)
Theorem change_relayed_regardless st sid p u r change :
  sockets st !! sid = Some (mkSocket p (Some (mkListeners u r))) ->
  emitted (on_change st sid change).1
  = emitted st ++ [mkEmission p (Some sid) (ChangeEvent change) (members st p ∖ {[sid]})] /\
  (is_string (text change) = false ->
   on_change st sid change = (emit p (Some sid) (ChangeEvent change) st, Returned) /\
   heap (on_change st sid change).1 = heap st /\
   rooms (on_change st sid change).1 = rooms st /\
   sockets (on_change st sid change).1 = sockets st).
Proof.
  intros Hs. unfold on_change. rewrite Hs. split.
  - destruct (text change); try done.
    by destruct (applyChange _ _).
  - by destruct (text change).
Qed.

(** A change whose start line or end line is not a line of the room's
    buffer: [applyChange] throws a TypeError after the change has been
    relayed, and neither the handler nor anything else in the server
    catches it. *)
Lemma change_on_missing_line_throws st sid p u r change rg t :
  sockets st !! sid = Some (mkSocket p (Some (mkListeners u r))) ->
  range change = Some rg ->
  text change = JStr t ->
  line_out_of_bounds (Js.split_nl (content (deref st r))) (startLineNumber rg) \/
  line_out_of_bounds (Js.split_nl (content (deref st r))) (endLineNumber rg) ->
  (on_change st sid change).2 = Uncaught TypeError.
Proof.
  intros Hs Hrg Ht Hout. unfold on_change. rewrite Hs, Ht, Hrg.
  change (content (deref (emit p (Some sid) (ChangeEvent change) st) r))
    with (content (deref st r)).
  by rewrite (applyChange_missing_line _ _ _ Hout).
Qed.

Lemma emissions_none st ev :
  emitted (step JSON_parse st ev).1 = emitted st -> emissions_of JSON_parse st ev = [].
Proof. unfold emissions_of. intros ->. apply drop_all. Qed.

Lemma emissions_one st ev em :
  emitted (step JSON_parse st ev).1 = emitted st ++ [em] ->
  emissions_of JSON_parse st ev = [em].
Proof. unfold emissions_of. intros ->. by rewrite drop_app_length. Qed.

(** What each event emits. *)
Lemma emissions_connect st sid q now :
  emissions_of JSON_parse st (Connect sid q now) = [] \/
  exists p u pr parsed,
    truthy (projectId q) = Some p /\ truthy (q_userId q) = Some u /\
    truthy (q_profile q) = Some pr /\ JSON_parse pr = Some parsed /\
    let st' := (connection JSON_parse st sid q now).1 in
    exists r, rooms st' !! p = Some r /\
      sockets st' !! sid = Some (mkSocket p (Some (mkListeners u r))) /\
      emissions_of JSON_parse st (Connect sid q now)
      = [mkEmission p None (presence st' r) (members st' p)].
Proof.
  unfold emissions_of. simpl. unfold connection.
  destruct (truthy (projectId q)) as [p|]; [|left; apply drop_all].
  destruct (truthy (q_userId q)) as [u|]; [|left; apply drop_all].
  destruct (truthy (q_profile q)) as [pr|]; [|left; apply drop_all].
  destruct (rooms st !! p) as [r|] eqn:Hr; simpl;
    (destruct (JSON_parse pr) as [parsed|] eqn:Hparse; simpl; [|left; apply drop_all]);
    right; exists p, u, pr, parsed; split_and!; try done.
  - exists r. split_and!; [done|by rewrite lookup_insert_eq|].
    rewrite drop_app_length. do 2 f_equal.
    apply set_eq. intros x. rewrite !elem_of_members. simpl.
    rewrite insert_insert_eq.
    destruct (decide (x = sid)) as [->|]; [|by rewrite !lookup_insert_ne].
    rewrite !lookup_insert_eq. split; intros (? & [= <-] & ?); eauto.
  - exists (length (heap st)). split_and!; [by rewrite lookup_insert_eq|by rewrite lookup_insert_eq|].
    rewrite drop_app_length. do 2 f_equal.
    apply set_eq. intros x. rewrite !elem_of_members. simpl.
    rewrite insert_insert_eq.
    destruct (decide (x = sid)) as [->|]; [|by rewrite !lookup_insert_ne].
    rewrite !lookup_insert_eq. split; intros (? & [= <-] & ?); eauto.
Qed.

Lemma emissions_cursor st sid position sel now :
  emissions_of JSON_parse st (Cursor sid position sel now) = [] \/
  exists p u r,
    sockets st !! sid = Some (mkSocket p (Some (mkListeners u r))) /\
    let st' := (on_cursor st sid position sel now).1 in
    sockets st' = sockets st /\ rooms st' = rooms st /\
    emissions_of JSON_parse st (Cursor sid position sel now)
    = [mkEmission p None (presence st' r) (members st' p)].
Proof.
  unfold emissions_of. simpl. unfold on_cursor.
  destruct (sockets st !! sid) as [[p [[u r]|]]|] eqn:Hs; try (left; apply drop_all).
  destruct (JsMap.get u (users (deref st r))) as [user|]; [|left; apply drop_all].
  right. exists p, u, r. split; [done|]. simpl. split_and!; try done.
  by rewrite drop_app_length.
Qed.

Lemma emissions_edit st sid change :
  emissions_of JSON_parse st (Edit sid change) = [] \/
  exists p u r,
    sockets st !! sid = Some (mkSocket p (Some (mkListeners u r))) /\
    let st' := (on_change st sid change).1 in
    sockets st' = sockets st /\ rooms st' = rooms st /\
    emissions_of JSON_parse st (Edit sid change)
    = [mkEmission p (Some sid) (ChangeEvent change) (members st' p ∖ {[sid]})].
Proof.
  unfold emissions_of. simpl. unfold on_change.
  destruct (sockets st !! sid) as [[p [[u r]|]]|] eqn:Hs; try (left; apply drop_all).
  right. exists p, u, r. split; [done|].
  destruct (text change); simpl; try (split_and!; try done; by rewrite drop_app_length).
  destruct (applyChange _ _); simpl; split_and!; try done; by rewrite drop_app_length.
Qed.

Lemma emissions_disconnect st sid :
  emissions_of JSON_parse st (Disconnect sid) = [] \/
  exists p u r,
    sockets st !! sid = Some (mkSocket p (Some (mkListeners u r))) /\
    let st' := (on_disconnect st sid).1 in
    sockets st' = delete sid (sockets st) /\
    emissions_of JSON_parse st (Disconnect sid)
    = [mkEmission p None
         (PresenceEvent (JsMap.values (JsMap.delete u (users (deref st r)))))
         (members st' p)].
Proof.
  unfold emissions_of. simpl. unfold on_disconnect.
  destruct (sockets st !! sid) as [[p [[u r]|]]|] eqn:Hs; try (left; apply drop_all).
  right. exists p, u, r. split; [done|].
  assert (Hpres : presence (set_users (JsMap.delete u) r
                              (set_sockets (delete sid (sockets st)) st)) r
                  = PresenceEvent (JsMap.values (JsMap.delete u (users (deref st r))))).
  { unfold presence, deref. simpl. rewrite list_lookup_alter_eq.
    by destruct (heap st !! r). }
  case_decide; simpl; (split; [done|]); by rewrite drop_app_length, Hpres.
Qed.

(** A step emits nothing, or one event. *)
Ltac no_emission E Hem := rewrite E in Hem; by apply elem_of_nil in Hem.
Ltac the_emission E Hem := rewrite E in Hem; apply list_elem_of_singleton in Hem as ->.

(** C8.  A change event goes to every socket of the room but the one it
    came from; a presence snapshot goes to every socket of the room, the
    one that joined or moved its cursor included. *)
Theorem broadcast_recipients st ev em :
  em ∈ emissions_of JSON_parse st ev ->
  let st' := (step JSON_parse st ev).1 in
  match em_event em with
  | ChangeEvent _ =>
      em_to em = members st' (em_room em) ∖ {[origin ev]} /\
      origin ev ∈ members st' (em_room em)
  | PresenceEvent _ =>
      em_to em = members st' (em_room em) /\
      (is_leave ev = false -> origin ev ∈ em_to em)
  end.
Proof.
  intros Hem. destruct ev as [sid q now|sid position sel now|sid change|sid].
  - destruct (emissions_connect st sid q now)
      as [E|(p & u & pr & parsed & _ & _ & _ & _ & r & _ & Hs & E)];
      [no_emission E Hem|the_emission E Hem]. simpl. split; [done|].
    intros _. apply elem_of_members. eauto.
  - destruct (emissions_cursor st sid position sel now)
      as [E|(p & u & r & Hs & Hsock & _ & E)];
      [no_emission E Hem|the_emission E Hem]. simpl. split; [done|].
    intros _. apply elem_of_members. rewrite Hsock. eauto.
  - destruct (emissions_edit st sid change)
      as [E|(p & u & r & Hs & Hsock & _ & E)];
      [no_emission E Hem|the_emission E Hem]. simpl. split; [done|].
    apply elem_of_members. rewrite Hsock. eauto.
  - destruct (emissions_disconnect st sid)
      as [E|(p & u & r & Hs & Hsock & E)];
      [no_emission E Hem|the_emission E Hem]. simpl. split; done.
Qed.

(** The registry after a step: a binding is kept, made by a join of an
    unregistered room for an object constructed by that step, or removed. *)
Lemma rooms_step st ev p :
  let st' := (step JSON_parse st ev).1 in
  rooms st' !! p = rooms st !! p \/
  (joins p ev /\ rooms st !! p = None /\ rooms st' !! p = Some (length (heap st))) \/
  (is_Some (rooms st !! p) /\ rooms st' !! p = None).
Proof.
  destruct ev as [sid q now|sid position sel now|sid change|sid]; simpl.
  - unfold connection.
    destruct (truthy (projectId q)) as [p'|] eqn:Hp'; [|by left].
    destruct (truthy (q_userId q)) as [u|]; [|by left].
    destruct (truthy (q_profile q)) as [pr|]; [|by left].
    destruct (rooms st !! p') as [r|] eqn:Hr;
      destruct (JSON_parse pr); simpl; try by left.
    + destruct (decide (p' = p)) as [->|]; [|left; by rewrite lookup_insert_ne].
      right; left. by rewrite lookup_insert_eq.
    + destruct (decide (p' = p)) as [->|]; [|left; by rewrite lookup_insert_ne].
      right; left. by rewrite lookup_insert_eq.
  - left. unfold on_cursor.
    destruct (sockets st !! sid) as [[p' [[u r]|]]|]; try done.
    by destruct (JsMap.get u _).
  - left. unfold on_change.
    destruct (sockets st !! sid) as [[p' [[u r]|]]|]; try done.
    destruct (text change); try done. by destruct (applyChange _ _).
  - unfold on_disconnect.
    destruct (sockets st !! sid) as [[p' [[u r]|]]|]; try by left.
    case_decide; simpl; [|by left].
    destruct (decide (p' = p)) as [->|]; [|left; by rewrite lookup_delete_ne].
    rewrite lookup_delete_eq. destruct (rooms st !! p) eqn:E; [|by left].
    right; right. eauto.
Qed.

Lemma rooms_run_unjoined st evs p :
  rooms st !! p = None -> Forall (fun ev => ~ joins p ev) evs ->
  rooms (run JSON_parse st evs) !! p = None.
Proof.
  intros Hnone Hevs. revert st Hnone.
  induction Hevs as [|ev evs Hev _ IH]; intros st Hnone; [done|].
  simpl. apply IH.
  destruct (rooms_step st ev p) as [E|[(Hj & _)|(_ & E)]]; [congruence|done|done].
Qed.

(** C7.  When the only participant of a room disconnects, the room id is
    unregistered at once, and stays so until the next join of that room;
    that join registers a newly constructed room object whose buffer is
    empty and whose presence map holds the joining participant alone. *)
Theorem last_leave_discards_room st sid p u r pres :
  sockets st !! sid = Some (mkSocket p (Some (mkListeners u r))) ->
  users (deref st r) = [(u, pres)] ->
  let st1 := (on_disconnect st sid).1 in
  rooms st1 !! p = None /\
  forall evs,
    Forall (fun ev => ~ joins p ev) evs ->
    let st2 := run JSON_parse st1 evs in
    rooms st2 !! p = None /\
    forall sid' q now u' pr parsed,
      truthy (projectId q) = Some p ->
      truthy (q_userId q) = Some u' ->
      truthy (q_profile q) = Some pr ->
      JSON_parse pr = Some parsed ->
      let st3 := (connection JSON_parse st2 sid' q now).1 in
      rooms st3 !! p = Some (length (heap st2)) /\
      length (heap st3) = S (length (heap st2)) /\
      heap st3 !! length (heap st2)
      = Some (mkRoom [(u', mkPresence u' parsed (mkCursor 0 0) None now)] []).
Proof.
  intros Hs Husers.
  assert (Hgone : rooms (on_disconnect st sid).1 !! p = None).
  { unfold on_disconnect. rewrite Hs. simpl.
    assert (Hempty : users (deref (set_users (JsMap.delete u) r
                             (set_sockets (delete sid (sockets st)) st)) r) = []).
    { unfold deref in *. simpl. rewrite list_lookup_alter_eq.
      destruct (heap st !! r) as [room|]; simpl in *; [|done].
      rewrite Husers. unfold JsMap.delete. rewrite filter_cons. simpl.
      by rewrite decide_False by (intros H; by apply H). }
    change (deref (emit ?a ?b ?c ?s) r) with (deref s r).
    rewrite Hempty. simpl. apply lookup_delete_eq. }
  simpl. split; [done|]. intros evs Hevs.
  pose proof (rooms_run_unjoined _ evs p Hgone Hevs) as Hnone.
  split; [done|].
  intros sid' q now u' pr parsed Hp Hu Hpr Hparse.
  unfold connection. rewrite Hp, Hu, Hpr, Hnone. simpl. rewrite Hparse. simpl.
  split_and!.
  - apply lookup_insert_eq.
  - rewrite length_alter, length_app. simpl. lia.
  - rewrite list_lookup_alter_eq, lookup_app_r by lia.
    by rewrite Nat.sub_diag.
Qed.

(** * Presence under one connection per participant *)

Lemma elem_of_attached st p u :
  u ∈ attached st p <->
  exists sid r, sockets st !! sid = Some (mkSocket p (Some (mkListeners u r))).
Proof.
  unfold attached. rewrite list_elem_of_omap. split.
  - intros ([sid [p' l]] & Hin & H). apply elem_of_map_to_list in Hin.
    simpl in H. case_decide as Hp; [|done]. subst p'.
    destruct l as [[u' r]|]; simpl in H; [|done]. injection H as ->. eauto.
  - intros (sid & r & H). exists (sid, mkSocket p (Some (mkListeners u r))).
    split; [by apply elem_of_map_to_list|]. simpl. by rewrite decide_True.
Qed.

Lemma deref_lookup st r room : heap st !! r = Some room -> deref st r = room.
Proof. unfold deref. by intros ->. Qed.

Lemma presence_ids (m : list (string * UserPresence Profile)) :
  Forall (fun kv => userId kv.2 = kv.1) m ->
  userId <$> JsMap.values m = JsMap.keys m.
Proof.
  unfold JsMap.values, JsMap.keys. induction 1 as [|[k v] m Hkv _ IH]; [done|].
  rewrite !fmap_cons. simpl in Hkv. by f_equal.
Qed.

Lemma consistent_init : consistent (@init Profile).
Proof.
  split; simpl; done.
Qed.

(** Consistency does not look at what was emitted. *)
Lemma consistent_ext st st' :
  rooms st' = rooms st -> heap st' = heap st -> sockets st' = sockets st ->
  consistent st -> consistent st'.
Proof.
  destruct st as [rs h ss e], st' as [rs' h' ss' e']. simpl.
  intros -> -> -> [H1 H2 H3 H4 H5 H6]. by split.
Qed.

(** Registering a newly constructed, empty room. *)
Lemma consistent_create st p :
  consistent st -> rooms st !! p = None ->
  consistent (mkServer (<[p := length (heap st)]> (rooms st))
                       (heap st ++ [mkRoom [] []])
                       (sockets st) (emitted st)).
Proof.
  intros [H1 H2 H3 H4 H5 H6] Hnone.
  assert (Hderef : forall r, (r < length (heap st))%nat ->
            deref (mkServer (<[p := length (heap st)]> (rooms st))
                            (heap st ++ [mkRoom [] []]) (sockets st) (emitted st)) r
            = deref st r).
  { intros r Hr. unfold deref. simpl. by rewrite lookup_app_l. }
  split; simpl.
  - intros sid p' u r Hs. pose proof (H1 _ _ _ _ Hs) as Hr.
    rewrite lookup_insert_ne; [done|]. intros ->. congruence.
  - intros p' r. rewrite lookup_insert, length_app. simpl.
    case_decide; [intros [= <-]; lia|]. intros Hr. apply H2 in Hr. lia.
  - intros p1 p2 r. rewrite !lookup_insert.
    repeat case_decide; subst; try done.
    + intros [= <-] Hr. apply H2 in Hr. lia.
    + intros Hr [= <-]. apply H2 in Hr. lia.
    + apply H3.
  - intros p' r u. rewrite lookup_insert. case_decide as Hp.
    + subst p'. intros [= <-]. unfold deref. simpl.
      rewrite lookup_app_r by lia. rewrite Nat.sub_diag. simpl. split.
      * by intros [? ?].
      * intros Hin. apply elem_of_attached in Hin as (sid & r & Hs).
        apply H1 in Hs. congruence.
    + intros Hr. rewrite Hderef by by eapply H2. by apply H4.
  - apply H5.
  - intros r room Hr. apply lookup_app_Some in Hr as [Hr|[_ Hr]]; [by eapply H6|].
    destruct (r - length (heap st))%nat; simpl in Hr; [|done].
    injection Hr as <-. split; simpl; [apply NoDup_nil_2|constructor].
Qed.

(** [socket.join]: a socket in a room, no listener yet. *)
Lemma consistent_join st sid p :
  consistent st -> sockets st !! sid = None ->
  consistent (set_sockets (<[sid := mkSocket p None]> (sockets st)) st).
Proof.
  intros [H1 H2 H3 H4 H5 H6] Hfresh.
  assert (Hold : forall sid' p' l,
            <[sid := mkSocket p None]> (sockets st) !! sid'
            = Some (mkSocket p' (Some l)) ->
            sockets st !! sid' = Some (mkSocket p' (Some l))).
  { intros sid' p' l. rewrite lookup_insert. by case_decide. }
  assert (Hatt : forall p' u, u ∈ attached (set_sockets (<[sid := mkSocket p None]> (sockets st)) st) p'
                              <-> u ∈ attached st p').
  { intros p' u. rewrite !elem_of_attached. simpl. split.
    - intros (sid' & r & Hs). apply Hold in Hs. eauto.
    - intros (sid' & r & Hs). exists sid', r.
      rewrite lookup_insert_ne; [done|]. intros ->. congruence. }
  split; simpl.
  - intros sid' p' u r Hs. apply Hold in Hs. eauto.
  - done.
  - done.
  - intros p' r u Hr. rewrite Hatt. by apply H4.
  - intros sid1 sid2 p' u r1 r2 Hs1 Hs2. apply Hold in Hs1, Hs2. eauto.
  - done.
Qed.

Lemma deref_set_users_eq st f r :
  (r < length (heap st))%nat ->
  deref (set_users f r st) r = mkRoom (f (users (deref st r))) (content (deref st r)).
Proof.
  intros Hr. unfold deref. simpl. rewrite list_lookup_alter_eq.
  destruct (lookup_lt_is_Some_2 (heap st) r Hr) as [room ->]. done.
Qed.

Lemma deref_set_users_ne st f r r' :
  r' ≠ r -> deref (set_users f r st) r' = deref st r'.
Proof. intros Hr. unfold deref. simpl. by rewrite list_lookup_alter_ne. Qed.

Lemma room_wf_alter (f : list (string * UserPresence Profile) -> list (string * UserPresence Profile))
    (h : list (RoomState Profile)) r :
  (forall room, room_wf room -> room_wf (mkRoom (f (users room)) (content room))) ->
  (forall r0 room, h !! r0 = Some room -> room_wf room) ->
  forall r0 room,
    alter (fun room => mkRoom (f (users room)) (content room)) r h !! r0 = Some room ->
    room_wf room.
Proof.
  intros Hf Hh r0 room. destruct (decide (r0 = r)) as [->|Hne].
  - rewrite list_lookup_alter_eq. destruct (h !! r) as [room0|] eqn:E; simpl; [|done].
    intros [= <-]. apply Hf. by eapply Hh.
  - rewrite list_lookup_alter_ne by done. apply Hh.
Qed.

(** The listeners are registered and the participant is in the presence
    map. *)
Lemma consistent_attach st sid p u r pres :
  consistent st ->
  sockets st !! sid = Some (mkSocket p None) ->
  rooms st !! p = Some r ->
  u ∉ attached st p ->
  userId pres = u ->
  consistent (set_sockets (<[sid := mkSocket p (Some (mkListeners u r))]> (sockets st))
                          (set_users (JsMap.set u pres) r st)).
Proof.
  intros [H1 H2 H3 H4 H5 H6] Hs Hr Hu Hpres.
  set (st' := set_sockets _ _).
  assert (Hsock : forall sid' p' u' r',
            sockets st' !! sid' = Some (mkSocket p' (Some (mkListeners u' r'))) <->
            (sid' = sid /\ p' = p /\ u' = u /\ r' = r) \/
            (sid' ≠ sid /\ sockets st !! sid' = Some (mkSocket p' (Some (mkListeners u' r'))))).
  { intros sid' p' u' r'. unfold st'. simpl. rewrite lookup_insert.
    case_decide; split.
    - intros [= -> -> ->]. by left.
    - intros [(_ & -> & -> & ->)|[? _]]; done.
    - intros ?. by right.
    - intros [[? _]|[_ ?]]; [congruence|done]. }
  assert (Hatt : forall p' u', u' ∈ attached st' p' <->
                               (p' = p /\ u' = u) \/ u' ∈ attached st p').
  { intros p' u'. rewrite !elem_of_attached. split.
    - intros (sid' & r' & Hs'). apply Hsock in Hs' as [(_ & -> & -> & _)|[_ Hs']].
      + by left.
      + right. eauto.
    - intros [[-> ->]|(sid' & r' & Hs')].
      + exists sid, r. apply Hsock. by left.
      + exists sid', r'. apply Hsock. right. split; [|done]. intros ->. congruence. }
  split.
  - intros sid' p' u' r' Hs'. apply Hsock in Hs' as [(_ & -> & _ & ->)|[_ Hs']]; eauto.
  - intros p' r' Hr'. simpl. rewrite length_alter. by eapply H2.
  - apply H3.
  - intros p' r' u' Hr'. simpl in Hr'. rewrite Hatt.
    destruct (decide (r' = r)) as [->|Hne].
    + assert (p' = p) as -> by by eapply H3.
      change (deref st' r) with (deref (set_users (JsMap.set u pres) r st) r).
      rewrite deref_set_users_eq by by eapply H2. simpl. rewrite get_set.
      rewrite <- (H4 _ _ u' Hr). case_decide; subst.
      * split; [by left|eauto].
      * split; [by right|]. by intros [[_ ?]|?].
    + change (deref st' r') with (deref (set_users (JsMap.set u pres) r st) r').
      rewrite deref_set_users_ne by done. rewrite (H4 _ _ u' Hr').
      split; [by right|]. intros [[-> _]|?]; [congruence|done].
  - intros sid1 sid2 p' u' r1 r2 Hs1 Hs2.
    apply Hsock in Hs1 as [(-> & -> & -> & ->)|[Hn1 Hs1]];
      apply Hsock in Hs2 as [(-> & ? & ? & ?)|[Hn2 Hs2]]; subst; try done.
    + exfalso. apply Hu. apply elem_of_attached. eauto.
    + exfalso. apply Hu. apply elem_of_attached. eauto.
    + eauto.
  - simpl. apply room_wf_alter; [|done].
    intros room [Hnd Hkeys]. split; simpl.
    + by apply keys_set_NoDup.
    + by apply set_Forall.
Qed.

(** A cursor update of a participant present in the room. *)
Lemma consistent_cursor st sid p u r user pres :
  consistent st ->
  sockets st !! sid = Some (mkSocket p (Some (mkListeners u r))) ->
  JsMap.get u (users (deref st r)) = Some user ->
  userId pres = userId user ->
  consistent (set_users (JsMap.set u pres) r st).
Proof.
  intros [H1 H2 H3 H4 H5 H6] Hs Huser Hpres.
  pose proof (H1 _ _ _ _ Hs) as Hr. pose proof (H2 _ _ Hr) as Hlt.
  destruct (lookup_lt_is_Some_2 _ _ Hlt) as [room Hroom].
  assert (Hid : userId user = u).
  { destruct (H6 _ _ Hroom) as [_ Hkeys]. rewrite (deref_lookup _ _ _ Hroom) in Huser.
    apply get_elem_of in Huser. rewrite Forall_forall in Hkeys.
    by apply Hkeys in Huser. }
  split; try done.
  - intros p' r' Hr'. simpl. rewrite length_alter. by eapply H2.
  - intros p' r' u' Hr'. simpl in Hr'.
    change (attached (set_users (JsMap.set u pres) r st) p') with (attached st p').
    rewrite <- (H4 _ _ u' Hr').
    destruct (decide (r' = r)) as [->|Hne].
    + rewrite deref_set_users_eq by done. simpl. rewrite get_set.
      case_decide; [subst u'|done]. rewrite Huser. split; eauto.
    + by rewrite deref_set_users_ne.
  - simpl. apply room_wf_alter; [|done].
    intros room0 [Hnd Hkeys]. split; simpl.
    + by apply keys_set_NoDup.
    + apply set_Forall; [|done]. simpl. congruence.
Qed.

(** A buffer update. *)
Lemma consistent_content st s r :
  consistent st -> consistent (set_content s r st).
Proof.
  intros [H1 H2 H3 H4 H5 H6].
  assert (Husers : forall r', users (deref (set_content s r st) r') = users (deref st r')).
  { intros r'. unfold deref. simpl. destruct (decide (r' = r)) as [->|Hne].
    - rewrite list_lookup_alter_eq. by destruct (heap st !! r).
    - by rewrite list_lookup_alter_ne. }
  split; try done.
  - intros p' r' Hr'. simpl. rewrite length_alter. by eapply H2.
  - intros p' r' u' Hr'. rewrite Husers. by apply H4.
  - simpl. intros r0 room. destruct (decide (r0 = r)) as [->|Hne].
    + rewrite list_lookup_alter_eq. destruct (heap st !! r) as [room0|] eqn:E; [|done].
      simpl. intros [= <-]. by destruct (H6 _ _ E).
    + rewrite list_lookup_alter_ne by done. apply H6.
Qed.

(** The socket is gone and its participant is out of the presence map. *)
Lemma consistent_detach st sid p u r :
  consistent st ->
  sockets st !! sid = Some (mkSocket p (Some (mkListeners u r))) ->
  consistent (set_users (JsMap.delete u) r (set_sockets (delete sid (sockets st)) st)).
Proof.
  intros [H1 H2 H3 H4 H5 H6] Hs.
  set (st1 := set_sockets (delete sid (sockets st)) st).
  pose proof (H1 _ _ _ _ Hs) as Hr. pose proof (H2 _ _ Hr) as Hlt.
  assert (Hsock : forall sid' s, sockets st1 !! sid' = Some s <->
                                 sid' ≠ sid /\ sockets st !! sid' = Some s).
  { intros sid' s. unfold st1. simpl. rewrite lookup_delete.
    case_decide; [subst; split; [done|by intros [? _]]|split; [done|by intros [_ ?]]]. }
  assert (Hatt : forall p' u', u' ∈ attached (set_users (JsMap.delete u) r st1) p' <->
                               u' ∈ attached st p' /\ ~ (p' = p /\ u' = u)).
  { intros p' u'. rewrite !elem_of_attached.
    change (sockets (set_users (JsMap.delete u) r st1)) with (sockets st1). split.
    - intros (sid' & r' & Hs'). apply Hsock in Hs' as [Hne Hs']. split; [eauto|].
      intros [-> ->]. apply Hne. by eapply H5.
    - intros [(sid' & r' & Hs') Hnot]. exists sid', r'. apply Hsock. split; [|done].
      intros ->. rewrite Hs in Hs'. injection Hs' as -> -> ->. by apply Hnot. }
  split.
  - intros sid' p' u' r' Hs'. apply Hsock in Hs' as [_ Hs']. by eapply H1.
  - intros p' r' Hr'. simpl. rewrite length_alter. by eapply H2.
  - apply H3.
  - intros p' r' u' Hr'. simpl in Hr'. rewrite Hatt, <- (H4 _ _ u' Hr').
    destruct (decide (r' = r)) as [->|Hne].
    + assert (p' = p) as -> by by eapply H3.
      rewrite deref_set_users_eq by done. simpl. rewrite get_delete.
      change (deref st1 r) with (deref st r).
      case_decide; subst.
      * split; [by intros [? ?]|]. intros [_ Hnot]. by destruct Hnot.
      * split; [|by intros [? _]]. intros ?. split; [done|]. by intros [_ ?].
    + rewrite deref_set_users_ne by done. change (deref st1 r') with (deref st r').
      split; [|by intros [? _]]. intros ?. split; [done|].
      intros [-> _]. rewrite Hr in Hr'. congruence.
  - intros sid1 sid2 p' u' r1 r2 Hs1 Hs2.
    apply Hsock in Hs1 as [_ Hs1]. apply Hsock in Hs2 as [_ Hs2]. by eapply H5.
  - simpl. apply room_wf_alter; [|done].
    intros room [Hnd Hkeys]. split; simpl.
    + by apply keys_delete_NoDup.
    + by apply delete_Forall.
Qed.

(** An empty room is taken out of the registry. *)
Lemma consistent_unregister st p r :
  consistent st ->
  rooms st !! p = Some r ->
  JsMap.size (users (deref st r)) = 0%nat ->
  consistent (set_rooms (delete p (rooms st)) st).
Proof.
  intros [H1 H2 H3 H4 H5 H6] Hr Hsize.
  split; simpl; try done.
  - intros sid p' u' r' Hs'. pose proof (H1 _ _ _ _ Hs') as Hr'.
    rewrite lookup_delete_ne; [done|]. intros <-.
    assert (r' = r) as -> by congruence.
    assert (Hin : u' ∈ attached st p) by (apply elem_of_attached; eauto).
    apply (H4 _ _ u' Hr) in Hin as [v Hv].
    by rewrite (size_zero _ Hsize) in Hv.
  - intros p' r'. rewrite lookup_delete. case_decide; [done|]. apply H2.
  - intros p1 p2 r'. rewrite !lookup_delete. repeat case_decide; try done. apply H3.
  - intros p' r' u'. rewrite lookup_delete. case_decide; [done|]. apply H4.
Qed.

(** Every admissible step keeps the server consistent. *)
Lemma consistent_step st ev :
  consistent st -> admissible st ev -> consistent (step JSON_parse st ev).1.
Proof.
  intros Hc Hadm. destruct ev as [sid q now|sid position sel now|sid change|sid]; simpl.
  - destruct Hadm as [Hfresh Hnew]. unfold connection.
    destruct (truthy (projectId q)) as [p|]; [|done].
    destruct (truthy (q_userId q)) as [u|]; [|done].
    destruct (truthy (q_profile q)) as [pr|]; [|done].
    specialize (Hnew p u eq_refl eq_refl).
    destruct (rooms st !! p) as [r|] eqn:Hr; simpl.
    + pose proof (consistent_join st sid p Hc Hfresh) as Hj.
      destruct (JSON_parse pr) as [parsed|]; simpl; [|done].
      eapply consistent_ext;
        [| | |apply (consistent_attach _ sid p u r
                       (mkPresence u parsed (mkCursor 0 0) None now) Hj)]; simpl; try done.
      * by rewrite lookup_insert_eq.
      * intros Hin. apply Hnew. apply elem_of_attached in Hin as (sid' & r' & Hs').
        simpl in Hs'. apply elem_of_attached. exists sid', r'.
        rewrite lookup_insert in Hs'. by case_decide.
    + pose proof (consistent_create st p Hc Hr) as Hcr.
      pose proof (consistent_join _ sid p Hcr Hfresh) as Hj.
      destruct (JSON_parse pr) as [parsed|]; simpl; [|done].
      eapply consistent_ext;
        [| | |apply (consistent_attach _ sid p u (length (heap st))
                       (mkPresence u parsed (mkCursor 0 0) None now) Hj)]; simpl; try done.
      * by rewrite lookup_insert_eq.
      * by rewrite lookup_insert_eq.
      * intros Hin. apply Hnew. apply elem_of_attached in Hin as (sid' & r' & Hs').
        simpl in Hs'. apply elem_of_attached. exists sid', r'.
        rewrite lookup_insert in Hs'. by case_decide.
  - unfold on_cursor.
    destruct (sockets st !! sid) as [[p [[u r]|]]|] eqn:Hs; try done.
    destruct (JsMap.get u (users (deref st r))) as [user|] eqn:Huser; [|done].
    simpl.
    apply (consistent_ext
             (set_users (JsMap.set u (mkPresence (userId user) (profile user)
                                                 position sel now)) r st)); [done..|].
    by eapply consistent_cursor.
  - unfold on_change.
    destruct (sockets st !! sid) as [[p [[u r]|]]|] eqn:Hs; try done.
    destruct (text change); simpl;
      try (eapply consistent_ext; [| | |exact Hc]; done).
    destruct (applyChange _ _) as [s'|e]; simpl.
    + eapply consistent_ext; [| | |apply (consistent_content st s' r Hc)]; done.
    + eapply consistent_ext; [| | |exact Hc]; done.
  - unfold on_disconnect.
    destruct (sockets st !! sid) as [[p [[u r]|]]|] eqn:Hs; [| |done].
    + pose proof (consistent_detach st sid p u r Hc Hs) as Hd.
      case_decide as Hsize; simpl.
      * eapply consistent_ext;
          [| | |apply (consistent_unregister _ p r Hd)]; simpl; try done.
        by eapply attached_registered.
      * eapply consistent_ext; [| | |exact Hd]; done.
    + simpl. destruct Hc as [H1 H2 H3 H4 H5 H6].
      assert (Hsock : forall sid' s, delete sid (sockets st) !! sid' = Some s ->
                                     sockets st !! sid' = Some s).
      { intros sid' s. rewrite lookup_delete. by case_decide. }
      assert (Hatt : forall p' u',
                u' ∈ attached (set_sockets (delete sid (sockets st)) st) p'
                <-> u' ∈ attached st p').
      { intros p' u'. rewrite !elem_of_attached. simpl. split.
        - intros (sid' & r' & Hs'). apply Hsock in Hs'. eauto.
        - intros (sid' & r' & Hs'). exists sid', r'.
          rewrite lookup_delete_ne; [done|]. intros ->. congruence. }
      split; simpl; try done.
      * intros sid' p' u' r' Hs'. apply Hsock in Hs'. eauto.
      * intros p' r' u' Hr'. rewrite Hatt. by apply H4.
      * intros sid1 sid2 p' u' r1 r2 Hs1 Hs2. apply Hsock in Hs1, Hs2. eauto.
Qed.

Lemma consistent_run st evs :
  consistent st -> admissible_trace JSON_parse st evs ->
  consistent (run JSON_parse st evs).
Proof.
  revert st. induction evs as [|ev evs IH]; intros st Hc Hadm; [done|].
  destruct Hadm as [Hev Hevs]. simpl. apply IH; [|done]. by apply consistent_step.
Qed.

Lemma admissible_trace_last st evs ev :
  admissible_trace JSON_parse st (evs ++ [ev]) ->
  admissible_trace JSON_parse st evs /\ admissible (run JSON_parse st evs) ev.
Proof.
  revert st. induction evs as [|ev' evs IH]; intros st; simpl.
  - by intros [? _].
  - intros [Hev' Hrest]. apply IH in Hrest as [? ?]. done.
Qed.

Lemma attached_sockets st st' p :
  sockets st' = sockets st -> attached st' p = attached st p.
Proof. unfold attached. by intros ->. Qed.

(** In a consistent server the presence snapshot of a registered room has
    one record for each participant attached to it, and no other. *)
Lemma presence_of_registered st p r l :
  consistent st ->
  rooms st !! p = Some r ->
  presence st r = PresenceEvent l ->
  NoDup (userId <$> l) /\ (forall u, u ∈ userId <$> l <-> u ∈ attached st p).
Proof.
  intros Hc Hr [= <-].
  pose proof (registered_allocated Hc _ _ Hr) as Hlt.
  destruct (lookup_lt_is_Some_2 _ _ Hlt) as [room Hroom].
  destruct (rooms_wf Hc _ _ Hroom) as [Hnd Hkeys].
  rewrite (deref_lookup _ _ _ Hroom), presence_ids by done.
  split; [done|]. intros u. rewrite elem_of_keys.
  rewrite <- (deref_lookup _ _ _ Hroom). by apply presence_attached.
Qed.

(** C5 (as amended).  As long as no participant id is attached twice to a
    room (the environment hands out fresh socket ids and nobody joins a
    room under the id of a participant attached to it), every presence
    broadcast, on a join, a cursor update or a leave, carries exactly one
    record for each participant attached to the room after the event, and
    no other record. *)
Theorem presence_broadcast_complete evs ev em l :
  admissible_trace JSON_parse init (evs ++ [ev]) ->
  em ∈ emissions_of JSON_parse (run JSON_parse init evs) ev ->
  em_event em = PresenceEvent l ->
  let st' := (step JSON_parse (run JSON_parse init evs) ev).1 in
  NoDup (userId <$> l) /\
  (forall u, u ∈ userId <$> l <-> u ∈ attached st' (em_room em)).
Proof.
  intros Hadm Hem Hl. apply admissible_trace_last in Hadm as [Hevs Hev].
  set (st := run JSON_parse init evs) in *.
  assert (Hc : consistent st) by (apply consistent_run; [apply consistent_init|done]).
  pose proof (consistent_step st ev Hc Hev) as Hc'.
  destruct ev as [sid q now|sid position sel now|sid change|sid].
  - destruct (emissions_connect st sid q now)
      as [E|(p & u & pr & parsed & _ & _ & _ & _ & r & Hr & _ & E)];
      [no_emission E Hem|the_emission E Hem]. simpl in Hl |- *.
    by eapply presence_of_registered.
  - destruct (emissions_cursor st sid position sel now)
      as [E|(p & u & r & Hs & _ & Hrooms & E)];
      [no_emission E Hem|the_emission E Hem]. simpl in Hl |- *.
    eapply presence_of_registered; [done| |done].
    rewrite Hrooms. by eapply attached_registered.
  - destruct (emissions_edit st sid change)
      as [E|(p & u & r & _ & _ & _ & E)];
      [no_emission E Hem|the_emission E Hem]. done.
  - destruct (emissions_disconnect st sid)
      as [E|(p & u & r & Hs & Hsock & E)];
      [no_emission E Hem|the_emission E Hem]. simpl in Hl |- *.
    pose proof (consistent_detach st sid p u r Hc Hs) as Hd.
    pose proof (attached_registered Hc _ _ _ _ Hs) as Hr.
    rewrite (attached_sockets
               (set_users (JsMap.delete u) r (set_sockets (delete sid (sockets st)) st)))
      by done.
    eapply presence_of_registered; [done|done|].
    unfold presence.
    rewrite deref_set_users_eq by exact (registered_allocated Hc _ _ Hr).
    simpl. by rewrite <- Hl.
Qed.

End ServerFacts.

(** * The operation queue applies in the order of the calls *)

Module FileSystemFacts.
Import FileSystem.

Lemma run_snoc ms m : run (ms ++ [m]) = step (run ms) m.
Proof. unfold run. by rewrite foldl_app. Qed.

Lemma began_snoc t a :
  began (t ++ [a]) = began t ++ match a with Began op => [op] | _ => [] end.
Proof. unfold began. rewrite omap_app. by destruct a. Qed.

Lemma enqueued_snoc ms m :
  enqueued (ms ++ [m]) = enqueued ms ++ match m with Call op => [op] | _ => [] end.
Proof. unfold enqueued. rewrite omap_app. by destruct m. Qed.

(** The loop goes on after the awaited application has ended. *)
Lemma queue_inv_drain ms q t :
  began t ++ q = enqueued ms ->
  serial t None ->
  queue_inv ms (drain (mkState q true [] t)).
Proof.
  intros Hfifo Hser. unfold drain. simpl. destruct q as [|op q].
  - split; simpl; done || lia.
  - split; simpl.
    + rewrite began_snoc. simpl. by rewrite <- app_assoc.
    + by apply serial_began.
    + lia.
    + done.
Qed.

Lemma queue_inv_step ms st m :
  queue_inv ms st -> queue_inv (ms ++ [m]) (step st m).
Proof.
  intros [Hfifo Hser Hlen Hidle].
  pose proof (enqueued_snoc ms m) as Henq.
  assert (Hsame : enqueued (ms ++ [m]) = enqueued ms -> queue_inv (ms ++ [m]) st).
  { intros E. split; [by rewrite E|done..]. }
  destruct m as [op|i|i]; simpl; rewrite ?app_nil_r in Henq.
  - unfold processOperation. simpl. destruct (isProcessing st) eqn:Hflag.
    + split; simpl; [|done..]. by rewrite Henq, app_assoc, Hfifo.
    + destruct (Hidle eq_refl) as [Haw Hq]. rewrite Haw, Hq in *.
      apply queue_inv_drain; [|done].
      rewrite app_nil_r in Hfifo. by rewrite Henq, Hfifo.
  - destruct (awaiting st) as [|op [|op' aw]] eqn:Haw; simpl in Hlen; try lia.
    + rewrite lookup_nil. by apply Hsame.
    + destruct i as [|i]; simpl.
      * destruct (isProcessing st) eqn:Hflag; [|by destruct (Hidle eq_refl)].
        apply queue_inv_drain.
        -- by rewrite began_snoc, app_nil_r, Henq.
        -- by apply serial_finished.
      * by apply Hsame.
  - destruct (awaiting st) as [|op [|op' aw]] eqn:Haw; simpl in Hlen; try lia.
    + rewrite lookup_nil. by apply Hsame.
    + destruct i as [|i]; simpl.
      * split; simpl.
        -- by rewrite began_snoc, app_nil_r, Henq.
        -- by apply serial_failed.
        -- lia.
        -- intros Hflag. by destruct (Hidle Hflag).
      * by apply Hsame.
Qed.

Lemma queue_inv_run ms : queue_inv ms (run ms).
Proof.
  induction ms as [|m ms IH] using rev_ind.
  - split; simpl; [done|apply serial_nil|lia|done].
  - rewrite run_snoc. by apply queue_inv_step.
Qed.

(** C4 (as amended).  The file system has one queue for all entities.
    However the calls of the producers and the completions interleave, the
    operations begin to be applied in the order in which they were enqueued,
    for each entity in particular, and one at a time: an application has
    ended, in success or in failure, before the next begins, whatever
    entities the two are about. *)
Theorem operations_applied_in_order ms :
  began (applied (run ms)) ++ operationQueue (run ms) = enqueued ms /\
  (forall e,
     on_entity e (began (applied (run ms))) ++ on_entity e (operationQueue (run ms))
     = on_entity e (enqueued ms)) /\
  serial (applied (run ms)) (head (awaiting (run ms))) /\
  (length (awaiting (run ms)) <= 1)%nat.
Proof.
  destruct (queue_inv_run ms) as [Hfifo Hser Hlen _]. split_and!; try done.
  intros e. unfold on_entity. by rewrite <- filter_app, Hfifo.
Qed.

(** C4, the independence of entities: an operation on "b.ts" waits in the
    queue while the operation on "a.ts" enqueued before it is applied. *)
Lemma other_entity_waits :
  let a := mkOp create "a.ts" None "ann" 0 in
  let b := mkOp create "b.ts" None "bob" 1 in
  awaiting (run [Call a; Call b]) = [a] /\
  operationQueue (run [Call a; Call b]) = [b] /\
  applied (run [Call a; Call b]) = [Began a] /\
  ~ entities_independent.
Proof.
  intros a b. split_and!; try reflexivity.
  intros H. destruct (H [Call a; Call b] b) as (op' & Hin & Hpath).
  - apply list_elem_of_singleton. reflexivity.
  - apply list_elem_of_singleton in Hin. subst op'. discriminate.
Qed.

End FileSystemFacts.

(** * The theorems at work on the example states *)

Lemma handshake_missing_parameter_witness :
  (projectId (mkQuery None (Some "ann") (Some "{}")) = None \/
   q_userId (mkQuery None (Some "ann") (Some "{}")) = None \/
   q_profile (mkQuery None (Some "ann") (Some "{}")) = None) /\
  connection parse_example Examples.alone 2 (mkQuery None (Some "ann") (Some "{}")) 5
  = (Examples.alone, Disconnected).
Proof.
  split; [by left|].
  apply (handshake_missing_parameter string parse_example). by left.
Defined.

Lemma change_relayed_regardless_witness :
  sockets Examples.both !! 1%nat
  = Some (mkSocket "proj" (Some (mkListeners "ann" 0%nat))) /\
  emitted (on_change Examples.both 1 (mkChange None (JNum 7))).1
  = emitted Examples.both ++
    [mkEmission "proj" (Some 1%nat) (ChangeEvent (mkChange None (JNum 7)))
                (members Examples.both "proj" ∖ {[1%nat]})].
Proof.
  assert (H : sockets Examples.both !! 1%nat
              = Some (mkSocket "proj" (Some (mkListeners "ann" 0%nat))))
    by (vm_compute; reflexivity).
  split; [exact H|].
  exact (proj1 (change_relayed_regardless string Examples.both 1 "proj" "ann" 0
                  (mkChange None (JNum 7)) H)).
Defined.

(** C2, a column beyond the line: the change (1,10)-(1,20) "X" on the
    buffer ["abc"] is not refused; it is applied at the end of the line. *)
Lemma column_beyond_line_applied :
  content (deref Examples.typed 0) = str "abc" /\
  ~ in_bounds (Js.split_nl (str "abc")) (mkRange 1 10 1 20) /\
  (on_change Examples.typed 1 (mkChange (Some (mkRange 1 10 1 20)) (JStr (str "X")))).2
  = Returned /\
  content (deref (on_change Examples.typed 1
                    (mkChange (Some (mkRange 1 10 1 20)) (JStr (str "X")))).1 0)
  = str "abcX".
Proof.
  split_and!; try (vm_compute; reflexivity).
  unfold in_bounds, position. simpl. lia.
Qed.

Lemma broadcast_recipients_witness :
  mkEmission "proj" (Some 1%nat) (ChangeEvent (mkChange None (JNum 7))) {[2%nat]}
  ∈ emissions_of parse_example Examples.both (Edit 1 (mkChange None (JNum 7))) /\
  ({[2%nat]} : gset nat)
  = members (step parse_example Examples.both (Edit 1 (mkChange None (JNum 7)))).1 "proj"
    ∖ {[1%nat]} /\
  1%nat ∈ members (step parse_example Examples.both (Edit 1 (mkChange None (JNum 7)))).1 "proj".
Proof.
  assert (H : mkEmission "proj" (Some 1%nat) (ChangeEvent (mkChange None (JNum 7))) {[2%nat]}
              ∈ emissions_of parse_example Examples.both (Edit 1 (mkChange None (JNum 7)))).
  { assert (E : emissions_of parse_example Examples.both (Edit 1 (mkChange None (JNum 7)))
                = [mkEmission "proj" (Some 1%nat) (ChangeEvent (mkChange None (JNum 7)))
                              {[2%nat]}])
      by (vm_compute; reflexivity).
    rewrite E. apply list_elem_of_singleton. reflexivity. }
  split; [exact H|].
  exact (broadcast_recipients string parse_example Examples.both _ _ H).
Defined.

Lemma last_leave_discards_room_witness :
  sockets Examples.alone !! 1%nat
  = Some (mkSocket "proj" (Some (mkListeners "ann" 0%nat))) /\
  users (deref Examples.alone 0)
  = [("ann", mkPresence "ann" "{}" (mkCursor 0 0) None 0)] /\
  rooms (on_disconnect Examples.alone 1).1 !! "proj" = None.
Proof.
  assert (H : sockets Examples.alone !! 1%nat
              = Some (mkSocket "proj" (Some (mkListeners "ann" 0%nat))))
    by (vm_compute; reflexivity).
  assert (Hu : users (deref Examples.alone 0)
               = [("ann", mkPresence "ann" "{}" (mkCursor 0 0) None 0)])
    by (vm_compute; reflexivity).
  split; [exact H|]. split; [exact Hu|].
  exact (proj1 (last_leave_discards_room string parse_example Examples.alone 1 "proj" "ann" 0
                  _ H Hu)).
Defined.

Lemma presence_broadcast_complete_witness :
  let l := [mkPresence "ann" "{}" (mkCursor 0 0) None 0;
            mkPresence "bob" "{}" (mkCursor 0 0) None 1] in
  let em := mkEmission "proj" None (PresenceEvent l) {[1%nat; 2%nat]} in
  admissible_trace parse_example init ([Connect 1 Examples.ann 0] ++ [Connect 2 Examples.bob 1]) /\
  em ∈ emissions_of parse_example (run parse_example init [Connect 1 Examples.ann 0])
                    (Connect 2 Examples.bob 1) /\
  NoDup (userId <$> l) /\
  (forall u, u ∈ userId <$> l <->
             u ∈ attached (step parse_example (run parse_example init [Connect 1 Examples.ann 0])
                                (Connect 2 Examples.bob 1)).1 "proj").
Proof.
  intros l em.
  assert (Hadm : admissible_trace parse_example init
                   ([Connect 1 Examples.ann 0] ++ [Connect 2 Examples.bob 1])).
  { simpl. split_and!; try done.
    - intros p u _ _. apply not_elem_of_nil.
    - intros p u [= <-] [= <-].
      assert (E : attached (connection parse_example init 1 Examples.ann 0).1 "proj" = ["ann"])
        by (vm_compute; reflexivity).
      rewrite E. rewrite list_elem_of_singleton. discriminate. }
  assert (Hem : em ∈ emissions_of parse_example
                       (run parse_example init [Connect 1 Examples.ann 0])
                       (Connect 2 Examples.bob 1)).
  { assert (E : emissions_of parse_example
                  (run parse_example init [Connect 1 Examples.ann 0])
                  (Connect 2 Examples.bob 1) = [em])
      by (vm_compute; reflexivity).
    rewrite E. apply list_elem_of_singleton. reflexivity. }
  split; [exact Hadm|]. split; [exact Hem|].
  exact (presence_broadcast_complete string parse_example
           [Connect 1 Examples.ann 0] (Connect 2 Examples.bob 1) em l Hadm Hem eq_refl).
Defined.

(** C5, a participant id on two sockets: Ann is connected twice; when her
    first socket disconnects, the broadcast that goes to her second socket
    is empty and the room is unregistered, while that socket stays attached
    under her id. *)
Lemma presence_misses_second_socket :
  let st' := (step parse_example (run parse_example init Examples.twice) (Disconnect 1)).1 in
  fresh_trace parse_example init (Examples.twice ++ [Disconnect 1]) /\
  emissions_of parse_example (run parse_example init Examples.twice) (Disconnect 1)
  = [mkEmission "proj" None (PresenceEvent []) {[2%nat]}] /\
  sockets st' !! 2%nat = Some (mkSocket "proj" (Some (mkListeners "ann" 0%nat))) /\
  "ann" ∈ attached st' "proj" /\
  rooms st' !! "proj" = None.
Proof.
  intros st'. split_and!; try (vm_compute; reflexivity).
  - simpl. split_and!; try done; vm_compute; reflexivity.
  - assert (E : attached st' "proj" = ["ann"]) by (vm_compute; reflexivity).
    rewrite E. apply list_elem_of_singleton. reflexivity.
Qed.

(** * More about the change applier *)

Section ApplierFacts.
Implicit Types (content t p s : jsstring) (ls : list jsstring) (r : Range).

Lemma index_in_range ls n :
  ~ line_out_of_bounds ls n -> Js.index ls (n - 1) = Some (line ls n).
Proof.
  intros H. apply line_lookup. unfold line_out_of_bounds in H. lia.
Qed.

Lemma index_out_of_range ls n :
  line_out_of_bounds ls n -> Js.index ls (n - 1) = None.
Proof.
  intros [Hn|Hn]; unfold Js.index; case_decide; try done; try lia.
  apply lookup_ge_None. lia.
Qed.

Lemma line_out_of_bounds_dec ls n :
  line_out_of_bounds ls n \/ ~ line_out_of_bounds ls n.
Proof. unfold line_out_of_bounds. lia. Qed.

(** X1.  [applyChange] throws exactly when the change has no range or when
    the start line or the end line of its range is not a line of the
    buffer, and what it throws is a TypeError; in every other case, whatever
    the columns and even with the end line before the start line, it
    returns a string. *)
Theorem applyChange_throws_iff content change :
  (forall e, applyChange content change = Throw e -> e = TypeError) /\
  ((exists e, applyChange content change = Throw e) <->
   match tc_range change with
   | None => True
   | Some r =>
       line_out_of_bounds (Js.split_nl content) (startLineNumber r) \/
       line_out_of_bounds (Js.split_nl content) (endLineNumber r)
   end).
Proof.
  destruct change as [[r|] t]; simpl.
  2: { split; [by intros e [= <-]|]. split; [done|]. intros _. by exists TypeError. }
  destruct (line_out_of_bounds_dec (Js.split_nl content) (startLineNumber r)) as [Hs|Hs];
    destruct (line_out_of_bounds_dec (Js.split_nl content) (endLineNumber r)) as [He|He].
  1-3: rewrite applyChange_missing_line by tauto;
       split; [by intros e [= <-]|]; split; [tauto|]; intros _; by exists TypeError.
  unfold applyChange. simpl.
  rewrite (index_in_range _ _ Hs), (index_in_range _ _ He).
  case_decide; simpl; (split; [done|]); split; try tauto; by intros [e ?].
Qed.

Lemma substring_prefix_clamped ls l c :
  Js.substring (line ls l) 0 (clamp_column ls l c - 1)
  = Js.substring (line ls l) 0 (c - 1).
Proof.
  rewrite !substring_prefix. unfold clamp_column.
  destruct (decide (c <= Z.of_nat (length (line ls l)) + 1)).
  - rewrite Z.min_l by lia. destruct (decide (1 <= c)).
    + by rewrite Z.max_r by lia.
    + rewrite Z.max_l by lia. replace (Z.to_nat (c - 1)) with 0%nat by lia. done.
  - rewrite Z.min_r by lia. rewrite Z.max_r by lia.
    by rewrite !take_ge by lia.
Qed.

Lemma substring_suffix_clamped ls l c :
  Js.substring_from (line ls l) (clamp_column ls l c - 1)
  = Js.substring_from (line ls l) (c - 1).
Proof.
  rewrite !substring_suffix. unfold clamp_column.
  destruct (decide (c <= Z.of_nat (length (line ls l)) + 1)).
  - rewrite Z.min_l by lia. destruct (decide (1 <= c)).
    + by rewrite Z.max_r by lia.
    + rewrite Z.max_l by lia. replace (Z.to_nat (c - 1)) with 0%nat by lia. done.
  - rewrite Z.min_r by lia. rewrite Z.max_r by lia.
    by rewrite !drop_ge by lia.
Qed.

(** X2.  Columns are clamped, never refused: a change acts as the change
    whose start and end columns are brought into their lines (a column
    below 1 as column 1, a column beyond the line as the position after its
    last character). *)
Theorem applyChange_clamps_columns content r t :
  applyChange content (mkTextChange (Some r) t)
  = applyChange content (mkTextChange (Some (clamp_range (Js.split_nl content) r)) t).
Proof.
  destruct r as [sl sc el ec]. unfold clamp_range. simpl.
  destruct (line_out_of_bounds_dec (Js.split_nl content) sl) as [Hs|Hs];
    [by rewrite !applyChange_missing_line by (left; done)|].
  destruct (line_out_of_bounds_dec (Js.split_nl content) el) as [He|He];
    [by rewrite !applyChange_missing_line by (right; done)|].
  unfold applyChange. simpl.
  rewrite (index_in_range _ _ Hs), (index_in_range _ _ He).
  case_decide as Heq; simpl.
  - subst el. by rewrite substring_prefix_clamped, substring_suffix_clamped.
  - by rewrite substring_prefix_clamped, substring_suffix_clamped.
Qed.

(** X3.  The number of lines after a change within bounds: the lines of
    the range are replaced by the lines of the text. *)
Theorem applyChange_line_count content r t content' :
  in_bounds (Js.split_nl content) r ->
  applyChange content (mkTextChange (Some r) t) = Normal content' ->
  Z.of_nat (length (Js.split_nl content'))
  = Z.of_nat (length (Js.split_nl content))
    - (endLineNumber r - startLineNumber r + 1)
    + Z.of_nat (length (Js.split_nl t)).
Proof.
  intros (Hs & He & Hord) Happly.
  rewrite applyChange_lines in Happly by (unfold position in *; lia).
  injection Happly as <-. rewrite split_applyChange_lines.
  unfold range_replace. rewrite !length_app, length_take, length_drop.
  pose proof (split_nl_lines_free content) as Hfree.
  rewrite split_weld by (apply take_free || apply drop_free; by apply line_free).
  rewrite weld_length. unfold position in *.
  destruct Hs as [Hs _], He as [He _].
  rewrite Nat.min_l by lia. lia.
Qed.

Lemma join_nl_cut ls1 p s ls2 :
  Js.join_nl (ls1 ++ (p ++ s) :: ls2) = Js.join_nl (ls1 ++ [p]) ++ Js.join_nl (s :: ls2).
Proof.
  induction ls1 as [|l ls1 IH].
  - simpl. destruct ls2; [done|]. by rewrite <- app_assoc.
  - change ((l :: ls1) ++ ?k) with (l :: (ls1 ++ k)).
    rewrite !join_nl_cons by (by destruct ls1). rewrite IH.
    by rewrite <- app_assoc.
Qed.

Lemma join_nl_snoc_length ls p :
  length (Js.join_nl (ls ++ [p]))
  = (sum_list (length <$> ls) + length ls + length p)%nat.
Proof.
  induction ls as [|l ls IH]; [done|].
  change ((l :: ls) ++ [p]) with (l :: (ls ++ [p])).
  rewrite join_nl_cons by (by destruct ls).
  rewrite length_app, length_cons, IH, fmap_cons. simpl. lia.
Qed.

(** The flat text before and after a position. *)
Lemma join_nl_at_position ls l c :
  position ls l c ->
  take (offset ls l c) (Js.join_nl ls)
  = Js.join_nl (take (Z.to_nat (l - 1)) ls ++ [take (Z.to_nat (c - 1)) (line ls l)]) /\
  drop (offset ls l c) (Js.join_nl ls)
  = Js.join_nl (drop (Z.to_nat (c - 1)) (line ls l) :: drop (Z.to_nat l) ls).
Proof.
  intros [Hl Hc].
  destruct (line_lookup ls l Hl) as [_ Hlook].
  set (A := take (Z.to_nat (l - 1)) ls).
  set (p := take (Z.to_nat (c - 1)) (line ls l)).
  set (s := drop (Z.to_nat (c - 1)) (line ls l)).
  assert (Hls : Js.join_nl ls = Js.join_nl (A ++ [p]) ++ Js.join_nl (s :: drop (Z.to_nat l) ls)).
  { rewrite <- join_nl_cut. unfold p, s. rewrite take_drop.
    unfold A. replace (Z.to_nat l) with (S (Z.to_nat (l - 1))) by lia.
    by rewrite take_drop_middle. }
  assert (Hoff : offset ls l c = length (Js.join_nl (A ++ [p]))).
  { rewrite join_nl_snoc_length. unfold offset, A, p.
    rewrite !length_take. lia. }
  rewrite Hls, Hoff. split.
  - by rewrite take_app_length.
  - by rewrite drop_app_length.
Qed.

(** The flat form of [applyChange] within bounds, for the proofs below. *)
Lemma applyChange_flat content r t :
  in_bounds (Js.split_nl content) r ->
  applyChange content (mkTextChange (Some r) t)
  = Normal (take (offset (Js.split_nl content) (startLineNumber r) (startColumn r)) content
            ++ t
            ++ drop (offset (Js.split_nl content) (endLineNumber r) (endColumn r)) content).
Proof.
  intros (Hs & He & Hord).
  rewrite applyChange_lines by (unfold position in *; lia). f_equal.
  destruct (join_nl_at_position _ _ _ Hs) as [Htake _].
  destruct (join_nl_at_position _ _ _ He) as [_ Hdrop].
  rewrite join_split in Htake, Hdrop. rewrite Htake, Hdrop.
  unfold range_replace.
  rewrite join_nl_flatten by apply split_nl_not_nil. rewrite join_split.
  change ([?x] ++ ?k) with (x :: k).
  rewrite join_nl_cut. f_equal.
  destruct (drop (Z.to_nat (endLineNumber r)) (Js.split_nl content)); simpl;
    by rewrite <- ?app_assoc.
Qed.

(** X4.  On the flat text a change within bounds is the splice at the
    offsets of its start and end positions: the text before the start, the
    replacement, the text from the end on. *)
Theorem applyChange_flat_splice content r t :
  in_bounds (Js.split_nl content) r ->
  applyChange content (mkTextChange (Some r) t)
  = Normal (take (offset (Js.split_nl content) (startLineNumber r) (startColumn r)) content
            ++ t
            ++ drop (offset (Js.split_nl content) (endLineNumber r) (endColumn r)) content).
Proof. apply applyChange_flat. Qed.

Lemma sum_take_lt (ls : list jsstring) (n m : nat) l :
  (n < m)%nat -> ls !! n = Some l ->
  (sum_list (length <$> take n ls) + length l <= sum_list (length <$> take m ls))%nat.
Proof.
  revert n m. induction ls as [|a ls IH]; intros n m Hnm Hl; [done|].
  destruct m as [|m]; [lia|]. destruct n as [|n]; csimpl in *.
  - injection Hl as ->. lia.
  - specialize (IH n m ltac:(lia) Hl). lia.
Qed.

Lemma offset_le ls r :
  in_bounds ls r ->
  (offset ls (startLineNumber r) (startColumn r)
   <= offset ls (endLineNumber r) (endColumn r))%nat.
Proof.
  intros ([Hsl Hsc] & [Hel Hec] & [Hlt|[Heq Hcol]]); unfold offset.
  - destruct (line_lookup ls _ Hsl) as [_ Hlook].
    pose proof (sum_take_lt ls (Z.to_nat (startLineNumber r - 1))
                  (Z.to_nat (endLineNumber r - 1)) _ ltac:(lia) Hlook). lia.
  - rewrite Heq. lia.
Qed.

Lemma offset_le_length ls l c :
  position ls l c -> (offset ls l c <= length (Js.join_nl ls))%nat.
Proof.
  intros Hpos. destruct (join_nl_at_position ls l c Hpos) as [Htake _].
  apply (f_equal length) in Htake. rewrite length_take, join_nl_snoc_length in Htake.
  unfold offset. destruct Hpos as [Hl Hc]. rewrite !length_take in Htake. lia.
Qed.

Lemma splice_same (content : jsstring) (o1 o2 : nat) :
  (o1 <= o2)%nat ->
  take o1 content ++ take (o2 - o1) (drop o1 content) ++ drop o2 content = content.
Proof.
  intros H. rewrite app_assoc, take_take_drop.
  replace (o1 + (o2 - o1))%nat with o2 by lia. apply take_drop.
Qed.

(** X5.  Replacing a range within bounds by the text it spans changes
    nothing; in particular the empty change at a position is a no-op. *)
Theorem applyChange_same_text content r :
  in_bounds (Js.split_nl content) r ->
  applyChange content (mkTextChange (Some r) (spanned_text content r)) = Normal content.
Proof.
  intros Hin. rewrite applyChange_flat by done. f_equal.
  unfold spanned_text. apply splice_same. by apply offset_le.
Qed.

Lemma weld_no_suffix p ts : weld p [] ts = alter (fun l => p ++ l) 0%nat ts.
Proof. unfold weld. apply list_alter_id. intros x. apply app_nil_r. Qed.

Lemma weld_suffix p s ts :
  weld p s ts = alter (fun l => l ++ s) (length ts - 1)%nat (weld p [] ts).
Proof. rewrite weld_no_suffix. unfold weld. by rewrite length_alter. Qed.

(** The lines of a text put in behind [p] on line [l], before [s]: the
    span from [(l, c)] to the end of the insertion lies within the new
    buffer, and its offsets are those of the text in the flat buffer. *)
Lemma inserted_span ls1 p s t ls2 l c :
  1 <= l -> 1 <= c ->
  length ls1 = Z.to_nat (l - 1) ->
  length p = Z.to_nat (c - 1) ->
  let ls := ls1 ++ weld p s (Js.split_nl t) ++ ls2 in
  let e := end_of_insertion l c t in
  in_bounds ls (mkRange l c e.1 e.2) /\
  offset ls l c = length (Js.join_nl (ls1 ++ [p])) /\
  offset ls e.1 e.2 = (length (Js.join_nl (ls1 ++ [p])) + length t)%nat.
Proof.
  intros Hl Hc Hls1 Hp ls e.
  set (ts := Js.split_nl t) in *.
  set (W0 := weld p [] ts).
  set (n := length ts).
  assert (Hn : (1 <= n)%nat) by apply split_nl_length.
  assert (HW0len : length W0 = n) by apply weld_length.
  assert (HW : weld p s ts = alter (fun x => x ++ s) (n - 1)%nat W0) by apply weld_suffix.
  assert (HjoinW0 : Js.join_nl W0 = p ++ t).
  { unfold W0. rewrite join_weld by apply split_nl_not_nil.
    unfold ts. by rewrite join_split, app_nil_r. }
  destruct (lookup_lt_is_Some_2 W0 (n - 1)) as [x Hx]; [lia|].
  assert (HW0 : W0 = take (n - 1) W0 ++ [x]).
  { rewrite <- (take_drop_middle W0 (n - 1) x Hx) at 1.
    rewrite (drop_ge W0 (S (n - 1))) by lia. done. }
  assert (Hxlen : (sum_list (length <$> take (n - 1) W0) + (n - 1) + length x
                   = length p + length t)%nat).
  { apply (f_equal Js.join_nl) in HW0. rewrite HjoinW0 in HW0.
    apply (f_equal length) in HW0. rewrite join_nl_snoc_length, length_app in HW0.
    rewrite length_take in HW0. lia. }
  assert (He1 : Z.to_nat (e.1 - 1) = (length ls1 + (n - 1))%nat).
  { unfold e, end_of_insertion. fold ts n. case_decide; simpl; lia. }
  assert (He2 : Z.to_nat (e.2 - 1) = length x /\ 1 <= e.2).
  { unfold e, end_of_insertion. fold ts n. case_decide as Hone; simpl.
    - assert (take (n - 1) W0 = []) as Hnil by (rewrite Hone; done).
      rewrite Hnil, Hone in Hxlen. simpl in Hxlen. lia.
    - assert (Hlast : last ts = Some x).
      { rewrite last_lookup. fold n. replace (pred n) with (n - 1)%nat by lia.
        rewrite <- Hx. unfold W0. rewrite weld_no_suffix.
        by rewrite list_lookup_alter_ne by lia. }
      rewrite Hlast. simpl. lia. }
  assert (Hline1 : exists y, line ls l = p ++ y).
  { unfold ls. rewrite (line_app_middle _ _ _ _ 0%nat) by (rewrite ?weld_length; lia).
    destruct (weld_lookup_first p s ts) as [y Hy]; [apply split_nl_not_nil|].
    rewrite Hy. eauto. }
  assert (Hline2 : line ls e.1 = x ++ s).
  { unfold ls. rewrite (line_app_middle _ _ _ _ (n - 1)%nat) by (rewrite ?weld_length; lia).
    by rewrite HW, list_lookup_alter_eq, Hx. }
  assert (Hlen : length ls = (length ls1 + n + length ls2)%nat).
  { unfold ls. rewrite !length_app, weld_length. lia. }
  assert (Htake1 : take (Z.to_nat (l - 1)) ls = ls1).
  { unfold ls. by rewrite take_app_length'. }
  assert (Htake2 : take (Z.to_nat (e.1 - 1)) ls = ls1 ++ take (n - 1) W0).
  { unfold ls. rewrite He1, take_app_add, HW. f_equal.
    rewrite take_app_le by (rewrite length_alter; lia).
    by rewrite take_alter_ge by lia. }
  destruct Hline1 as [y Hy]. destruct He2 as [He2 He2'].
  split; [|split].
  - unfold in_bounds, position. simpl. rewrite Hy, Hline2, !length_app.
    assert (He1' : l <= e.1).
    { unfold e, end_of_insertion. fold ts n. case_decide; simpl; lia. }
    split_and!; try lia.
    destruct (decide (n = 1%nat)) as [Hone|Hmany]; [|left; lia].
    right. rewrite Hone in Hxlen, He1. simpl in Hxlen. lia.
  - unfold offset. rewrite Htake1, join_nl_snoc_length. lia.
  - unfold offset. rewrite Htake2, join_nl_snoc_length, fmap_app, sum_list_with_app. lia.
Qed.

(** X6.  A change within bounds can be undone: applied to its result, the
    change that spans the text put in and carries the text that was
    replaced gives the original buffer back. *)
Theorem applyChange_undo content r t content' :
  in_bounds (Js.split_nl content) r ->
  applyChange content (mkTextChange (Some r) t) = Normal content' ->
  applyChange content' (inverse_change content r t) = Normal content.
Proof.
  intros Hin Happly. pose proof Hin as ([Hsl Hsc] & [Hel Hec] & Hord).
  set (ls := Js.split_nl content) in *.
  set (o1 := offset ls (startLineNumber r) (startColumn r)).
  set (o2 := offset ls (endLineNumber r) (endColumn r)).
  assert (Hflat : content' = take o1 content ++ t ++ drop o2 content).
  { rewrite applyChange_flat in Happly by done. by injection Happly as <-. }
  assert (Hlines : Js.split_nl content'
                   = take (Z.to_nat (startLineNumber r - 1)) ls
                     ++ weld (take (Z.to_nat (startColumn r - 1)) (line ls (startLineNumber r)))
                             (drop (Z.to_nat (endColumn r - 1)) (line ls (endLineNumber r)))
                             (Js.split_nl t)
                     ++ drop (Z.to_nat (endLineNumber r)) ls).
  { rewrite applyChange_lines in Happly by (fold ls; lia). injection Happly as <-.
    fold ls. rewrite (split_applyChange_lines content). fold ls.
    unfold range_replace.
    assert (Hfree : Forall (fun x => nl ∉ x) ls) by apply split_nl_lines_free.
    rewrite split_weld by (apply take_free || apply drop_free; by apply line_free).
    done. }
  assert (Ho1 : o1 = length (Js.join_nl
                  (take (Z.to_nat (startLineNumber r - 1)) ls
                   ++ [take (Z.to_nat (startColumn r - 1)) (line ls (startLineNumber r))]))).
  { rewrite join_nl_snoc_length. unfold o1, offset. rewrite !length_take. lia. }
  assert (Ho1len : (o1 <= length content)%nat).
  { rewrite <- (join_split content). by apply offset_le_length. }
  destruct (inserted_span
              (take (Z.to_nat (startLineNumber r - 1)) ls)
              (take (Z.to_nat (startColumn r - 1)) (line ls (startLineNumber r)))
              (drop (Z.to_nat (endColumn r - 1)) (line ls (endLineNumber r)))
              t (drop (Z.to_nat (endLineNumber r)) ls)
              (startLineNumber r) (startColumn r))
    as (Hin' & Hoff1 & Hoff2); try lia.
  { rewrite length_take. lia. }
  { rewrite length_take. lia. }
  rewrite <- Hlines in Hin', Hoff1, Hoff2. rewrite <- Ho1 in Hoff1, Hoff2.
  unfold inverse_change. rewrite applyChange_flat by exact Hin'. simpl.
  rewrite Hoff1, Hoff2. f_equal. rewrite Hflat.
  rewrite take_app_length' by (rewrite length_take; lia).
  rewrite (app_assoc (take o1 content) t (drop o2 content)).
  rewrite drop_app_length' by (rewrite length_app, length_take; lia).
  unfold spanned_text. fold ls o1 o2. apply splice_same.
  by apply offset_le.
Qed.

(** X7.  Insertions compose: inserting [t1] at a position and then [t2]
    at the end of what was inserted gives the same buffer as inserting
    [t1 ++ t2] at that position at once. *)
Theorem applyChange_insertions_compose content l c t1 t2 content1 :
  position (Js.split_nl content) l c ->
  applyChange content (insertion l c t1) = Normal content1 ->
  applyChange content1
              (insertion (end_of_insertion l c t1).1 (end_of_insertion l c t1).2 t2)
  = applyChange content (insertion l c (t1 ++ t2)).
Proof.
  intros Hpos Happly. pose proof Hpos as [Hl Hc].
  assert (Hin : in_bounds (Js.split_nl content) (mkRange l c l c)).
  { split; [done|]. split; [done|]. right. simpl. lia. }
  set (ls := Js.split_nl content) in *.
  set (o := offset ls l c).
  assert (Hflat : content1 = take o content ++ t1 ++ drop o content).
  { unfold insertion in Happly. rewrite applyChange_flat in Happly by done.
    by injection Happly as <-. }
  assert (Hlines : Js.split_nl content1
                   = take (Z.to_nat (l - 1)) ls
                     ++ weld (take (Z.to_nat (c - 1)) (line ls l))
                             (drop (Z.to_nat (c - 1)) (line ls l)) (Js.split_nl t1)
                     ++ drop (Z.to_nat l) ls).
  { unfold insertion in Happly.
    rewrite applyChange_lines in Happly by (simpl; fold ls; lia). injection Happly as <-.
    fold ls. rewrite (split_applyChange_lines content). fold ls.
    unfold range_replace. simpl.
    assert (Hfree : Forall (fun x => nl ∉ x) ls) by apply split_nl_lines_free.
    rewrite split_weld by (apply take_free || apply drop_free; by apply line_free).
    done. }
  assert (Ho : o = length (Js.join_nl
                  (take (Z.to_nat (l - 1)) ls ++ [take (Z.to_nat (c - 1)) (line ls l)]))).
  { rewrite join_nl_snoc_length. unfold o, offset. rewrite !length_take. lia. }
  assert (Holen : (o <= length content)%nat).
  { rewrite <- (join_split content). by apply offset_le_length. }
  destruct (inserted_span
              (take (Z.to_nat (l - 1)) ls) (take (Z.to_nat (c - 1)) (line ls l))
              (drop (Z.to_nat (c - 1)) (line ls l)) t1 (drop (Z.to_nat l) ls) l c)
    as ((_ & Hpos' & _) & _ & Hoff2); try lia.
  { rewrite length_take. lia. }
  { rewrite length_take. lia. }
  rewrite <- Hlines in Hpos', Hoff2. rewrite <- Ho in Hoff2. simpl in Hpos'.
  unfold insertion.
  rewrite (applyChange_flat content1).
  2: { split; [done|]. split; [done|]. right. simpl. lia. }
  rewrite (applyChange_flat content) by done. simpl. fold ls o.
  rewrite Hoff2. f_equal. rewrite Hflat.
  rewrite (app_assoc (take o content) t1 (drop o content)).
  rewrite take_app_length' by (rewrite length_app, length_take; lia).
  rewrite drop_app_length' by (rewrite length_app, length_take; lia).
  by rewrite <- !app_assoc.
Qed.

End ApplierFacts.

(** * More about the presence map *)

Section JsMapMore.
Context {V : Type}.
Implicit Types (m : list (string * V)) (k : string) (v : V).

Lemma set_absent k v m : JsMap.get k m = None -> JsMap.set k v m = m ++ [(k, v)].
Proof.
  induction m as [|[k0 v0] m IH]; simpl; [done|].
  case_decide; [done|]. intros Hnone. by rewrite IH.
Qed.

Lemma keys_set_present k v m :
  is_Some (JsMap.get k m) -> JsMap.keys (JsMap.set k v m) = JsMap.keys m.
Proof.
  unfold JsMap.keys. induction m as [|[k0 v0] m IH]; simpl.
  - by intros [? ?].
  - case_decide as Hk; [by subst|]. intros Hsome. rewrite fmap_cons. simpl.
    f_equal. by apply IH.
Qed.

End JsMapMore.

(** * More about the connection handler and its listeners *)

Section ServerMore.
Variable Profile : Type.
Variable JSON_parse : string -> option Profile.
Implicit Types (st : Server Profile) (sid : nat) (p u : string) (r : nat).

(** Room objects are never freed: the reference of every registered room
    and the reference the listeners of every socket hold point into the
    heap. *)
Lemma allocated_step st ev :
  (forall p r, rooms st !! p = Some r -> (r < length (heap st))%nat) ->
  (forall sid p u r,
     sockets st !! sid = Some (mkSocket p (Some (mkListeners u r))) ->
     (r < length (heap st))%nat) ->
  (forall p r, rooms (step JSON_parse st ev).1 !! p = Some r ->
               (r < length (heap (step JSON_parse st ev).1))%nat) /\
  (forall sid p u r,
     sockets (step JSON_parse st ev).1 !! sid = Some (mkSocket p (Some (mkListeners u r))) ->
     (r < length (heap (step JSON_parse st ev).1))%nat).
Proof.
  intros Hr Hs. destruct ev as [sid q now|sid position sel now|sid change|sid]; simpl.
  - unfold connection.
    destruct (truthy (projectId q)) as [p|]; [|done].
    destruct (truthy (q_userId q)) as [u|]; [|done].
    destruct (truthy (q_profile q)) as [pr|]; [|done].
    destruct (rooms st !! p) as [r0|] eqn:Hp;
      destruct (JSON_parse pr) as [parsed|]; simpl.
    + rewrite length_alter. split; [done|].
      intros sid' p' u' r'. intros [[_ [= _ _ <-]]|[_ H]]%lookup_insert_Some; [eauto|].
      apply lookup_insert_Some in H as [[_ [=]]|[_ H']]. eauto.
    + split; [done|].
      intros sid' p' u' r' [[_ [=]]|[_ H]]%lookup_insert_Some. eauto.
    + rewrite length_alter, length_app. simpl. split.
      * intros p' r' [[_ <-]|[_ H]]%lookup_insert_Some; [lia|].
        apply Hr in H. lia.
      * intros sid' p' u' r'. intros [[_ [= _ _ <-]]|[_ H]]%lookup_insert_Some; [lia|].
        apply lookup_insert_Some in H as [[_ [=]]|[_ H']]. apply Hs in H'. lia.
    + rewrite length_app. simpl. split.
      * intros p' r' [[_ <-]|[_ H]]%lookup_insert_Some; [lia|].
        apply Hr in H. lia.
      * intros sid' p' u' r' [[_ [=]]|[_ H]]%lookup_insert_Some. apply Hs in H. lia.
  - unfold on_cursor.
    destruct (sockets st !! sid) as [[p [[u r]|]]|]; try done.
    destruct (JsMap.get u _); [|done]. simpl. by rewrite length_alter.
  - unfold on_change.
    destruct (sockets st !! sid) as [[p [[u r]|]]|]; try done.
    destruct (text change); try done.
    destruct (applyChange _ _); [|done]. simpl. by rewrite length_alter.
  - unfold on_disconnect.
    destruct (sockets st !! sid) as [[p [[u r]|]]|]; simpl; [| |done].
    + assert (Hs' : forall sid' p' u' r',
                base.delete sid (sockets st) !! sid' = Some (mkSocket p' (Some (mkListeners u' r'))) ->
                (r' < length (heap st))%nat).
      { intros sid' p' u' r' [_ H]%lookup_delete_Some. eauto. }
      case_decide as Hsize; simpl; rewrite length_alter; (split; [|done]).
      * intros p' r' [_ Hp']%lookup_delete_Some. eauto.
      * done.
    + split; [done|]. intros sid' p' u' r' [_ H]%lookup_delete_Some. eauto.
Qed.

Lemma allocated_run evs :
  (forall p r, rooms (run JSON_parse init evs) !! p = Some r ->
               (r < length (heap (run JSON_parse init evs)))%nat) /\
  (forall sid p u r,
     sockets (run JSON_parse init evs) !! sid = Some (mkSocket p (Some (mkListeners u r))) ->
     (r < length (heap (run JSON_parse init evs)))%nat).
Proof.
  induction evs as [|ev evs IH] using rev_ind.
  - split; intros *; simpl; by rewrite lookup_empty.
  - unfold run. rewrite foldl_app. simpl. destruct IH as [Hr Hs].
    by apply allocated_step.
Qed.

Lemma range_replace_clamped (ls : list (list ascii)) (rg : Range) (t : list ascii) :
  range_replace ls (clamp_range ls rg) t = range_replace ls rg t.
Proof.
  unfold range_replace, clamp_range. simpl.
  rewrite <- !substring_prefix, <- !substring_suffix.
  by rewrite substring_prefix_clamped, substring_suffix_clamped.
Qed.

(** C2 (as amended).  A change with a string text whose start line and end
    line are lines of the room's buffer is never refused, whatever its
    columns: the handler returns, the socket stays connected, and the
    buffer of the room becomes what [applyChange] returns for it, nothing
    else of the room, the registry or the sockets being touched.  With the
    start line not after the end line the new buffer is the range replace
    of the range with its columns brought into their lines: a column
    beyond its line counts as the end of the line, a column below 1 as its
    start. *)
Theorem change_within_lines_applied evs sid p u r change rg t :
  sockets (run JSON_parse init evs) !! sid = Some (mkSocket p (Some (mkListeners u r))) ->
  range change = Some rg ->
  text change = JStr t ->
  ~ line_out_of_bounds (Js.split_nl (content (deref (run JSON_parse init evs) r)))
                       (startLineNumber rg) ->
  ~ line_out_of_bounds (Js.split_nl (content (deref (run JSON_parse init evs) r)))
                       (endLineNumber rg) ->
  let st := run JSON_parse init evs in
  let st' := (on_change st sid change).1 in
  (on_change st sid change).2 = Returned /\
  applyChange (content (deref st r)) (mkTextChange (Some rg) t)
  = Normal (content (deref st' r)) /\
  (startLineNumber rg <= endLineNumber rg ->
   Js.split_nl (content (deref st' r))
   = range_replace (Js.split_nl (content (deref st r)))
                   (clamp_range (Js.split_nl (content (deref st r))) rg) t) /\
  users (deref st' r) = users (deref st r) /\
  (forall r', r' ≠ r -> heap st' !! r' = heap st !! r') /\
  rooms st' = rooms st /\
  sockets st' = sockets st.
Proof.
  intros Hs Hrg Ht Hsl Hel. simpl.
  destruct (allocated_run evs) as [_ Halloc].
  pose proof (Halloc _ _ _ _ Hs) as Hlt. clear Halloc.
  revert Hs Hsl Hel Hlt. generalize (run JSON_parse init evs). intros st Hs Hsl Hel Hlt.
  apply lookup_lt_is_Some in Hlt as [room Hroom].
  assert (Happ : exists s, applyChange (content (deref st r)) (mkTextChange (Some rg) t)
                           = Normal s).
  { unfold applyChange. simpl.
    rewrite (index_in_range _ _ Hsl), (index_in_range _ _ Hel).
    case_decide; simpl; eauto. }
  destruct Happ as [s Happ].
  assert (Hstep : on_change st sid change
                  = (set_content s r (emit p (Some sid) (ChangeEvent change) st), Returned)).
  { unfold on_change. rewrite Hs, Ht, Hrg.
    change (content (deref (emit p (Some sid) (ChangeEvent change) st) r))
      with (content (deref st r)).
    by rewrite Happ. }
  rewrite Hstep. simpl.
  assert (Hcontent : content (deref (set_content s r (emit p (Some sid) (ChangeEvent change) st)) r)
                     = s).
  { unfold deref. simpl. by rewrite list_lookup_alter_eq, Hroom. }
  rewrite Hcontent. split_and!; try done.
  - intros Hord. rewrite range_replace_clamped.
    rewrite applyChange_lines in Happ.
    + injection Happ as <-. apply split_applyChange_lines.
    + unfold line_out_of_bounds in Hsl. lia.
    + unfold line_out_of_bounds in Hel. lia.
  - unfold deref. simpl. by rewrite list_lookup_alter_eq, Hroom.
  - intros r' Hr'. by rewrite list_lookup_alter_ne.
Qed.


(** X8.  The handshake is refused exactly when the room id, the
    participant id or the profile is absent or empty, an empty string
    counting as missing; the server state is then left as it was.  With
    the three of them present and not empty the handler never ends in a
    disconnect. *)
Theorem handshake_refused_iff st sid q now :
  connection JSON_parse st sid q now = (st, Disconnected) <->
  (projectId q = None \/ projectId q = Some "") \/
  (q_userId q = None \/ q_userId q = Some "") \/
  (q_profile q = None \/ q_profile q = Some "").
Proof.
  unfold connection. destruct q as [a b c]. simpl.
  destruct a as [a|], b as [b|], c as [c|]; simpl;
    try (split; [intros _|by repeat destruct (decide _)]; naive_solver).
  destruct (decide (a = "")) as [->|Ha]; [split; [intros _|done]; naive_solver|].
  destruct (decide (b = "")) as [->|Hb]; [split; [intros _|done]; naive_solver|].
  destruct (decide (c = "")) as [->|Hc]; [split; [intros _|done]; naive_solver|].
  split.
  - destruct (rooms st !! a); destruct (JSON_parse c); discriminate.
  - intros [[H|H]|[[H|H]|[H|H]]]; congruence.
Qed.

(** X9.  A join whose profile is not JSON ends in the SyntaxError of
    [JSON.parse], which nothing catches.  When it is thrown the room is
    registered already (and constructed, if the id was unknown) and the
    socket is in its Socket.IO room, but no presence record has been
    written, nothing has been broadcast and no listener is installed; the
    room objects that existed are as they were. *)
Theorem malformed_profile_throws_mid_join st sid q now p u pr :
  truthy (projectId q) = Some p ->
  truthy (q_userId q) = Some u ->
  truthy (q_profile q) = Some pr ->
  JSON_parse pr = None ->
  let st' := (connection JSON_parse st sid q now).1 in
  (connection JSON_parse st sid q now).2 = Uncaught SyntaxError /\
  is_Some (rooms st' !! p) /\
  sockets st' !! sid = Some (mkSocket p None) /\
  sid ∈ members st' p /\
  emitted st' = emitted st /\
  (forall r', (r' < length (heap st))%nat -> heap st' !! r' = heap st !! r') /\
  (forall r', (length (heap st) <= r')%nat -> users (deref st' r') = []).
Proof.
  intros Hp Hu Hpr Hparse. unfold connection.
  rewrite Hp, Hu, Hpr.
  destruct (rooms st !! p) as [r|] eqn:Hr; simpl; rewrite Hparse; simpl.
  - split; [done|]. split; [by rewrite Hr|].
    split; [simpl; by rewrite lookup_insert_eq|].
    split; [apply (proj2 (elem_of_members Profile JSON_parse _ _ _)); exists (mkSocket p None);
            split; [simpl; by rewrite lookup_insert_eq|done]|].
    split; [done|]. split; [done|].
    intros r' Hr'. unfold deref. simpl. by rewrite lookup_ge_None_2.
  - split; [done|]. split; [simpl; by rewrite lookup_insert_eq|].
    split; [simpl; by rewrite lookup_insert_eq|].
    split; [apply (proj2 (elem_of_members Profile JSON_parse _ _ _)); exists (mkSocket p None);
            split; [simpl; by rewrite lookup_insert_eq|done]|].
    split; [done|].
    split; [intros r' Hr'; by rewrite lookup_app_l|].
    intros r' Hr'. unfold deref. simpl.
    destruct (decide (r' = length (heap st))) as [->|Hne].
    + rewrite lookup_app_r by lia. by rewrite Nat.sub_diag.
    + rewrite lookup_ge_None_2; [done|]. rewrite length_app. simpl. lia.
Qed.

(** X10.  A cursor update touches the sender's own record only: it gets
    the new cursor, selection and time and keeps its participant id and
    profile; the records of the others, their order in the snapshot, the
    buffer, the registry and the sockets stay as they were. *)
Theorem cursor_updates_own_record st sid p u r user position sel now :
  sockets st !! sid = Some (mkSocket p (Some (mkListeners u r))) ->
  JsMap.get u (users (deref st r)) = Some user ->
  let st' := (on_cursor st sid position sel now).1 in
  JsMap.get u (users (deref st' r))
  = Some (mkPresence (userId user) (profile user) position sel now) /\
  (forall k, k ≠ u -> JsMap.get k (users (deref st' r)) = JsMap.get k (users (deref st r))) /\
  JsMap.keys (users (deref st' r)) = JsMap.keys (users (deref st r)) /\
  content (deref st' r) = content (deref st r) /\
  (forall r', r' ≠ r -> heap st' !! r' = heap st !! r') /\
  rooms st' = rooms st /\
  sockets st' = sockets st.
Proof.
  intros Hs Huser. unfold on_cursor. rewrite Hs, Huser. simpl.
  assert (Hlt : (r < length (heap st))%nat).
  { apply lookup_lt_is_Some. unfold deref in Huser.
    destruct (heap st !! r); [eauto|done]. }
  change (deref (emit ?a ?b ?c ?s) r) with (deref s r).
  rewrite deref_set_users_eq by done. simpl.
  split_and!; try done.
  - rewrite get_set. by rewrite decide_True.
  - intros k Hk. rewrite get_set. by rewrite decide_False.
  - apply keys_set_present. eauto.
  - intros r' Hr'. by rewrite list_lookup_alter_ne.
Qed.

(** X11.  Presence is in join order: a participant new to a registered
    room is appended to the room's presence map, so the snapshot broadcast
    on the join is the previous snapshot followed by the new record. *)
Theorem join_appends_presence st sid q now p u pr parsed r :
  truthy (projectId q) = Some p ->
  truthy (q_userId q) = Some u ->
  truthy (q_profile q) = Some pr ->
  JSON_parse pr = Some parsed ->
  rooms st !! p = Some r ->
  (r < length (heap st))%nat ->
  JsMap.get u (users (deref st r)) = None ->
  let st' := (connection JSON_parse st sid q now).1 in
  presence st' r
  = PresenceEvent (JsMap.values (users (deref st r))
                   ++ [mkPresence u parsed (mkCursor 0 0) None now]) /\
  exists to, emissions_of JSON_parse st (Connect sid q now)
             = [mkEmission p None (presence st' r) to].
Proof.
  intros Hp Hu Hpr Hparse Hr Hlt Hnew.
  unfold emissions_of. simpl. unfold connection.
  rewrite Hp, Hu, Hpr, Hr. simpl. rewrite Hparse. simpl.
  split.
  - unfold presence.
    change (deref (set_sockets ?m (emit ?a ?b ?c ?s)) r) with (deref s r).
    change (set_users ?f r (set_sockets ?m st)) with (set_sockets m (set_users f r st)).
    change (deref (set_sockets ?m ?s) r) with (deref s r).
    rewrite deref_set_users_eq by done. simpl.
    rewrite set_absent by done. unfold JsMap.values. by rewrite fmap_app.
  - eexists. by rewrite drop_app_length.
Qed.

(** X12.  Only a string edit from a socket attached to the room changes
    the room's buffer: in a consistent server no join, cursor update or
    leave, no edit without a string text and no event of another room does. *)
Theorem buffer_changed_only_by_own_edit st ev p r :
  consistent st ->
  rooms st !! p = Some r ->
  content (deref (step JSON_parse st ev).1 r) ≠ content (deref st r) ->
  exists sid change t u,
    ev = Edit sid change /\ text change = JStr t /\
    sockets st !! sid = Some (mkSocket p (Some (mkListeners u r))).
Proof.
  intros Hc Hr Hdiff.
  pose proof (registered_allocated Hc _ _ Hr) as Hlt.
  assert (Husers : forall f r0 (st0 : Server Profile),
            heap st0 = heap st ->
            content (deref (set_users f r0 st0) r) = content (deref st r)).
  { intros f r0 st0 Hheap. unfold deref. simpl. rewrite Hheap.
    destruct (decide (r = r0)) as [<-|Hne].
    - rewrite list_lookup_alter_eq. by destruct (heap st !! r).
    - by rewrite list_lookup_alter_ne. }
  destruct ev as [sid q now|sid position sel now|sid change|sid]; simpl in Hdiff.
  - exfalso. apply Hdiff. unfold connection.
    destruct (truthy (projectId q)) as [p'|]; [|done].
    destruct (truthy (q_userId q)) as [u|]; [|done].
    destruct (truthy (q_profile q)) as [pr|]; [|done].
    destruct (rooms st !! p') as [r'|] eqn:Hr'; simpl;
      destruct (JSON_parse pr) as [parsed|]; simpl; try done.
    + change (deref (set_sockets ?m (emit ?a ?b ?c ?s)) r) with (deref s r).
      by apply Husers.
    + change (deref (set_sockets ?m (emit ?a ?b ?c ?s)) r) with (deref s r).
      unfold deref. simpl. rewrite list_lookup_alter_ne by lia.
      by rewrite lookup_app_l.
    + unfold deref. simpl. by rewrite lookup_app_l.
  - exfalso. apply Hdiff. unfold on_cursor.
    destruct (sockets st !! sid) as [[p' [[u r']|]]|]; try done.
    destruct (JsMap.get u _); [|done]. simpl.
    change (deref (emit ?a ?b ?c ?s) r) with (deref s r). by apply Husers.
  - unfold on_change in Hdiff.
    destruct (sockets st !! sid) as [[p' [[u r']|]]|] eqn:Hs; try done.
    destruct (text change) as [| | | |t] eqn:Ht; try done.
    destruct (applyChange _ _) as [s'|e]; [|done]. simpl in Hdiff.
    destruct (decide (r' = r)) as [->|Hne].
    + pose proof (attached_registered Hc _ _ _ _ Hs) as Hr'.
      assert (p' = p) as -> by exact (registered_once Hc _ _ _ Hr' Hr).
      exists sid, change, t, u. done.
    + exfalso. apply Hdiff. unfold deref. simpl.
      by rewrite list_lookup_alter_ne.
  - exfalso. apply Hdiff. unfold on_disconnect.
    destruct (sockets st !! sid) as [[p' [[u r']|]]|]; try done.
    case_decide; simpl.
    + change (deref (set_rooms ?m (emit ?a ?b ?c ?s)) r) with (deref s r).
      by apply Husers.
    + change (deref (emit ?a ?b ?c ?s) r) with (deref s r). by apply Husers.
Qed.

(** X13.  In a consistent server a cursor update of an attached socket is
    never dropped: its participant has a record, and the update is
    broadcast to the room. *)
Theorem cursor_always_broadcast st sid p u r position sel now :
  consistent st ->
  sockets st !! sid = Some (mkSocket p (Some (mkListeners u r))) ->
  exists user,
    JsMap.get u (users (deref st r)) = Some user /\
    emissions_of JSON_parse st (Cursor sid position sel now)
    = [mkEmission p None (presence (on_cursor st sid position sel now).1 r) (members st p)].
Proof.
  intros Hc Hs.
  pose proof (attached_registered Hc _ _ _ _ Hs) as Hr.
  assert (Hin : u ∈ attached st p).
  { apply (proj2 (elem_of_attached Profile st p u)). eauto. }
  apply (presence_attached Hc _ _ u Hr) in Hin as [user Huser].
  exists user. split; [done|].
  unfold emissions_of. simpl. unfold on_cursor. rewrite Hs, Huser. simpl.
  by rewrite drop_app_length.
Qed.

(** X14.  When a participant leaves a room in which another participant
    has a record, the room stays registered with its buffer; the leaver's
    record is removed and the others are kept in their order. *)
Theorem leave_keeps_shared_room st sid p u r k v :
  sockets st !! sid = Some (mkSocket p (Some (mkListeners u r))) ->
  JsMap.get k (users (deref st r)) = Some v ->
  k ≠ u ->
  let st' := (on_disconnect st sid).1 in
  rooms st' = rooms st /\
  sockets st' = delete sid (sockets st) /\
  users (deref st' r) = JsMap.delete u (users (deref st r)) /\
  content (deref st' r) = content (deref st r) /\
  (forall r', r' ≠ r -> heap st' !! r' = heap st !! r').
Proof.
  intros Hs Hk Hne. unfold on_disconnect. rewrite Hs. simpl.
  assert (Hlt : (r < length (heap st))%nat).
  { apply lookup_lt_is_Some. unfold deref in Hk.
    destruct (heap st !! r); [eauto|done]. }
  change (deref (emit ?a ?b ?c ?s) r) with (deref s r).
  change (set_users ?f r (set_sockets ?m st)) with (set_sockets m (set_users f r st)).
  change (deref (set_sockets ?m ?s) r) with (deref s r).
  rewrite deref_set_users_eq by done. simpl.
  rewrite decide_False.
  - simpl. change (deref (emit ?a ?b ?c ?s) r) with (deref s r).
    change (deref (set_sockets ?m ?s) r) with (deref s r).
    rewrite deref_set_users_eq by done. simpl. split_and!; try done.
    intros r' Hr'. by rewrite list_lookup_alter_ne.
  - intros Hsize.
    pose proof (size_zero _ Hsize k) as Hnone. rewrite get_delete in Hnone.
    rewrite decide_False in Hnone by done. congruence.
Qed.

Lemma step_keeps_buffers_empty st ev :
  no_string_edit ev ->
  Forall (fun room => content room = []) (heap st) ->
  Forall (fun room => content room = []) (heap (step JSON_parse st ev).1).
Proof.
  intros Hev Hempty.
  destruct ev as [sid q now|sid position sel now|sid change|sid]; simpl.
  - unfold connection.
    destruct (truthy (projectId q)) as [p|]; [|done].
    destruct (truthy (q_userId q)) as [u|]; [|done].
    destruct (truthy (q_profile q)) as [pr|]; [|done].
    destruct (rooms st !! p) as [r|]; simpl;
      destruct (JSON_parse pr) as [parsed|]; simpl; try done.
    + apply Forall_alter; [done|by intros room _ Hroom].
    + apply Forall_alter; [|by intros room _ Hroom].
      apply Forall_app. split; [done|]. by constructor.
    + apply Forall_app. split; [done|]. by constructor.
  - unfold on_cursor.
    destruct (sockets st !! sid) as [[p [[u r]|]]|]; try done.
    destruct (JsMap.get u _); [|done]. simpl.
    apply Forall_alter; [done|by intros room _ Hroom].
  - unfold on_change. simpl in Hev.
    destruct (sockets st !! sid) as [[p [[u r]|]]|]; try done.
    by destruct (text change).
  - unfold on_disconnect.
    destruct (sockets st !! sid) as [[p [[u r]|]]|]; try done.
    case_decide; simpl; (apply Forall_alter; [done|by intros room _ Hroom]).
Qed.

(** X15.  The buffers stay empty as long as no edit carries a string in
    its [text] field.  The editor component sends the array of the model's
    changes as the payload, which has no [text] field: relayed as it is, it
    never reaches a buffer. *)
Theorem buffers_empty_without_string_edit evs r room :
  Forall no_string_edit evs ->
  heap (run JSON_parse init evs) !! r = Some room ->
  content room = [].
Proof.
  intros Hevs.
  assert (Hall : forall st,
            Forall (fun room => content room = []) (heap st) ->
            Forall (fun room => content room = []) (heap (run JSON_parse st evs))).
  { induction Hevs as [|ev evs Hev _ IH]; intros st Hst; [done|].
    simpl. apply IH. by apply step_keeps_buffers_empty. }
  intros Hroom. specialize (Hall init ltac:(constructor)).
  rewrite Forall_lookup in Hall. by eapply Hall.
Qed.






(** X17.  As long as no participant id is attached twice to a room, the
    server stays consistent: every attached socket holds the room object
    registered under its room id (no socket edits an orphaned buffer),
    distinct room ids have distinct room objects, and the presence map of a
    registered room has exactly the participants attached to it. *)
Theorem admissible_run_consistent evs :
  admissible_trace JSON_parse init evs ->
  consistent (run JSON_parse init evs).
Proof. apply consistent_run, consistent_init. Qed.

End ServerMore.

(** * The queue when applications fail, and when they do not *)

Module FileSystemMore.
Import FileSystem FileSystemRuns.

Lemma foldl_step_snoc st ms m : foldl step st (ms ++ [m]) = step (foldl step st ms) m.
Proof. by rewrite foldl_app. Qed.

(** Once the running invocation has ended with an exception, nothing moves
    the queue any more. *)
Lemma wedged_forever st ms :
  isProcessing st = true -> awaiting st = [] ->
  isProcessing (foldl step st ms) = true /\
  awaiting (foldl step st ms) = [] /\
  applied (foldl step st ms) = applied st /\
  operationQueue (foldl step st ms) = operationQueue st ++ enqueued ms.
Proof.
  intros Hflag Haw. induction ms as [|m ms IH] using rev_ind.
  - simpl. by rewrite app_nil_r.
  - destruct IH as (IH1 & IH2 & IH3 & IH4).
    rewrite foldl_step_snoc, FileSystemFacts.enqueued_snoc.
    destruct m as [op|i|i]; simpl.
    + unfold processOperation. simpl. rewrite IH1. simpl.
      split_and!; try done. by rewrite IH4, app_assoc.
    + rewrite IH2, lookup_nil. by rewrite app_nil_r.
    + rewrite IH2, lookup_nil. by rewrite app_nil_r.
Qed.

(** X18.  One failed application blocks the queue for good: after the
    awaited [applyOperation] has rejected, [isProcessing] stays set, and
    whatever is enqueued or completes afterwards, no further operation ever
    begins; the later operations pile up in the queue. *)
Theorem failure_blocks_queue ms op ms' :
  awaiting (run ms) = [op] ->
  let failed := run (ms ++ [Reject 0]) in
  let later := run (ms ++ [Reject 0] ++ ms') in
  applied failed = applied (run ms) ++ [Failed op] /\
  applied later = applied failed /\
  isProcessing later = true /\
  awaiting later = [] /\
  operationQueue later = operationQueue (run ms) ++ enqueued ms'.
Proof.
  intros Haw. simpl.
  destruct (FileSystemFacts.queue_inv_run ms) as [_ _ _ Hidle].
  assert (Hflag : isProcessing (run ms) = true).
  { destruct (isProcessing (run ms)); [done|].
    destruct (Hidle eq_refl) as [Hnil _]. congruence. }
  assert (Hfailed : run (ms ++ [Reject 0])
                    = mkState (operationQueue (run ms)) true [] (applied (run ms) ++ [Failed op])).
  { rewrite FileSystemFacts.run_snoc. simpl. rewrite Haw. simpl. by rewrite Hflag. }
  rewrite Hfailed. simpl. split; [done|].
  replace (run (ms ++ Reject 0 :: ms'))
    with (foldl step (run (ms ++ [Reject 0])) ms').
  2: { unfold run. rewrite <- foldl_app. by rewrite <- app_assoc. }
  rewrite Hfailed.
  destruct (wedged_forever
              (mkState (operationQueue (run ms)) true [] (applied (run ms) ++ [Failed op]))
              ms' eq_refl eq_refl) as (H1 & H2 & H3 & H4).
  done.
Qed.

(** The running application and all queued ones resolve in turn. *)
Lemma drain_all q op t :
  foldl step (mkState q true [op] t) (resolves (S (length q)))
  = mkState [] false [] (t ++ Finished op :: applied_in_turn q).
Proof.
  revert op t. induction q as [|o q IH]; intros op t.
  - reflexivity.
  - change (resolves (S (length (o :: q)))) with (Resolve 0 :: resolves (S (length q))).
    change (foldl step ?s (?m :: ?ms)) with (foldl step (step s m) ms).
    change (step (mkState (o :: q) true [op] t) (Resolve 0))
      with (mkState q true [o] ((t ++ [Finished op]) ++ [Began o])).
    rewrite IH. f_equal. unfold applied_in_turn. rewrite bind_cons.
    rewrite <- !app_assoc. done.
Qed.

Lemma began_applied_in_turn q : began (applied_in_turn q) = q.
Proof.
  induction q as [|o q IH]; [done|].
  unfold applied_in_turn in *. rewrite bind_cons. unfold began in *.
  rewrite omap_app. simpl. by rewrite IH.
Qed.

Lemma live_without_reject ms :
  Forall (fun m => ~ is_reject m) ms ->
  isProcessing (run ms) = true -> awaiting (run ms) ≠ [].
Proof.
  induction ms as [|m ms IH] using rev_ind; [done|].
  rewrite Forall_app, Forall_singleton. intros [Hms Hm].
  specialize (IH Hms). rewrite FileSystemFacts.run_snoc.
  destruct (FileSystemFacts.queue_inv_run ms) as [_ _ Hlen Hidle].
  destruct m as [op|i|i]; simpl; [| |by destruct Hm].
  - unfold processOperation. simpl.
    destruct (isProcessing (run ms)) eqn:Hflag; simpl; [by auto|].
    destruct (Hidle eq_refl) as [-> ->]. simpl. done.
  - destruct (awaiting (run ms)) as [|op [|op' aw]] eqn:Haw; simpl in Hlen; try lia.
    + rewrite lookup_nil, Haw. auto.
    + destruct i as [|i]; simpl.
      * unfold drain. simpl. destruct (operationQueue (run ms)); simpl; done.
      * rewrite Haw. done.
Qed.

(** X19.  The queue drains: when no application has failed, letting the
    running application and the queued ones resolve one after the other
    leaves the service idle, the queue empty, and every enqueued operation
    applied to its end, in the order of the calls. *)
Theorem queue_drains ms :
  Forall (fun m => ~ is_reject m) ms ->
  let pending := (length (awaiting (run ms)) + length (operationQueue (run ms)))%nat in
  let st := run (ms ++ resolves pending) in
  isProcessing st = false /\
  operationQueue st = [] /\
  awaiting st = [] /\
  began (applied st) = enqueued ms /\
  applied st
  = applied (run ms)
    ++ match awaiting (run ms) with
       | op :: _ => Finished op :: applied_in_turn (operationQueue (run ms))
       | [] => []
       end.
Proof.
  intros Hms. simpl.
  pose proof (live_without_reject ms Hms) as Hlive.
  destruct (FileSystemFacts.queue_inv_run ms) as [Hfifo _ Hlen Hidle].
  assert (Hfinal : forall n, run (ms ++ resolves n) = foldl step (run ms) (resolves n)).
  { intros n. unfold run. by rewrite foldl_app. }
  rewrite Hfinal. clear Hfinal.
  destruct (run ms) as [q flag aw t]. simpl in *.
  destruct flag.
  - specialize (Hlive eq_refl).
    destruct aw as [|op [|op' aw]]; simpl in Hlen; try lia; [done|].
    simpl length. rewrite drain_all. simpl. split_and!; try done.
    rewrite <- Hfifo. unfold began. rewrite omap_app. simpl. f_equal.
    apply began_applied_in_turn.
  - destruct (Hidle eq_refl) as [-> ->]. simpl.
    rewrite app_nil_r in Hfifo. by rewrite app_nil_r.
Qed.

End FileSystemMore.

(** * File names and languages *)

Module PathsFacts.
Import Paths.

Lemma split_on_not_nil sep s : split_on sep s ≠ [].
Proof.
  destruct s as [|c s]; simpl; [done|].
  case_decide; [done|]. by destruct (split_on sep s).
Qed.

Lemma split_on_free sep s : sep ∉ s -> split_on sep s = [s].
Proof.
  induction s as [|c s IH]; simpl; [done|].
  intros Hc. rewrite not_elem_of_cons in Hc. destruct Hc as [Hc Hs].
  rewrite decide_False by congruence. by rewrite IH.
Qed.

Lemma split_on_app sep a b :
  split_on sep (a ++ sep :: b) = split_on sep a ++ split_on sep b.
Proof.
  induction a as [|c a IH]; simpl.
  - by rewrite decide_True.
  - case_decide; [by rewrite IH|].
    rewrite IH. pose proof (split_on_not_nil sep a).
    by destruct (split_on sep a).
Qed.

Lemma pop_split_on_free sep s : sep ∉ s -> pop (split_on sep s) = Some s.
Proof. intros H. by rewrite split_on_free. Qed.

Lemma pop_split_on_last sep pre x :
  sep ∉ x -> pop (split_on sep (pre ++ sep :: x)) = Some x.
Proof.
  intros H. rewrite split_on_app, (split_on_free sep x) by done.
  unfold pop. by rewrite last_snoc.
Qed.

(** X20.  The name of a file is the text after the last slash of its
    path, and the whole path when it has no slash; so it is empty for a
    path that ends in a slash. *)
Theorem fileName_after_last_slash dir name :
  "/"%char ∉ name ->
  fileName (dir ++ "/"%char :: name) = name /\ fileName name = name.
Proof.
  intros H. unfold fileName.
  by rewrite pop_split_on_last, pop_split_on_free.
Qed.

(** X21.  The language depends on the lower-cased text after the last dot
    of the path only, and on the whole path when it has no dot: capitals in
    the extension and what stands before the dot do not matter, and a file
    called "py" or "md" gets that language. *)
Theorem detectLanguage_by_extension pre ext :
  "."%char ∉ ext ->
  detectLanguage (pre ++ "."%char :: ext) = languageOf (toLowerCase ext) /\
  detectLanguage ext = languageOf (toLowerCase ext).
Proof.
  intros H. unfold detectLanguage.
  by rewrite pop_split_on_last, pop_split_on_free.
Qed.

Lemma own_elem_of o k v : own o k = Some v -> v ∈ o.*2.
Proof.
  induction o as [|[k' v'] o IH]; simpl; [done|].
  case_decide.
  - intros [= ->]. left.
  - intros Hv. right. auto.
Qed.

Lemma languageOf_cases (e : list ascii) :
  ((e = str "constructor" \/ e = str "__proto__") /\ languageOf e = InheritedObject e) \/
  (e ≠ str "constructor" /\ e ≠ str "__proto__" /\
   exists n, n ∈ languageNames /\ languageOf e = Name n).
Proof.
  destruct (decide (e = str "constructor")) as [->|Hc].
  { left. split; [by left|]. vm_compute. reflexivity. }
  destruct (decide (e = str "__proto__")) as [->|Hp].
  { left. split; [by right|]. vm_compute. reflexivity. }
  right. split; [done|]. split; [done|].
  unfold languageOf. destruct e as [|c k]; [exists (str "plaintext"); split; [left|done]|].
  destruct (own languageMap (c :: k)) as [v|] eqn:Hown.
  - exists v. split; [|done]. right. by eapply own_elem_of.
  - unfold inherited. rewrite !bool_decide_eq_false_2 by done. simpl.
    exists (str "plaintext"). split; [left|done].
Qed.

(** X22.  [detectLanguage] gives one of the names of its table or
    "plaintext" for every path, but for two kinds: when the lower-cased
    extension is "constructor" or "__proto__", the lookup finds what the
    table inherits from [Object.prototype], and that object is returned in
    place of a name. *)
Theorem detectLanguage_names pre ext :
  "."%char ∉ ext ->
  ((toLowerCase ext = str "constructor" \/ toLowerCase ext = str "__proto__") /\
   detectLanguage (pre ++ "."%char :: ext) = InheritedObject (toLowerCase ext) /\
   detectLanguage ext = InheritedObject (toLowerCase ext)) \/
  (toLowerCase ext ≠ str "constructor" /\ toLowerCase ext ≠ str "__proto__" /\
   exists n, n ∈ languageNames /\
     detectLanguage (pre ++ "."%char :: ext) = Name n /\ detectLanguage ext = Name n).
Proof.
  intros H. unfold detectLanguage.
  rewrite pop_split_on_last, pop_split_on_free by done.
  destruct (languageOf_cases (toLowerCase ext)) as [[He Hl]|(Hc & Hp & n & Hn & Hl)].
  - left. by rewrite Hl.
  - right. split; [done|]. split; [done|]. exists n. by rewrite Hl.
Qed.

End PathsFacts.

(** * The file cache and its watchers *)

Module FileCacheFacts.
Import FileCache.

Lemma cache_run_snoc evs ev : run (evs ++ [ev]) = step (run evs) ev.
Proof. unfold run. by rewrite foldl_app. Qed.

Lemma cache_run_app evs evs' : run (evs ++ evs') = foldl step (run evs) evs'.
Proof. unfold run. by rewrite foldl_app. Qed.

Lemma fileCache_notifyWatchers st f :
  fileCache (notifyWatchers st f) = fileCache st.
Proof. unfold notifyWatchers. by destruct (fileWatchers st !! path f). Qed.

Lemma fileWatchers_notifyWatchers st f :
  fileWatchers (notifyWatchers st f) = fileWatchers st.
Proof. unfold notifyWatchers. by destruct (fileWatchers st !! path f). Qed.

Lemma suspended_notifyWatchers st f :
  suspended (notifyWatchers st f) = suspended st.
Proof. unfold notifyWatchers. by destruct (fileWatchers st !! path f). Qed.

Lemma called_notifyWatchers st f :
  called (notifyWatchers st f)
  = called st ++ ((fun cb => (cb, f)) <$> watchers st (path f)).
Proof.
  unfold notifyWatchers, watchers.
  destruct (fileWatchers st !! path f); simpl; [done|by rewrite app_nil_r].
Qed.

(** The cache after an operation, by the type of the operation. *)
Lemma fileCache_applyOperation st op :
  fileCache (applyOperation st op)
  = match type op with
    | FileSystem.create | FileSystem.update =>
        <[path (file op) := file op]> (fileCache st)
    | FileSystem.delete => base.delete (path (file op)) (fileCache st)
    | FileSystem.move =>
        match truthy (previousPath op) with
        | Some previous =>
            <[path (file op) := file op]> (base.delete previous (fileCache st))
        | None => <[path (file op) := file op]> (fileCache st)
        end
    | FileSystem.rename => fileCache st
    end.
Proof.
  unfold applyOperation. rewrite fileCache_notifyWatchers.
  destruct (type op); try done.
  by destruct (truthy (previousPath op)).
Qed.

Lemma fileWatchers_applyOperation st op :
  fileWatchers (applyOperation st op) = fileWatchers st.
Proof.
  unfold applyOperation. rewrite fileWatchers_notifyWatchers.
  destruct (type op); try done.
  by destruct (truthy (previousPath op)).
Qed.

Lemma called_applyOperation st op :
  called (applyOperation st op)
  = called st ++ ((fun cb => (cb, file op)) <$> watchers st (path (file op))).
Proof.
  unfold applyOperation. rewrite called_notifyWatchers.
  destruct (type op); try done.
  by destruct (truthy (previousPath op)).
Qed.

(** The stretches of [applyOperation], run one after the other with
    nothing in between, are [applyOperation]: the call, and the going on of
    the call, once, or twice for a move with a previous path. *)
Lemma applyOperation_stretches st op answer answer' :
  applyOperation st op
  = let i := length (suspended st) in
    let st1 := applyOperation_call st op in
    match type op with
    | FileSystem.rename => st1
    | FileSystem.move =>
        match truthy (previousPath op) with
        | Some _ => resume (resume st1 i answer) i answer'
        | None => resume st1 i answer
        end
    | _ => resume st1 i answer
    end.
Proof.
  destruct st as [c w l q]. unfold applyOperation, applyOperation_call, resume, suspend.
  simpl.
  assert (Hlast : forall s : Suspended, (q ++ [s]) !! length q = Some s).
  { intros s. by rewrite lookup_app_r, Nat.sub_diag by lia. }
  assert (Hdel : forall s : Suspended, base.delete (length q) (q ++ [s]) = q).
  { intros s. rewrite delete_take_drop, take_app_length.
    rewrite drop_ge; [by rewrite app_nil_r|]. rewrite length_app. simpl. lia. }
  destruct (type op); simpl; rewrite ?Hlast; simpl; rewrite ?Hdel; try done.
  destruct (truthy (previousPath op)) as [previous|] eqn:Hprev; simpl;
    rewrite Hlast; simpl; rewrite ?Hprev; unfold suspend, set_suspended, set_cache;
    simpl; repeat (first [rewrite Hlast | rewrite Hdel]; simpl); done.
Qed.

Lemma truthy_Some o s : truthy o = Some s -> o = Some s /\ s ≠ "".
Proof.
  destruct o as [s'|]; simpl; [|done].
  case_decide; [done|]. by intros [= ->].
Qed.

Lemma select_path_path table p f : select_path table p = Some f -> path f = p.
Proof.
  unfold select_path, single.
  destruct (filter _ table) as [|r [|]] eqn:Hrows; try done.
  intros [= ->].
  assert (Hin : f ∈ filter (fun f => path f = p) table) by (rewrite Hrows; left).
  by apply list_elem_of_filter in Hin as [? _].
Qed.

Lemma cache_all_snoc c files f :
  cache_all c (files ++ [f]) = <[path f := f]> (cache_all c files).
Proof. unfold cache_all. by rewrite foldl_app. Qed.

Lemma cache_all_lookup_ne c files p :
  p ∉ path <$> files -> cache_all c files !! p = c !! p.
Proof.
  induction files as [|f files IH] using rev_ind; [done|].
  rewrite fmap_app, not_elem_of_app. simpl. rewrite list_elem_of_singleton.
  intros [Hfiles Hf]. rewrite cache_all_snoc, lookup_insert_ne by done. auto.
Qed.

Lemma cache_all_is_Some c files p :
  is_Some (c !! p) -> is_Some (cache_all c files !! p).
Proof.
  intros Hp. induction files as [|f files IH] using rev_ind; [done|].
  rewrite cache_all_snoc. destruct (decide (path f = p)) as [<-|Hne].
  - rewrite lookup_insert_eq. eauto.
  - by rewrite lookup_insert_ne.
Qed.

Lemma cache_all_keyed c files :
  (forall p f, c !! p = Some f -> path f = p) ->
  forall p f, cache_all c files !! p = Some f -> path f = p.
Proof.
  intros Hc. induction files as [|g files IH] using rev_ind; [done|].
  intros p f. rewrite cache_all_snoc.
  intros [[<- <-]|[_ H]]%lookup_insert_Some; eauto.
Qed.

(** What a stretch of code does to the watchers, the calls and the
    cache. *)
Lemma fileWatchers_continue st s answer :
  fileWatchers (continue st s answer) = fileWatchers st.
Proof.
  destruct s; simpl; rewrite ?fileWatchers_notifyWatchers; try done.
  - by destruct (truthy (previousPath op)).
  - destruct answer as [table|]; [|done]. by destruct (select_path table p).
  - by destruct answer.
Qed.

Lemma fileWatchers_step st ev :
  match ev with
  | Watch _ _ | Unwatch _ _ => True
  | _ => fileWatchers (step st ev) = fileWatchers st
  end.
Proof.
  destruct ev as [op|q u|q|q|q|i answer|i|q cb|q cb]; simpl; try done.
  - unfold applyOperation_call.
    destruct (type op); rewrite ?fileWatchers_notifyWatchers; try done.
    by destruct (truthy (previousPath op)).
  - unfold on_file_lock. destruct (fileCache st !! q); [|done].
    by rewrite fileWatchers_notifyWatchers.
  - unfold on_file_unlock. destruct (fileCache st !! q); [|done].
    by rewrite fileWatchers_notifyWatchers.
  - unfold getFile_call. by destruct (fileCache st !! q).
  - unfold resume. destruct (suspended st !! i); [|done].
    by rewrite fileWatchers_continue.
Qed.

Lemma called_continue st s answer :
  called (continue st s answer) = called st \/
  exists f, called (continue st s answer)
            = called st ++ ((fun cb => (cb, f)) <$> watchers st (path f)).
Proof.
  destruct s; simpl; rewrite ?called_notifyWatchers; eauto.
  - left. by destruct (truthy (previousPath op)).
  - left. destruct answer as [table|]; [|done]. by destruct (select_path table p).
  - left. by destruct answer.
Qed.

Lemma called_step st ev :
  called (step st ev) = called st \/
  exists f, called (step st ev)
            = called st ++ ((fun cb => (cb, f)) <$> watchers st (path f)).
Proof.
  destruct ev as [op|q u|q|q|q|i answer|i|q cb|q cb]; simpl; eauto.
  - unfold applyOperation_call.
    destruct (type op); rewrite ?called_notifyWatchers; eauto.
    left. by destruct (truthy (previousPath op)).
  - unfold on_file_lock. destruct (fileCache st !! q); [|eauto].
    rewrite called_notifyWatchers. eauto.
  - unfold on_file_unlock. destruct (fileCache st !! q); [|eauto].
    rewrite called_notifyWatchers. eauto.
  - left. unfold getFile_call. by destruct (fileCache st !! q).
  - unfold resume. destruct (suspended st !! i); [|eauto].
    apply (called_continue (set_suspended st _)).
  - left. unfold unwatch. by destruct (fileWatchers st !! q).
Qed.

Lemma fileCache_applyOperation_call st op :
  fileCache (applyOperation_call st op) = fileCache st.
Proof.
  unfold applyOperation_call.
  destruct (type op); rewrite ?fileCache_notifyWatchers; try done.
  by destruct (truthy (previousPath op)).
Qed.

Lemma fileCache_step_untouched st ev p f :
  fileCache st !! p = Some f -> ~ writes st ev p ->
  fileCache (step st ev) !! p = Some f.
Proof.
  intros Hp Hw. destruct ev as [op|q u|q|q|q|i answer|i|q cb|q cb]; simpl in *.
  - by rewrite fileCache_applyOperation_call.
  - unfold on_file_lock. destruct (fileCache st !! q); [|done].
    rewrite fileCache_notifyWatchers. simpl. by rewrite lookup_insert_ne.
  - unfold on_file_unlock. destruct (fileCache st !! q); [|done].
    rewrite fileCache_notifyWatchers. simpl. by rewrite lookup_insert_ne.
  - unfold getFile_call. by destruct (fileCache st !! q).
  - done.
  - unfold resume. destruct (suspended st !! i) as [s|]; [|done].
    destruct s as [op|op|op|op|q|q]; simpl; rewrite ?fileCache_notifyWatchers; simpl.
    + by rewrite lookup_insert_ne.
    + by rewrite lookup_delete_ne.
    + destruct (truthy (previousPath op)) as [previous|] eqn:Hprev; simpl; [|done].
      apply truthy_Some in Hprev as [Hprev _].
      rewrite lookup_delete_ne; [done|]. intros ->. done.
    + by rewrite lookup_insert_ne.
    + destruct answer as [table|]; [|done].
      destruct (select_path table q); [|done]. simpl. by rewrite lookup_insert_ne.
    + destruct answer as [files|]; [|done]. simpl.
      by rewrite cache_all_lookup_ne.
  - done.
  - done.
  - unfold unwatch. by destruct (fileWatchers st !! q).
Qed.

Lemma fileCache_untouched st evs p f :
  fileCache st !! p = Some f -> untouched st evs p ->
  fileCache (foldl step st evs) !! p = Some f.
Proof.
  revert st. induction evs as [|ev evs IH]; intros st Hp Hu; simpl; [done|].
  destruct Hu as [Hw Hu]. apply IH; [|done]. by apply fileCache_step_untouched.
Qed.

Lemma keyed_step st ev :
  (forall p f, fileCache st !! p = Some f -> path f = p) ->
  forall p f, fileCache (step st ev) !! p = Some f -> path f = p.
Proof.
  intros Hk p f. destruct ev as [op|q u|q|q|q|i answer|i|q cb|q cb]; simpl.
  - rewrite fileCache_applyOperation_call. eauto.
  - unfold on_file_lock. destruct (fileCache st !! q) as [g|] eqn:Hq; [|eauto].
    rewrite fileCache_notifyWatchers. simpl.
    intros [[<- <-]|[_ H]]%lookup_insert_Some; simpl; eauto.
  - unfold on_file_unlock. destruct (fileCache st !! q) as [g|] eqn:Hq; [|eauto].
    rewrite fileCache_notifyWatchers. simpl.
    intros [[<- <-]|[_ H]]%lookup_insert_Some; simpl; eauto.
  - unfold getFile_call. destruct (fileCache st !! q); eauto.
  - eauto.
  - unfold resume. destruct (suspended st !! i) as [s|]; [|eauto].
    destruct s as [op|op|op|op|q|q]; simpl; rewrite ?fileCache_notifyWatchers; simpl.
    + intros [[<- <-]|[_ H]]%lookup_insert_Some; eauto.
    + intros [_ H]%lookup_delete_Some; eauto.
    + destruct (truthy (previousPath op)); simpl; [|eauto].
      intros [_ H]%lookup_delete_Some; eauto.
    + intros [[<- <-]|[_ H]]%lookup_insert_Some; eauto.
    + destruct answer as [table|]; [|eauto].
      destruct (select_path table q) as [g|] eqn:Hsel; [|eauto]. simpl.
      intros [[<- <-]|[_ H]]%lookup_insert_Some; eauto using select_path_path.
    + destruct answer as [files|]; [|eauto]. simpl. by apply cache_all_keyed.
  - eauto.
  - eauto.
  - unfold unwatch. destruct (fileWatchers st !! q); eauto.
Qed.

(** X23.  Whatever operations, locks, reads, listings and subscriptions a
    file system has gone through, and however its calls of the store have
    overlapped, every file of its cache is stored under its own path. *)
Theorem cache_keyed_by_path evs p f :
  fileCache (run evs) !! p = Some f -> path f = p.
Proof.
  revert p f. induction evs as [|ev evs IH] using rev_ind.
  - intros p f. unfold run. simpl. by rewrite lookup_empty.
  - rewrite cache_run_snoc. by apply keyed_step.
Qed.

Lemma NoDup_set_add cb ws : NoDup ws -> NoDup (set_add cb ws).
Proof.
  intros H. unfold set_add. case_decide; [done|].
  apply NoDup_app. split_and!; [done| |apply NoDup_singleton].
  intros x Hx ->%list_elem_of_singleton. done.
Qed.

Lemma set_add_not_nil cb ws : set_add cb ws ≠ [].
Proof.
  unfold set_add. case_decide as H.
  - intros ->. by apply elem_of_nil in H.
  - by destruct ws.
Qed.

Lemma tidy_step st ev : tidy st -> tidy (step st ev).
Proof.
  unfold tidy. intros Ht. pose proof (fileWatchers_step st ev) as Hsame.
  destruct ev as [op|q u|q|q|q|i answer|i|q cb|q cb];
    try (intros p ws; rewrite Hsame; apply Ht).
  - intros p ws. simpl. unfold watchFile. simpl.
    intros [[<- <-]|[_ H]]%lookup_insert_Some; [|by eapply Ht].
    split; [|apply set_add_not_nil].
    apply NoDup_set_add.
    destruct (fileWatchers st !! q) as [ws|] eqn:Hq; simpl.
    + by eapply Ht.
    + apply NoDup_nil_2.
  - simpl. unfold unwatch. destruct (fileWatchers st !! q) as [ws0|] eqn:Hq; [|done].
    intros p ws. simpl. case_decide as Hlen.
    + intros [_ H]%lookup_delete_Some. by eapply Ht.
    + intros [[<- <-]|[_ H]]%lookup_insert_Some; [|by eapply Ht].
      split.
      * apply NoDup_filter. by eapply Ht.
      * intros Hnil. apply Hlen. by rewrite Hnil.
Qed.

Lemma tidy_run evs : tidy (run evs).
Proof.
  induction evs as [|ev evs IH] using rev_ind.
  - intros p ws. unfold run. simpl. by rewrite lookup_empty.
  - rewrite cache_run_snoc. by apply tidy_step.
Qed.

Lemma NoDup_watchers evs p : NoDup (watchers (run evs) p).
Proof.
  unfold watchers. destruct (fileWatchers (run evs) !! p) as [ws|] eqn:H; simpl.
  - by apply (tidy_run evs p).
  - apply NoDup_nil_2.
Qed.

Lemma filter_calls_NoDup (cb : Callback) (f : FileNode) (ws : list Callback) :
  NoDup ws ->
  filter (fun c : Callback * FileNode => c.1 = cb /\ path c.2 = path f)
         ((fun cb => (cb, f)) <$> ws)
  = if decide (cb ∈ ws) then [(cb, f)] else [].
Proof.
  induction 1 as [|w ws Hw Hnd IH].
  { by rewrite decide_False by apply not_elem_of_nil. }
  rewrite fmap_cons, filter_cons, IH. simpl.
  destruct (decide (w = cb)) as [->|Hne].
  - rewrite decide_True by done.
    rewrite (decide_True (P := cb ∈ cb :: ws)) by left.
    by rewrite decide_False.
  - rewrite decide_False by tauto.
    destruct (decide (cb ∈ ws)) as [Hin|Hin].
    + rewrite decide_True; [done|by right].
    + rewrite decide_False; [done|].
      rewrite not_elem_of_cons. done.
Qed.

(** X24.  An operation calls each callback that watches the path of its
    file at that time exactly once with the file, also a callback that
    subscribed several times, and it calls nobody else for that path;
    this for every type of operation, [rename] included. *)
Theorem operation_calls_each_watcher_once evs op cb :
  let st := run evs in
  let p := path (file op) in
  calls_to cb p (applyOperation st op)
  = calls_to cb p st ++ (if decide (cb ∈ watchers st p) then [(cb, file op)] else []).
Proof.
  simpl. unfold calls_to. rewrite called_applyOperation, filter_app.
  f_equal. apply filter_calls_NoDup, NoDup_watchers.
Qed.

Lemma filter_none {A} (P : A -> Prop) `{!forall x, Decision (P x)} (l : list A) :
  Forall (fun x => ~ P x) l -> filter P l = [].
Proof.
  induction 1 as [|x l Hx _ IH]; [done|].
  by rewrite filter_cons, decide_False.
Qed.

Lemma calls_to_absent st st' cb p :
  cb ∉ watchers st p ->
  (called st' = called st \/
   exists f, called st' = called st ++ ((fun cb => (cb, f)) <$> watchers st (path f))) ->
  calls_to cb p st' = calls_to cb p st.
Proof.
  intros Hcb [H|[f H]]; unfold calls_to; rewrite H; [done|].
  rewrite filter_app.
  rewrite (filter_none _ (_ <$> watchers st (path f))).
  - apply app_nil_r.
  - apply Forall_fmap, Forall_forall. intros w Hw. simpl.
    intros [-> <-]. done.
Qed.

Lemma watchers_unwatch st q c p :
  watchers (unwatch st q c) p ⊆ watchers st p.
Proof.
  unfold unwatch, watchers.
  destruct (fileWatchers st !! q) as [ws|] eqn:Hq; [|done]. simpl.
  destruct (decide (q = p)) as [->|Hne].
  - rewrite Hq. simpl. case_decide.
    + rewrite lookup_delete_eq. simpl. apply list_subseteq_nil.
    + rewrite lookup_insert_eq. simpl. intros x Hx.
      by apply list_elem_of_filter in Hx as [_ ?].
  - case_decide.
    + by rewrite lookup_delete_ne.
    + by rewrite lookup_insert_ne.
Qed.

Lemma watchers_unwatch_self st p cb : cb ∉ watchers (unwatch st p cb) p.
Proof.
  unfold unwatch, watchers.
  destruct (fileWatchers st !! p) as [ws|] eqn:Hp; simpl.
  - case_decide.
    + rewrite lookup_delete_eq. apply not_elem_of_nil.
    + rewrite lookup_insert_eq. simpl. intros Hx.
      apply list_elem_of_filter in Hx as [Hx _]. done.
  - rewrite Hp. apply not_elem_of_nil.
Qed.

Lemma step_calls_absent st ev cb p :
  cb ∉ watchers st p -> ev ≠ Watch p cb ->
  calls_to cb p (step st ev) = calls_to cb p st /\ cb ∉ watchers (step st ev) p.
Proof.
  intros Hcb Hev. split; [by apply calls_to_absent, called_step|].
  pose proof (fileWatchers_step st ev) as Hsame. unfold watchers.
  destruct ev as [op|q u|q|q|q|i answer|i|q c|q c]; try (by rewrite Hsame).
  - simpl. unfold watchFile. simpl.
    destruct (decide (q = p)) as [->|Hne].
    + rewrite lookup_insert_eq. simpl. unfold set_add.
      case_decide; [done|].
      rewrite not_elem_of_app, not_elem_of_cons. split_and!; [done| |apply not_elem_of_nil].
      congruence.
    + by rewrite lookup_insert_ne.
  - intros Hin. by apply (watchers_unwatch st q c p) in Hin.
Qed.

Lemma calls_absent st evs cb p :
  cb ∉ watchers st p -> Forall (fun ev => ev ≠ Watch p cb) evs ->
  calls_to cb p (foldl step st evs) = calls_to cb p st.
Proof.
  intros Hcb Hevs. revert st Hcb.
  induction Hevs as [|ev evs Hev _ IH]; intros st Hcb; simpl; [done|].
  destruct (step_calls_absent st ev cb p Hcb Hev) as [Heq Hcb'].
  by rewrite IH.
Qed.

(** X25.  Once the function returned by [watchFile] has been called, the
    callback gets no further call for that path until it subscribes
    again, however often it had subscribed before; and a callback that
    never subscribed to a path is never called for it. *)
Theorem unwatch_silences evs1 evs2 p cb :
  Forall (fun ev => ev ≠ Watch p cb) evs2 ->
  calls_to cb p (run (evs1 ++ Unwatch p cb :: evs2)) = calls_to cb p (run evs1)
  /\ calls_to cb p (run evs2) = [].
Proof.
  intros Hevs. split.
  - rewrite cache_run_app. simpl. rewrite calls_absent; [|apply watchers_unwatch_self|done].
    unfold unwatch. by destruct (fileWatchers (run evs1) !! p).
  - unfold run. rewrite calls_absent; [done|apply not_elem_of_nil|done].
Qed.

Lemma set_delete_set_add cb ws : cb ∉ ws -> set_delete cb (set_add cb ws) = ws.
Proof.
  intros Hcb. unfold set_add, set_delete. rewrite decide_False by done.
  rewrite filter_app, filter_cons, decide_False, filter_nil, app_nil_r by tauto.
  induction ws as [|w ws IH]; [done|].
  rewrite not_elem_of_cons in Hcb. destruct Hcb as [Hne Hcb].
  rewrite filter_cons, decide_True by done. by rewrite IH.
Qed.

(** X26.  Subscribing a callback to a path and calling the function that
    [watchFile] returned leaves the watchers as they were, when the
    callback was not yet among them; when it was, the one call ends the
    earlier subscription as well. *)
Theorem watch_then_unwatch evs p cb :
  let st := run evs in
  unwatch (watchFile st p cb) p cb
  = if decide (cb ∈ watchers st p) then unwatch st p cb else st.
Proof.
  simpl. pose proof (tidy_run evs p) as Htidy.
  destruct (run evs) as [cache fw log q]. unfold watchers, unwatch, watchFile.
  simpl in *. rewrite lookup_insert_eq.
  destruct (fw !! p) as [ws|] eqn:Hp; simpl.
  - destruct (Htidy ws eq_refl) as [_ Hne].
    destruct (decide (cb ∈ ws)) as [Hin|Hin].
    + unfold set_add. rewrite (decide_True (P := cb ∈ ws)) by done.
      case_decide.
      * by rewrite delete_insert_eq.
      * by rewrite insert_insert_eq.
    + rewrite set_delete_set_add by done.
      rewrite decide_False by (by destruct ws).
      by rewrite insert_insert_eq, insert_id.
  - rewrite set_delete_set_add by apply not_elem_of_nil. simpl.
    by rewrite delete_insert_eq, delete_id.
Qed.

Lemma fileCache_on_file_lock st p u :
  fileCache (on_file_lock st p u)
  = match fileCache st !! p with
    | Some f => <[p := set_metadata f (lock_metadata (metadata f) u)]> (fileCache st)
    | None => fileCache st
    end.
Proof.
  unfold on_file_lock. destruct (fileCache st !! p); [|done].
  by rewrite fileCache_notifyWatchers.
Qed.

Lemma lock_metadata_twice m u v :
  lock_metadata (lock_metadata m u) v = lock_metadata m v.
Proof. by destruct m. Qed.

(** X27.  A lock is a note on the cached file and nothing more: an
    operation on the path of a locked file changes the cache exactly as it
    would without the lock, whoever sent it, and a second lock replaces
    the first without a look at who holds it. *)
Theorem locks_are_advisory st op p u v :
  path (file op) = p -> type op ≠ FileSystem.rename ->
  fileCache (applyOperation (on_file_lock st p u) op) = fileCache (applyOperation st op)
  /\ fileCache (on_file_lock (on_file_lock st p u) p v) = fileCache (on_file_lock st p v).
Proof.
  intros Hp Htype. split.
  - rewrite !fileCache_applyOperation, fileCache_on_file_lock.
    destruct (fileCache st !! p) as [f|] eqn:Hf; [|done].
    rewrite Hp.
    destruct (type op); try done.
    + by rewrite insert_insert_eq.
    + by rewrite insert_insert_eq.
    + by rewrite delete_insert_eq.
    + destruct (truthy (previousPath op)) as [previous|].
      * destruct (decide (previous = p)) as [->|Hne].
        -- by rewrite delete_insert_eq.
        -- rewrite delete_insert_ne by done. by rewrite insert_insert_eq.
      * by rewrite insert_insert_eq.
  - rewrite !fileCache_on_file_lock.
    destruct (fileCache st !! p) as [f|] eqn:Hf.
    + rewrite lookup_insert_eq. simpl.
      by rewrite insert_insert_eq, lock_metadata_twice.
    + by rewrite Hf.
Qed.

(** X28.  Once a [getFile] has got the file of a path from the store, it
    is in the cache, and every later [getFile] for the path returns it at
    once, without asking the store again, whatever the table holds by
    then, until the entry is written: by the going on of an
    [applyOperation] for an operation that names the path, by a lock or
    unlock of it, by the answer to another [getFile] for it that was
    waiting, or by the answer to a [listDirectory] that has a row of that
    path. *)
Theorem getFile_cached_until_written st i table p f evs :
  suspended st !! i = Some (AwaitSelect p) ->
  select_path table p = Some f ->
  untouched (step st (Resume i (Some table))) evs p ->
  getFile_call (foldl step (step st (Resume i (Some table))) evs) p
  = (foldl step (step st (Resume i (Some table))) evs, Some f).
Proof.
  intros Hi Hsel Hu.
  assert (Hp : fileCache (step st (Resume i (Some table))) !! p = Some f).
  { simpl. unfold resume. rewrite Hi. simpl. rewrite Hsel. simpl.
    by rewrite lookup_insert_eq. }
  unfold getFile_call. by rewrite (fileCache_untouched _ evs p f Hp Hu).
Qed.

(** X29.  A cached file leaves the cache in two ways only: when an
    [applyOperation] for a [delete] of its path goes on after its call of
    the store, and when one for a [move] that names its path, not empty, as
    the previous one goes on after its first call.  No other stretch of
    code removes it: not a call, a lock, an unlock, a read, a listing or a
    subscription.  So an operation applied with nothing in between removes
    the file exactly when it is a [delete] of its path or a [move] that
    names its path, not empty, as the previous one and goes elsewhere; a
    [rename] or a [move] without a previous path never does. *)
Theorem cache_entry_removed_only_by_name st ev p f :
  fileCache st !! p = Some f ->
  (fileCache (step st ev) !! p = None <->
   exists i answer op, ev = Resume i answer /\
     ((suspended st !! i = Some (AwaitDelete op) /\ path (file op) = p) \/
      (suspended st !! i = Some (AwaitMoveDelete op) /\
       previousPath op = Some p /\ p ≠ ""))) /\
  (forall op,
     fileCache (applyOperation st op) !! p = None <->
     ((type op = FileSystem.delete /\ path (file op) = p) \/
      (type op = FileSystem.move /\ previousPath op = Some p /\ p ≠ ""
       /\ path (file op) ≠ p))).
Proof.
  intros Hp. split; [split|].
  - intros Hnone.
    destruct ev as [op|q u|q|q|q|i answer|i|q c|q c]; simpl in Hnone.
    + rewrite fileCache_applyOperation_call in Hnone. congruence.
    + rewrite fileCache_on_file_lock in Hnone.
      destruct (fileCache st !! q); [|congruence].
      apply lookup_insert_None in Hnone as [? _]. congruence.
    + unfold on_file_unlock in Hnone.
      destruct (fileCache st !! q); [|congruence].
      rewrite fileCache_notifyWatchers in Hnone. simpl in Hnone.
      apply lookup_insert_None in Hnone as [? _]. congruence.
    + unfold getFile_call in Hnone. destruct (fileCache st !! q); simpl in Hnone; congruence.
    + congruence.
    + unfold resume in Hnone.
      destruct (suspended st !! i) as [s|] eqn:Hi; [|congruence].
      destruct s as [op|op|op|op|q|q]; simpl in Hnone;
        rewrite ?fileCache_notifyWatchers in Hnone; simpl in Hnone.
      * apply lookup_insert_None in Hnone as [? _]. congruence.
      * apply lookup_delete_None in Hnone as [Hpath|?]; [|congruence].
        exists i, answer, op. split; [done|]. by left.
      * destruct (truthy (previousPath op)) as [previous|] eqn:Hprev;
          simpl in Hnone; [|congruence].
        apply truthy_Some in Hprev as [Hprev Hne].
        apply lookup_delete_None in Hnone as [->|?]; [|congruence].
        exists i, answer, op. split; [done|]. by right.
      * apply lookup_insert_None in Hnone as [? _]. congruence.
      * destruct answer as [table|]; simpl in Hnone; [|congruence].
        destruct (select_path table q); simpl in Hnone; [|congruence].
        apply lookup_insert_None in Hnone as [? _]. congruence.
      * destruct answer as [files|]; simpl in Hnone; [|congruence].
        destruct (cache_all_is_Some (fileCache st) files p) as [g Hg]; [eauto|].
        congruence.
    + congruence.
    + congruence.
    + unfold unwatch in Hnone. destruct (fileWatchers st !! q); simpl in Hnone; congruence.
  - intros (i & answer & op & -> & [[Hi Hpath]|(Hi & Hprev & Hne)]); simpl;
      unfold resume; rewrite Hi; simpl.
    + rewrite fileCache_notifyWatchers. simpl. rewrite <- Hpath. apply lookup_delete_eq.
    + rewrite Hprev. simpl. rewrite decide_False by done. simpl.
      apply lookup_delete_eq.
  - intros op. rewrite fileCache_applyOperation. split.
    + intros Hnone. destruct (type op) eqn:Htype.
      * apply lookup_insert_None in Hnone as [? _]. congruence.
      * apply lookup_insert_None in Hnone as [? _]. congruence.
      * left. split; [done|].
        destruct (decide (path (file op) = p)) as [|Hne]; [done|].
        rewrite lookup_delete_ne in Hnone by done. congruence.
      * right. destruct (truthy (previousPath op)) as [previous|] eqn:Hprev.
        -- apply truthy_Some in Hprev as [Hprev Hne].
           apply lookup_insert_None in Hnone as [Hdel Hpath].
           destruct (decide (previous = p)) as [->|Hne'].
           ++ done.
           ++ rewrite lookup_delete_ne in Hdel by done. congruence.
        -- apply lookup_insert_None in Hnone as [? _]. congruence.
      * congruence.
    + intros [[Htype Hpath]|(Htype & Hprev & Hne & Hpath)]; rewrite Htype.
      * rewrite <- Hpath. apply lookup_delete_eq.
      * rewrite Hprev. simpl. rewrite decide_False by done.
        rewrite lookup_insert_ne by done. apply lookup_delete_eq.
Qed.

End FileCacheFacts.

(** * The collaboration service of the client *)

Module ClientFacts.
Import Client.
Section ClientFacts.
Variables Users Edit : Type.
Implicit Types (st : Service Users Edit) (ev : Event Users Edit).

Lemma live_step_other st ev n :
  n ∈ live _ _ st -> socket _ _ st ≠ Some n -> ev ≠ Connect n ->
  n ∈ live _ _ (step st ev) /\ socket _ _ (step st ev) ≠ Some n.
Proof.
  intros Hn Hs Hev. destruct ev; simpl; try done.
  - unfold connect. simpl. split; [|congruence].
    apply elem_of_app. by left.
  - unfold disconnect. destruct (socket _ _ st) as [k|] eqn:Hk; simpl;
      [|by rewrite Hk].
    split; [|done]. apply list_elem_of_filter. split; [congruence|done].
  - unfold updateCursor, emit.
    destruct (socket _ _ st) eqn:Hk; simpl; rewrite ?Hk; done.
  - unfold sendChange, emit.
    destruct (socket _ _ st) eqn:Hk; simpl; rewrite ?Hk; done.
  - unfold receive. by case_decide.
Qed.

Lemma live_step_kept st ev n :
  n ∈ live _ _ st -> ~ is_disconnect ev -> n ∈ live _ _ (step st ev).
Proof.
  intros Hn Hev. destruct ev; simpl in *; try done.
  - apply elem_of_app. by left.
  - unfold updateCursor, emit. by destruct (socket _ _ st).
  - unfold sendChange, emit. by destruct (socket _ _ st).
  - unfold receive. by case_decide.
Qed.

Lemma live_kept st evs n :
  n ∈ live _ _ st -> Forall (fun ev => ~ is_disconnect ev) evs ->
  n ∈ live _ _ (foldl step st evs).
Proof.
  intros Hn Hevs. revert st Hn.
  induction Hevs as [|ev evs Hev _ IH]; intros st Hn; simpl; [done|].
  by apply IH, live_step_kept.
Qed.

Lemma live_other st evs n :
  n ∈ live _ _ st -> socket _ _ st ≠ Some n -> n ∉ made evs ->
  n ∈ live _ _ (foldl step st evs) /\ socket _ _ (foldl step st evs) ≠ Some n.
Proof.
  revert st. induction evs as [|ev evs IH]; intros st Hn Hs Hmade; simpl; [done|].
  assert (Hev : ev ≠ Connect n).
  { intros ->. apply Hmade. left. }
  destruct (live_step_other st ev n Hn Hs Hev) as [Hn' Hs'].
  apply IH; [done|done|].
  intros Hin. apply Hmade. unfold made. simpl.
  destruct ev; try done. by right.
Qed.

(** X30.  A second [connect] without a [disconnect] in between leaves the
    first socket open for good: [disconnect] only ever closes the current
    socket, so whatever the service is asked to do later, the replaced
    socket stays open with its listeners, and a presence event that comes
    in on it is still handed to every presence callback. *)
Theorem replaced_socket_never_closed evs1 mid evs2 n m users :
  NoDup (made (evs1 ++ Connect n :: mid ++ Connect m :: evs2)) ->
  Forall (fun ev => ~ is_disconnect ev) mid ->
  let st := run (evs1 ++ Connect n :: mid ++ Connect m :: evs2) in
  n ∈ live _ _ st /\
  socket _ _ st ≠ Some n /\
  called _ _ (step st (Receive n (GotPresence users)))
  = called _ _ st ++ ((fun cb => (cb, GotPresence users)) <$> presenceCallbacks _ _ st).
Proof.
  intros Hfresh Hmid. simpl.
  assert (Hmade : made (evs1 ++ Connect n :: mid ++ Connect m :: evs2)
                  = made evs1 ++ n :: made mid ++ m :: made evs2).
  { unfold made. rewrite omap_app. simpl. by rewrite omap_app. }
  rewrite Hmade in Hfresh.
  apply NoDup_app in Hfresh as (_ & _ & Hfresh).
  apply NoDup_cons in Hfresh as [Hn _].
  rewrite not_elem_of_app, not_elem_of_cons in Hn.
  destruct Hn as (_ & Hnm & Hn2).
  assert (Hlive : n ∈ live _ _ (run (evs1 ++ Connect n :: mid ++ Connect m :: evs2))
                  /\ socket _ _ (run (evs1 ++ Connect n :: mid ++ Connect m :: evs2)) ≠ Some n).
  { unfold run. rewrite foldl_app. simpl. rewrite foldl_app. simpl.
    apply live_other; [|simpl; congruence|done].
    simpl. apply elem_of_app. left.
    apply live_kept; [|done]. simpl. apply elem_of_app. right. left. }
  destruct Hlive as [Hlive Hsock]. split_and!; try done.
  unfold receive. by rewrite decide_True.
Qed.

End ClientFacts.
End ClientFacts.

(** * The further properties at work on examples *)

Lemma applyChange_line_count_witness :
  in_bounds (Js.split_nl (Js.join_nl [str "abc"; str "def"])) (mkRange 1 2 2 2) /\
  Z.of_nat (length (Js.split_nl (Js.join_nl [str "aX"; str "Y"; str "Zef"])))
  = Z.of_nat (length (Js.split_nl (Js.join_nl [str "abc"; str "def"])))
    - (endLineNumber (mkRange 1 2 2 2) - startLineNumber (mkRange 1 2 2 2) + 1)
    + Z.of_nat (length (Js.split_nl (Js.join_nl [str "X"; str "Y"; str "Z"]))).
Proof.
  assert (Hin : in_bounds (Js.split_nl (Js.join_nl [str "abc"; str "def"])) (mkRange 1 2 2 2)).
  { unfold in_bounds, position. simpl. lia. }
  split; [exact Hin|].
  apply (applyChange_line_count (Js.join_nl [str "abc"; str "def"]) (mkRange 1 2 2 2)
           (Js.join_nl [str "X"; str "Y"; str "Z"])
           (Js.join_nl [str "aX"; str "Y"; str "Zef"]) Hin).
  vm_compute. reflexivity.
Defined.

Lemma applyChange_flat_splice_witness :
  in_bounds (Js.split_nl (Js.join_nl [str "abc"; str "def"])) (mkRange 1 2 2 2) /\
  applyChange (Js.join_nl [str "abc"; str "def"])
              (mkTextChange (Some (mkRange 1 2 2 2)) (str "XY"))
  = Normal (take 1 (Js.join_nl [str "abc"; str "def"]) ++ str "XY"
            ++ drop 5 (Js.join_nl [str "abc"; str "def"])).
Proof.
  assert (Hin : in_bounds (Js.split_nl (Js.join_nl [str "abc"; str "def"])) (mkRange 1 2 2 2)).
  { unfold in_bounds, position. simpl. lia. }
  split; [exact Hin|].
  exact (applyChange_flat_splice (Js.join_nl [str "abc"; str "def"]) (mkRange 1 2 2 2)
           (str "XY") Hin).
Defined.

Lemma applyChange_same_text_witness :
  in_bounds (Js.split_nl (Js.join_nl [str "abc"; str "def"])) (mkRange 1 2 2 2) /\
  spanned_text (Js.join_nl [str "abc"; str "def"]) (mkRange 1 2 2 2)
  = Js.join_nl [str "bc"; str "d"] /\
  applyChange (Js.join_nl [str "abc"; str "def"])
              (mkTextChange (Some (mkRange 1 2 2 2))
                 (spanned_text (Js.join_nl [str "abc"; str "def"]) (mkRange 1 2 2 2)))
  = Normal (Js.join_nl [str "abc"; str "def"]).
Proof.
  assert (Hin : in_bounds (Js.split_nl (Js.join_nl [str "abc"; str "def"])) (mkRange 1 2 2 2)).
  { unfold in_bounds, position. simpl. lia. }
  split; [exact Hin|]. split; [vm_compute; reflexivity|].
  exact (applyChange_same_text (Js.join_nl [str "abc"; str "def"]) (mkRange 1 2 2 2) Hin).
Defined.

Lemma applyChange_undo_witness :
  in_bounds (Js.split_nl (Js.join_nl [str "abc"; str "def"])) (mkRange 1 2 2 2) /\
  inverse_change (Js.join_nl [str "abc"; str "def"]) (mkRange 1 2 2 2)
                 (Js.join_nl [str "X"; str "Y"; str "Z"])
  = mkTextChange (Some (mkRange 1 2 3 2)) (Js.join_nl [str "bc"; str "d"]) /\
  applyChange (Js.join_nl [str "aX"; str "Y"; str "Zef"])
              (inverse_change (Js.join_nl [str "abc"; str "def"]) (mkRange 1 2 2 2)
                              (Js.join_nl [str "X"; str "Y"; str "Z"]))
  = Normal (Js.join_nl [str "abc"; str "def"]).
Proof.
  assert (Hin : in_bounds (Js.split_nl (Js.join_nl [str "abc"; str "def"])) (mkRange 1 2 2 2)).
  { unfold in_bounds, position. simpl. lia. }
  split; [exact Hin|]. split; [vm_compute; reflexivity|].
  apply (applyChange_undo (Js.join_nl [str "abc"; str "def"]) (mkRange 1 2 2 2)
           (Js.join_nl [str "X"; str "Y"; str "Z"])
           (Js.join_nl [str "aX"; str "Y"; str "Zef"]) Hin).
  vm_compute. reflexivity.
Defined.

Lemma applyChange_insertions_compose_witness :
  position (Js.split_nl (Js.join_nl [str "abc"; str "def"])) 2 2 /\
  end_of_insertion 2 2 (Js.join_nl [str "X"; str "Y"]) = (3, 2) /\
  applyChange (Js.join_nl [str "abc"; str "dX"; str "Yef"])
              (insertion (end_of_insertion 2 2 (Js.join_nl [str "X"; str "Y"])).1
                         (end_of_insertion 2 2 (Js.join_nl [str "X"; str "Y"])).2
                         (str "Z"))
  = applyChange (Js.join_nl [str "abc"; str "def"])
                (insertion 2 2 (Js.join_nl [str "X"; str "Y"] ++ str "Z")).
Proof.
  assert (Hpos : position (Js.split_nl (Js.join_nl [str "abc"; str "def"])) 2 2).
  { unfold position. simpl. lia. }
  split; [exact Hpos|]. split; [vm_compute; reflexivity|].
  apply (applyChange_insertions_compose (Js.join_nl [str "abc"; str "def"]) 2 2
           (Js.join_nl [str "X"; str "Y"]) (str "Z")
           (Js.join_nl [str "abc"; str "dX"; str "Yef"]) Hpos).
  vm_compute. reflexivity.
Defined.

Lemma malformed_profile_throws_mid_join_witness :
  truthy (projectId (mkQuery (Some "proj") (Some "bob") (Some "oops"))) = Some "proj" /\
  truthy (q_userId (mkQuery (Some "proj") (Some "bob") (Some "oops"))) = Some "bob" /\
  truthy (q_profile (mkQuery (Some "proj") (Some "bob") (Some "oops"))) = Some "oops" /\
  parse_example "oops" = None /\
  (connection parse_example Examples.alone 2
              (mkQuery (Some "proj") (Some "bob") (Some "oops")) 1).2
  = Uncaught SyntaxError.
Proof.
  split; [reflexivity|]. split; [reflexivity|]. split; [reflexivity|].
  split; [reflexivity|].
  exact (proj1 (malformed_profile_throws_mid_join string parse_example Examples.alone 2%nat
                  (mkQuery (Some "proj") (Some "bob") (Some "oops")) 1
                  "proj" "bob" "oops" eq_refl eq_refl eq_refl eq_refl)).
Defined.

Lemma cursor_updates_own_record_witness :
  sockets Examples.both !! 1%nat
  = Some (mkSocket "proj" (Some (mkListeners "ann" 0%nat))) /\
  JsMap.get "ann" (users (deref Examples.both 0))
  = Some (mkPresence "ann" "{}" (mkCursor 0 0) None 0) /\
  JsMap.get "ann" (users (deref (on_cursor Examples.both 1 (mkCursor 3 4) None 7).1 0))
  = Some (mkPresence "ann" "{}" (mkCursor 3 4) None 7).
Proof.
  assert (H : sockets Examples.both !! 1%nat
              = Some (mkSocket "proj" (Some (mkListeners "ann" 0%nat))))
    by (vm_compute; reflexivity).
  assert (Hu : JsMap.get "ann" (users (deref Examples.both 0))
               = Some (mkPresence "ann" "{}" (mkCursor 0 0) None 0))
    by (vm_compute; reflexivity).
  split; [exact H|]. split; [exact Hu|].
  exact (proj1 (cursor_updates_own_record string Examples.both 1 "proj" "ann" 0
                  (mkPresence "ann" "{}" (mkCursor 0 0) None 0)
                  (mkCursor 3 4) None 7 H Hu)).
Defined.

Lemma join_appends_presence_witness :
  truthy (projectId Examples.bob) = Some "proj" /\
  truthy (q_userId Examples.bob) = Some "bob" /\
  truthy (q_profile Examples.bob) = Some "{}" /\
  parse_example "{}" = Some "{}" /\
  rooms Examples.alone !! "proj" = Some 0%nat /\
  (0 < length (heap Examples.alone))%nat /\
  JsMap.get "bob" (users (deref Examples.alone 0)) = None /\
  presence (connection parse_example Examples.alone 2 Examples.bob 1).1 0
  = PresenceEvent (JsMap.values (users (deref Examples.alone 0))
                   ++ [mkPresence "bob" "{}" (mkCursor 0 0) None 1]).
Proof.
  assert (Hr : rooms Examples.alone !! "proj" = Some 0%nat) by (vm_compute; reflexivity).
  assert (Hl : (0 < length (heap Examples.alone))%nat) by (vm_compute; lia).
  assert (Hu : JsMap.get "bob" (users (deref Examples.alone 0)) = None)
    by (vm_compute; reflexivity).
  split; [reflexivity|]. split; [reflexivity|]. split; [reflexivity|].
  split; [reflexivity|]. split; [exact Hr|]. split; [exact Hl|]. split; [exact Hu|].
  exact (proj1 (join_appends_presence string parse_example Examples.alone 2%nat
                  Examples.bob 1 "proj" "bob" "{}" "{}" 0%nat
                  eq_refl eq_refl eq_refl eq_refl Hr Hl Hu)).
Defined.

Lemma buffer_changed_only_by_own_edit_witness :
  consistent Examples.alone /\
  rooms Examples.alone !! "proj" = Some 0%nat /\
  content (deref (step parse_example Examples.alone
                       (Edit 1 (mkChange (Some (mkRange 1 1 1 1)) (JStr (str "abc"))))).1 0)
  ≠ content (deref Examples.alone 0) /\
  exists sid change t u,
    Edit 1 (mkChange (Some (mkRange 1 1 1 1)) (JStr (str "abc"))) = Edit sid change /\
    text change = JStr t /\
    sockets Examples.alone !! sid = Some (mkSocket "proj" (Some (mkListeners u 0%nat))).
Proof.
  assert (Hc : consistent Examples.alone).
  { apply (consistent_run string parse_example init [Connect 1 Examples.ann 0]
             (consistent_init string)).
    simpl. split_and!; try done. intros p u _ _. apply not_elem_of_nil. }
  assert (Hr : rooms Examples.alone !! "proj" = Some 0%nat) by (vm_compute; reflexivity).
  assert (Hne : content (deref (step parse_example Examples.alone
                                  (Edit 1 (mkChange (Some (mkRange 1 1 1 1))
                                                    (JStr (str "abc"))))).1 0)
                ≠ content (deref Examples.alone 0)).
  { intros H. vm_compute in H. discriminate H. }
  split; [exact Hc|]. split; [exact Hr|]. split; [exact Hne|].
  exact (buffer_changed_only_by_own_edit string parse_example Examples.alone
           (Edit 1 (mkChange (Some (mkRange 1 1 1 1)) (JStr (str "abc")))) "proj" 0%nat
           Hc Hr Hne).
Defined.

Lemma cursor_always_broadcast_witness :
  consistent Examples.alone /\
  sockets Examples.alone !! 1%nat
  = Some (mkSocket "proj" (Some (mkListeners "ann" 0%nat))) /\
  exists user,
    JsMap.get "ann" (users (deref Examples.alone 0)) = Some user /\
    emissions_of parse_example Examples.alone (Cursor 1 (mkCursor 3 4) None 7)
    = [mkEmission "proj" None
         (presence (on_cursor Examples.alone 1 (mkCursor 3 4) None 7).1 0)
         (members Examples.alone "proj")].
Proof.
  assert (Hc : consistent Examples.alone).
  { apply (consistent_run string parse_example init [Connect 1 Examples.ann 0]
             (consistent_init string)).
    simpl. split_and!; try done. intros p u _ _. apply not_elem_of_nil. }
  assert (H : sockets Examples.alone !! 1%nat
              = Some (mkSocket "proj" (Some (mkListeners "ann" 0%nat))))
    by (vm_compute; reflexivity).
  split; [exact Hc|]. split; [exact H|].
  exact (cursor_always_broadcast string parse_example Examples.alone 1 "proj" "ann" 0
           (mkCursor 3 4) None 7 Hc H).
Defined.

Lemma leave_keeps_shared_room_witness :
  sockets Examples.both !! 1%nat
  = Some (mkSocket "proj" (Some (mkListeners "ann" 0%nat))) /\
  JsMap.get "bob" (users (deref Examples.both 0))
  = Some (mkPresence "bob" "{}" (mkCursor 0 0) None 1) /\
  "bob" ≠ "ann" /\
  rooms (on_disconnect Examples.both 1).1 = rooms Examples.both.
Proof.
  assert (H : sockets Examples.both !! 1%nat
              = Some (mkSocket "proj" (Some (mkListeners "ann" 0%nat))))
    by (vm_compute; reflexivity).
  assert (Hu : JsMap.get "bob" (users (deref Examples.both 0))
               = Some (mkPresence "bob" "{}" (mkCursor 0 0) None 1))
    by (vm_compute; reflexivity).
  assert (Hne : "bob" ≠ "ann") by discriminate.
  split; [exact H|]. split; [exact Hu|]. split; [exact Hne|].
  exact (proj1 (leave_keeps_shared_room string Examples.both 1 "proj" "ann" 0 "bob"
                  (mkPresence "bob" "{}" (mkCursor 0 0) None 1) H Hu Hne)).
Defined.

Lemma buffers_empty_without_string_edit_witness :
  Forall no_string_edit [Connect 1 Examples.ann 0; Edit 1 (mkChange None JUndefined)] /\
  heap (run parse_example init
            [Connect 1 Examples.ann 0; Edit 1 (mkChange None JUndefined)]) !! 0%nat
  = Some (mkRoom [("ann", mkPresence "ann" "{}" (mkCursor 0 0) None 0)] []) /\
  content (mkRoom [("ann", mkPresence "ann" "{}" (mkCursor 0 0) None 0)] []) = [].
Proof.
  assert (Hq : Forall no_string_edit
                 [Connect 1 Examples.ann 0; Edit 1 (mkChange None JUndefined)]).
  { apply Forall_cons_2; [exact I|]. apply Forall_cons_2; [reflexivity|]. apply Forall_nil_2. }
  assert (Hh : heap (run parse_example init
                       [Connect 1 Examples.ann 0; Edit 1 (mkChange None JUndefined)]) !! 0%nat
               = Some (mkRoom [("ann", mkPresence "ann" "{}" (mkCursor 0 0) None 0)] []))
    by (vm_compute; reflexivity).
  split; [exact Hq|]. split; [exact Hh|].
  exact (buffers_empty_without_string_edit string parse_example _ _ _ Hq Hh).
Defined.


Lemma admissible_run_consistent_witness :
  admissible_trace parse_example init [Connect 1 Examples.ann 0; Connect 2 Examples.bob 1] /\
  consistent (run parse_example init [Connect 1 Examples.ann 0; Connect 2 Examples.bob 1]).
Proof.
  assert (Hadm : admissible_trace parse_example init
                   [Connect 1 Examples.ann 0; Connect 2 Examples.bob 1]).
  { simpl. split_and!; try done.
    - intros p u _ _. apply not_elem_of_nil.
    - intros p u [= <-] [= <-].
      assert (E : attached (connection parse_example init 1 Examples.ann 0).1 "proj" = ["ann"])
        by (vm_compute; reflexivity).
      rewrite E. rewrite list_elem_of_singleton. discriminate. }
  split; [exact Hadm|].
  exact (admissible_run_consistent string parse_example _ Hadm).
Defined.

Lemma failure_blocks_queue_witness :
  FileSystem.awaiting
    (FileSystem.run [FileSystem.Call (FileSystem.mkOp FileSystem.create "a.ts" None "ann" 0)])
  = [FileSystem.mkOp FileSystem.create "a.ts" None "ann" 0] /\
  FileSystem.applied
    (FileSystem.run
       ([FileSystem.Call (FileSystem.mkOp FileSystem.create "a.ts" None "ann" 0)]
        ++ [FileSystem.Reject 0]
        ++ [FileSystem.Call (FileSystem.mkOp FileSystem.create "b.ts" None "bob" 1);
            FileSystem.Resolve 0]))
  = FileSystem.applied
      (FileSystem.run
         ([FileSystem.Call (FileSystem.mkOp FileSystem.create "a.ts" None "ann" 0)]
          ++ [FileSystem.Reject 0])).
Proof.
  split; [reflexivity|].
  exact (proj1 (proj2 (FileSystemMore.failure_blocks_queue
                         [FileSystem.Call (FileSystem.mkOp FileSystem.create "a.ts" None "ann" 0)]
                         (FileSystem.mkOp FileSystem.create "a.ts" None "ann" 0)
                         [FileSystem.Call (FileSystem.mkOp FileSystem.create "b.ts" None "bob" 1);
                          FileSystem.Resolve 0]
                         eq_refl))).
Defined.

Lemma queue_drains_witness :
  Forall (fun m => ~ FileSystemRuns.is_reject m)
         [FileSystem.Call (FileSystem.mkOp FileSystem.create "a.ts" None "ann" 0);
          FileSystem.Call (FileSystem.mkOp FileSystem.create "b.ts" None "bob" 1)] /\
  FileSystem.isProcessing
    (FileSystem.run
       ([FileSystem.Call (FileSystem.mkOp FileSystem.create "a.ts" None "ann" 0);
         FileSystem.Call (FileSystem.mkOp FileSystem.create "b.ts" None "bob" 1)]
        ++ FileSystemRuns.resolves 2))
  = false.
Proof.
  assert (H : Forall (fun m => ~ FileSystemRuns.is_reject m)
                [FileSystem.Call (FileSystem.mkOp FileSystem.create "a.ts" None "ann" 0);
                 FileSystem.Call (FileSystem.mkOp FileSystem.create "b.ts" None "bob" 1)]).
  { apply Forall_cons_2; [simpl; tauto|]. apply Forall_cons_2; [simpl; tauto|].
    apply Forall_nil_2. }
  split; [exact H|].
  exact (proj1 (FileSystemMore.queue_drains _ H)).
Defined.

Lemma fileName_after_last_slash_witness :
  ("/"%char ∉ str "main.ts") /\
  Paths.fileName (str "src/lib" ++ "/"%char :: str "main.ts") = str "main.ts".
Proof.
  assert (H : "/"%char ∉ str "main.ts").
  { refine (bool_decide_unpack _ _). vm_compute. exact I. }
  split; [exact H|].
  exact (proj1 (PathsFacts.fileName_after_last_slash (str "src/lib") (str "main.ts") H)).
Defined.

Lemma detectLanguage_by_extension_witness :
  ("."%char ∉ str "PY") /\
  Paths.languageOf (Paths.toLowerCase (str "PY")) = Paths.Name (str "python") /\
  Paths.detectLanguage (str "src/Main" ++ "."%char :: str "PY")
  = Paths.languageOf (Paths.toLowerCase (str "PY")).
Proof.
  assert (H : "."%char ∉ str "PY").
  { refine (bool_decide_unpack _ _). vm_compute. exact I. }
  split; [exact H|]. split; [vm_compute; reflexivity|].
  exact (proj1 (PathsFacts.detectLanguage_by_extension (str "src/Main") (str "PY") H)).
Defined.

Lemma cache_keyed_by_path_witness :
  FileCache.fileCache
    (FileCache.run
       [FileCache.Apply
          (FileCache.mkOp FileSystem.create (FileCache.example_file "a.ts") None "ann" 0);
        FileCache.Resume 0 None])
    !! "a.ts"
  = Some (FileCache.example_file "a.ts") /\
  FileCache.path (FileCache.example_file "a.ts") = "a.ts".
Proof.
  assert (H : FileCache.fileCache
                (FileCache.run
                   [FileCache.Apply
                      (FileCache.mkOp FileSystem.create (FileCache.example_file "a.ts")
                                      None "ann" 0);
                    FileCache.Resume 0 None])
                !! "a.ts"
              = Some (FileCache.example_file "a.ts")) by (vm_compute; reflexivity).
  split; [exact H|].
  exact (FileCacheFacts.cache_keyed_by_path _ _ _ H).
Defined.

Lemma unwatch_silences_witness :
  Forall (fun ev => ev ≠ FileCache.Watch "a.ts" 1%nat)
         [FileCache.Apply
            (FileCache.mkOp FileSystem.update (FileCache.example_file "a.ts") None "ann" 0);
          FileCache.Resume 0 None] /\
  FileCache.calls_to 1%nat "a.ts"
    (FileCache.run
       ([FileCache.Watch "a.ts" 1%nat]
        ++ FileCache.Unwatch "a.ts" 1%nat
        :: [FileCache.Apply
              (FileCache.mkOp FileSystem.update (FileCache.example_file "a.ts") None "ann" 0);
            FileCache.Resume 0 None]))
  = FileCache.calls_to 1%nat "a.ts" (FileCache.run [FileCache.Watch "a.ts" 1%nat]).
Proof.
  assert (H : Forall (fun ev => ev ≠ FileCache.Watch "a.ts" 1%nat)
                [FileCache.Apply
                   (FileCache.mkOp FileSystem.update (FileCache.example_file "a.ts")
                                   None "ann" 0);
                 FileCache.Resume 0 None]).
  { apply Forall_cons_2; [discriminate|]. apply Forall_cons_2; [discriminate|].
    apply Forall_nil_2. }
  split; [exact H|].
  exact (proj1 (FileCacheFacts.unwatch_silences [FileCache.Watch "a.ts" 1%nat] _ "a.ts" 1%nat H)).
Defined.

Lemma locks_are_advisory_witness :
  FileCache.path
    (FileCache.file
       (FileCache.mkOp FileSystem.delete (FileCache.example_file "a.ts") None "bob" 1))
  = "a.ts" /\
  FileCache.type
    (FileCache.mkOp FileSystem.delete (FileCache.example_file "a.ts") None "bob" 1)
  ≠ FileSystem.rename /\
  FileCache.fileCache
    (FileCache.applyOperation
       (FileCache.on_file_lock
          (FileCache.run
             [FileCache.Apply
                (FileCache.mkOp FileSystem.create (FileCache.example_file "a.ts")
                                None "ann" 0);
              FileCache.Resume 0 None])
          "a.ts" "ann")
       (FileCache.mkOp FileSystem.delete (FileCache.example_file "a.ts") None "bob" 1))
  = FileCache.fileCache
      (FileCache.applyOperation
         (FileCache.run
            [FileCache.Apply
               (FileCache.mkOp FileSystem.create (FileCache.example_file "a.ts")
                               None "ann" 0);
             FileCache.Resume 0 None])
         (FileCache.mkOp FileSystem.delete (FileCache.example_file "a.ts") None "bob" 1)).
Proof.
  assert (Ht : FileCache.type
                 (FileCache.mkOp FileSystem.delete (FileCache.example_file "a.ts")
                                 None "bob" 1)
               ≠ FileSystem.rename) by discriminate.
  split; [reflexivity|]. split; [exact Ht|].
  exact (proj1 (FileCacheFacts.locks_are_advisory
                  (FileCache.run
                     [FileCache.Apply
                        (FileCache.mkOp FileSystem.create (FileCache.example_file "a.ts")
                                        None "ann" 0);
                      FileCache.Resume 0 None])
                  (FileCache.mkOp FileSystem.delete (FileCache.example_file "a.ts")
                                  None "bob" 1)
                  "a.ts" "ann" "bob" eq_refl Ht)).
Defined.

Lemma getFile_cached_until_written_witness :
  FileCache.suspended (FileCache.run [FileCache.Get "a.ts"]) !! 0%nat
  = Some (FileCache.AwaitSelect "a.ts") /\
  FileCache.select_path [FileCache.example_file "a.ts"] "a.ts"
  = Some (FileCache.example_file "a.ts") /\
  FileCache.untouched
    (FileCache.step (FileCache.run [FileCache.Get "a.ts"])
                    (FileCache.Resume 0 (Some [FileCache.example_file "a.ts"])))
    [FileCache.Get "b.ts";
     FileCache.Resume 0 (Some [FileCache.example_file "b.ts"]);
     FileCache.Watch "a.ts" 1%nat]
    "a.ts" /\
  (FileCache.getFile_call
     (foldl FileCache.step
            (FileCache.step (FileCache.run [FileCache.Get "a.ts"])
                            (FileCache.Resume 0 (Some [FileCache.example_file "a.ts"])))
            [FileCache.Get "b.ts";
             FileCache.Resume 0 (Some [FileCache.example_file "b.ts"]);
             FileCache.Watch "a.ts" 1%nat])
     "a.ts").2
  = Some (FileCache.example_file "a.ts").
Proof.
  assert (Hi : FileCache.suspended (FileCache.run [FileCache.Get "a.ts"]) !! 0%nat
               = Some (FileCache.AwaitSelect "a.ts")) by (vm_compute; reflexivity).
  assert (Hsel : FileCache.select_path [FileCache.example_file "a.ts"] "a.ts"
                 = Some (FileCache.example_file "a.ts")) by (vm_compute; reflexivity).
  assert (Hu : FileCache.untouched
                 (FileCache.step (FileCache.run [FileCache.Get "a.ts"])
                                 (FileCache.Resume 0 (Some [FileCache.example_file "a.ts"])))
                 [FileCache.Get "b.ts";
                  FileCache.Resume 0 (Some [FileCache.example_file "b.ts"]);
                  FileCache.Watch "a.ts" 1%nat]
                 "a.ts").
  { simpl. split; [tauto|]. split; [|split; [tauto|exact I]].
    vm_compute. intros H. discriminate H. }
  split; [exact Hi|]. split; [exact Hsel|]. split; [exact Hu|].
  exact (f_equal snd (FileCacheFacts.getFile_cached_until_written _ _ _ _ _ _ Hi Hsel Hu)).
Defined.

Lemma cache_entry_removed_only_by_name_witness :
  FileCache.fileCache
    (FileCache.run
       [FileCache.Apply
          (FileCache.mkOp FileSystem.create (FileCache.example_file "a.ts") None "ann" 0);
        FileCache.Resume 0 None])
    !! "a.ts"
  = Some (FileCache.example_file "a.ts") /\
  (FileCache.fileCache
     (FileCache.applyOperation
        (FileCache.run
           [FileCache.Apply
              (FileCache.mkOp FileSystem.create (FileCache.example_file "a.ts")
                              None "ann" 0);
            FileCache.Resume 0 None])
        (FileCache.mkOp FileSystem.rename (FileCache.example_file "b.ts")
                        (Some "a.ts") "ann" 1))
     !! "a.ts" = None <->
   (FileCache.type
      (FileCache.mkOp FileSystem.rename (FileCache.example_file "b.ts")
                      (Some "a.ts") "ann" 1) = FileSystem.delete /\
    FileCache.path
      (FileCache.file
         (FileCache.mkOp FileSystem.rename (FileCache.example_file "b.ts")
                         (Some "a.ts") "ann" 1)) = "a.ts") \/
   (FileCache.type
      (FileCache.mkOp FileSystem.rename (FileCache.example_file "b.ts")
                      (Some "a.ts") "ann" 1) = FileSystem.move /\
    FileCache.previousPath
      (FileCache.mkOp FileSystem.rename (FileCache.example_file "b.ts")
                      (Some "a.ts") "ann" 1) = Some "a.ts" /\
    "a.ts" ≠ "" /\
    FileCache.path
      (FileCache.file
         (FileCache.mkOp FileSystem.rename (FileCache.example_file "b.ts")
                         (Some "a.ts") "ann" 1)) ≠ "a.ts")).
Proof.
  assert (H : FileCache.fileCache
                (FileCache.run
                   [FileCache.Apply
                      (FileCache.mkOp FileSystem.create (FileCache.example_file "a.ts")
                                      None "ann" 0);
                    FileCache.Resume 0 None])
                !! "a.ts"
              = Some (FileCache.example_file "a.ts")) by (vm_compute; reflexivity).
  split; [exact H|].
  exact (proj2 (FileCacheFacts.cache_entry_removed_only_by_name _ (FileCache.Get "a.ts") _ _ H)
               (FileCache.mkOp FileSystem.rename (FileCache.example_file "b.ts")
                               (Some "a.ts") "ann" 1)).
Defined.

Lemma replaced_socket_never_closed_witness :
  NoDup (Client.made (Users := nat) (Edit := nat)
           ([] ++ Client.Connect 1 :: [] ++ Client.Connect 2 :: [Client.Disconnect])) /\
  Forall (fun ev : Client.Event nat nat => ~ Client.is_disconnect ev) [] /\
  1%nat ∈ Client.live nat nat
            (Client.run ([] ++ Client.Connect 1 :: [] ++ Client.Connect 2 :: [Client.Disconnect])) /\
  Client.socket nat nat
    (Client.run ([] ++ Client.Connect 1 :: [] ++ Client.Connect 2 :: [Client.Disconnect]))
  ≠ Some 1%nat.
Proof.
  assert (Hnd : NoDup (Client.made (Users := nat) (Edit := nat)
                         ([] ++ Client.Connect 1 :: [] ++ Client.Connect 2
                             :: [Client.Disconnect]))).
  { refine (bool_decide_unpack _ _). vm_compute. exact I. }
  assert (Hmid : Forall (fun ev : Client.Event nat nat => ~ Client.is_disconnect ev) [])
    by apply Forall_nil_2.
  split; [exact Hnd|]. split; [exact Hmid|].
  destruct (ClientFacts.replaced_socket_never_closed nat nat [] [] [Client.Disconnect]
              1%nat 2%nat 0%nat Hnd Hmid) as (Hlive & Hsock & _).
  split; [exact Hlive|exact Hsock].
Defined.

Lemma detectLanguage_names_witness :
  ("."%char ∉ str "Constructor") /\
  Paths.detectLanguage (str "lib/Widget" ++ "."%char :: str "Constructor")
  = Paths.InheritedObject (str "constructor").
Proof.
  assert (H : "."%char ∉ str "Constructor").
  { refine (bool_decide_unpack _ _). vm_compute. exact I. }
  split; [exact H|].
  destruct (PathsFacts.detectLanguage_names (str "lib/Widget") (str "Constructor") H)
    as [(_ & Hl & _)|(Hne & _)].
  - exact Hl.
  - exfalso. apply Hne. vm_compute. reflexivity.
Defined.

Lemma change_within_lines_applied_witness :
  sockets (run parse_example init
             [Connect 1 Examples.ann 0;
              Edit 1 (mkChange (Some (mkRange 1 1 1 1)) (JStr (str "abc")))]) !! 1%nat
  = Some (mkSocket "proj" (Some (mkListeners "ann" 0%nat))) /\
  ~ line_out_of_bounds (Js.split_nl (content (deref Examples.typed 0))) 1 /\
  (on_change Examples.typed 1 (mkChange (Some (mkRange 1 10 1 20)) (JStr (str "X")))).2
  = Returned /\
  sockets (on_change Examples.typed 1 (mkChange (Some (mkRange 1 10 1 20)) (JStr (str "X")))).1
  = sockets Examples.typed.
Proof.
  assert (H : sockets (run parse_example init
                         [Connect 1 Examples.ann 0;
                          Edit 1 (mkChange (Some (mkRange 1 1 1 1)) (JStr (str "abc")))])
                !! 1%nat
              = Some (mkSocket "proj" (Some (mkListeners "ann" 0%nat))))
    by (vm_compute; reflexivity).
  assert (Hin : ~ line_out_of_bounds (Js.split_nl (content (deref Examples.typed 0))) 1).
  { assert (E : Js.split_nl (content (deref Examples.typed 0)) = [str "abc"])
      by (vm_compute; reflexivity).
    rewrite E. unfold line_out_of_bounds. simpl. lia. }
  split; [exact H|]. split; [exact Hin|].
  destruct (change_within_lines_applied string parse_example
              [Connect 1 Examples.ann 0;
               Edit 1 (mkChange (Some (mkRange 1 1 1 1)) (JStr (str "abc")))]
              1%nat "proj" "ann" 0%nat
              (mkChange (Some (mkRange 1 10 1 20)) (JStr (str "X")))
              (mkRange 1 10 1 20) (str "X") H eq_refl eq_refl Hin Hin)
    as (Ho & _ & _ & _ & _ & _ & Hs).
  split; [exact Ho|exact Hs].
Defined.


